(** * homebridge-sleepme: read-through cache and write queue

    A shallow embedding of the two engines of the plugin:

    - [ReadThroughCache] (src/readThroughCache.ts): a per-device cache of the
      last fetched device status, with request coalescing and a TTL that is
      extended when the remote API fails;
    - [ApiQueue] (src/queue/apiQueue.ts): the write queue with its dispatch
      loop, retries, desired-state tracking and deferred verification;

    and of what is built around them: the thermostat mapper and the
    setters, the [onGet] handlers of the two services, the accessory that
    ties a queue to a cache, and the platform's check of its configuration.

    JavaScript numbers that carry temperatures are binary64 floats and are
    modelled by Rocq's primitive floats.  Times ([Date.now()], [new Date()])
    and durations are integral milliseconds and are modelled in [Z].
    Asynchronous code is split at its [await] points: every piece that runs
    without interruption on the event loop is one function, and the event
    loop delivers the continuations as events. *)

From Stdlib Require Import ZArith Floats Lia List Bool Permutation Sorted.
From stdpp Require Import gmap strings list fin_maps.
Import ListNotations.

Local Open Scope Z_scope.

(* Decimal literals such as 0.1 denote the nearest binary64 value, as in
   JavaScript. *)
Set Warnings "-inexact-float".

(** ** The remote API's data (src/sleepme/client.ts) *)

Inductive ThermalControlStatus := standby | active.

Inductive TemperatureUnit := unit_c | unit_f.

Record Control := {
  brightness_level : float;
  display_temperature_unit : TemperatureUnit;
  set_temperature_c : float;
  set_temperature_f : float;
  thermal_control_status : ThermalControlStatus;
  time_zone : string
}.

Record About := {
  firmware_version : string;
  ip_address : string;
  lan_address : string;
  mac_address : string;
  model : string;
  serial_number : string
}.

Record Status := {
  is_connected : bool;
  is_water_low : bool;
  water_level : float;
  water_temperature_f : float;
  water_temperature_c : float
}.

Record DeviceStatus := {
  about : About;
  control : Control;
  status : Status
}.

(** [ClientResponse<T>]: its [status] field (the HTTP code) is named
    [response_status] here, [status] being taken by [DeviceStatus]. *)
Record ClientResponse (T : Type) := {
  data : T;
  response_status : Z
}.
Arguments data {T} _.
Arguments response_status {T} _.

#[global] Instance ThermalControlStatus_eq_dec : EqDecision ThermalControlStatus.
Proof. solve_decision. Defined.

(** What a rejected gateway promise carries: an Axios error (with the HTTP
    status of its response, when there is one) or any other error.  The
    test [axios.isAxiosError(err)] of the source is the case analysis. *)
Inductive FetchError :=
| AxiosError (response : option Z) (message : string)
| GeneralError (message : string).

(** ** Promises *)

Inductive Settlement (A : Type) :=
| Fulfilled (a : A)
| Rejected (e : FetchError).
Arguments Fulfilled {A} a.
Arguments Rejected {A} e.

Inductive PromiseState (A : Type) :=
| Pending
| Settled (s : Settlement A).
Arguments Pending {A}.
Arguments Settled {A} s.

(** [p.then(h)]: [h] runs on fulfilment and its outcome settles the new
    promise; a rejection passes through. *)
Definition promise_then {S A B : Type} (h : A -> S -> S * Settlement B)
    (o : Settlement A) (s : S) : S * Settlement B :=
  match o with
  | Fulfilled a => h a s
  | Rejected e => (s, Rejected e)
  end.

(** [p.catch(h)]: [h] runs on rejection; a fulfilment passes through. *)
Definition promise_catch {S A : Type} (h : FetchError -> S -> S * Settlement A)
    (o : Settlement A) (s : S) : S * Settlement A :=
  match o with
  | Fulfilled a => (s, Fulfilled a)
  | Rejected e => h e s
  end.

Definition settlement_map {A B : Type} (f : A -> B) (o : Settlement A) : Settlement B :=
  match o with
  | Fulfilled a => Fulfilled (f a)
  | Rejected e => Rejected e
  end.

(** ** ReadThroughCache (src/readThroughCache.ts) *)

Module ReadThroughCache.

Definition Response := ClientResponse DeviceStatus.

(** [lastErrorMessage] is a formatted string in the source; the two formats
    are kept apart as constructors, with the values they interpolate. *)
Inductive ErrorMessage :=
| ApiErrorMessage (code : option Z) (message : string)
| GeneralErrorMessage (message : string).

(** The fields of a [ReadThroughCache] object.  [request] holds the
    identity of the promise stored in [this.request]. *)
Record t := {
  value : option Response;
  request : option nat;
  responseTimestamp : option Z;
  responseExpireAt : option Z;
  errorCount : nat;
  lastErrorCode : option Z;
  lastErrorMessage : option ErrorMessage;
  deviceId : string;
  expirationMS : Z
}.

(** The constructor; [expirationMS] defaults to 1000. *)
Definition default_expirationMS : Z := 1000.

Definition new (deviceId : string) (expirationMS : option Z) : t :=
  {| value := None; request := None;
     responseTimestamp := None; responseExpireAt := None;
     errorCount := 0%nat; lastErrorCode := None; lastErrorMessage := None;
     deviceId := deviceId;
     expirationMS := default default_expirationMS expirationMS |}.

Definition set_request (r : option nat) (c : t) : t :=
  {| value := value c; request := r;
     responseTimestamp := responseTimestamp c;
     responseExpireAt := responseExpireAt c;
     errorCount := errorCount c; lastErrorCode := lastErrorCode c;
     lastErrorMessage := lastErrorMessage c;
     deviceId := deviceId c; expirationMS := expirationMS c |}.

Definition set_responseExpireAt (e : option Z) (c : t) : t :=
  {| value := value c; request := request c;
     responseTimestamp := responseTimestamp c;
     responseExpireAt := e;
     errorCount := errorCount c; lastErrorCode := lastErrorCode c;
     lastErrorMessage := lastErrorMessage c;
     deviceId := deviceId c; expirationMS := expirationMS c |}.

(** The cache object together with what lives outside it: the promises it
    has created (a promise's identity is its index) and the calls of
    [client.getDeviceStatus] made so far (promise, time). *)
Record World := {
  cache : t;
  promises : list (PromiseState (option Response));
  fetches : list (nat * Z)
}.

Definition init (deviceId : string) (expirationMS : option Z) : World :=
  {| cache := new deviceId expirationMS; promises := []; fetches := [] |}.

(** The guard of [get]: [this.value && this.responseExpireAt &&
    now < this.responseExpireAt]. *)
Definition valid_entry (now : Z) (c : t) : option Response :=
  match value c, responseExpireAt c with
  | Some v, Some e => if now <? e then Some v else None
  | _, _ => None
  end.

(** What [get] hands back: [Promise.resolve(this.value)], or the promise
    stored in [this.request]. *)
Inductive GetResult :=
| Resolved (v : Response)
| InFlight (p : nat).

(** The [.then] callback of [get], run at time [now]. *)
Definition on_fulfilled (now : Z) (response : Response) (c : t)
    : t * Settlement Response :=
  ({| value := Some response;
      request := None;
      responseTimestamp := Some now;
      responseExpireAt := Some (now + expirationMS c);
      errorCount := 0%nat;
      lastErrorCode := None;
      lastErrorMessage := None;
      deviceId := deviceId c; expirationMS := expirationMS c |},
   Fulfilled response).

(** [Math.min(Math.max(Math.pow(2, errorCount) * expirationMS, 5000),
    60 * 1000 * 5)].  The product is computed exactly here; in binary64 it
    is exact below 2^53, and for a positive [expirationMS] anything larger
    is cut to the ceiling either way. *)
Definition backoffDuration (errorCount : nat) (expirationMS : Z) : Z :=
  Z.min (Z.max (2 ^ Z.of_nat errorCount * expirationMS) 5000) (60 * 1000 * 5).

(** The [.catch] callback of [get], run at time [now]. *)
Definition on_rejected (now : Z) (err : FetchError) (c : t)
    : t * Settlement (option Response) :=
  let count := S (errorCount c) in
  let code :=
    match err with
    | AxiosError st _ => st
    | GeneralError _ => lastErrorCode c
    end in
  let msg :=
    match err with
    | AxiosError st m => ApiErrorMessage st m
    | GeneralError m => GeneralErrorMessage m
    end in
  match value c with
  | Some v =>
      ({| value := Some v;
          request := request c;
          responseTimestamp := responseTimestamp c;
          responseExpireAt := Some (now + backoffDuration count (expirationMS c));
          errorCount := count;
          lastErrorCode := code;
          lastErrorMessage := Some msg;
          deviceId := deviceId c; expirationMS := expirationMS c |},
       Fulfilled (Some v))
  | None =>
      ({| value := None;
          request := None;
          responseTimestamp := responseTimestamp c;
          responseExpireAt := responseExpireAt c;
          errorCount := count;
          lastErrorCode := code;
          lastErrorMessage := Some msg;
          deviceId := deviceId c; expirationMS := expirationMS c |},
       Fulfilled None)
  end.

(** [client.getDeviceStatus(id).then(...).catch(...)]: how the promise kept
    in [this.request] settles once the gateway call has settled with
    [outcome]. *)
Definition settle_chain (now : Z) (outcome : Settlement Response) (c : t)
    : t * Settlement (option Response) :=
  let '(c1, s1) := promise_then (on_fulfilled now) outcome c in
  promise_catch (on_rejected now) (settlement_map Some s1) c1.

(** [get()], called at time [now].  The debug lines the cache writes to
    its log are left out. *)
Definition get (now : Z) (w : World) : GetResult * World :=
  match valid_entry now (cache w) with
  | Some v => (Resolved v, w)
  | None =>
      match request (cache w) with
      | Some p => (InFlight p, w)
      | None =>
          let p := length (promises w) in
          (InFlight p,
           {| cache := set_request (Some p) (cache w);
              promises := promises w ++ [Pending];
              fetches := fetches w ++ [(p, now)] |})
      end
  end.

(** The class body declares [refresh] twice.  A later method of the same
    name replaces the earlier one on the prototype, so the second
    declaration is the method that runs: it drops the in-flight request,
    invalidates the expiry and calls [get]. *)
Definition refresh (now : Z) (w : World) : GetResult * World :=
  let c := set_responseExpireAt None (set_request None (cache w)) in
  get now {| cache := c; promises := promises w; fetches := fetches w |}.

(** The first declaration of [refresh], which the second one replaces. *)
Definition refresh_shadowed (now : Z) (w : World) : GetResult * World :=
  match request (cache w) with
  | Some p => (InFlight p, w)
  | None =>
      let c := set_responseExpireAt None (cache w) in
      get now {| cache := c; promises := promises w; fetches := fetches w |}
  end.



(** The gateway call behind promise [p] settles at time [now]: the chain
    runs and settles [p]. *)
Definition settle (p : nat) (now : Z) (outcome : Settlement Response) (w : World)
    : World :=
  match promises w !! p with
  | Some Pending =>
      let '(c, s) := settle_chain now outcome (cache w) in
      {| cache := c;
         promises := <[p := Settled s]> (promises w);
         fetches := fetches w |}
  | _ => w
  end.

(** What the event loop can do to a cache. *)
Inductive Event :=
| EGet (now : Z)
| ERefresh (now : Z)
| ESettle (p : nat) (now : Z) (outcome : Settlement Response).

Definition step (w : World) (e : Event) : World :=
  match e with
  | EGet now => snd (get now w)
  | ERefresh now => snd (refresh now w)
  | ESettle p now o => settle p now o w
  end.

Definition run (es : list Event) (w : World) : World := fold_left step es w.





End ReadThroughCache.

(** ** JavaScript numbers *)

(** [Math.floor] on a binary64 value: zeros, infinities and NaN are returned
    as they are, and so is a finite value whose exponent makes it integral;
    otherwise the mantissa is cut at the binary point and rounded down. *)
Definition Math_floor (x : float) : float :=
  match Prim2SF x with
  | S754_finite s m e =>
      if 0 <=? e then x
      else
        let d := 2 ^ (- e) in
        let q := Z.pos m / d in
        let r := Z.pos m mod d in
        let n := if s then (if r =? 0 then - q else - q - 1) else q in
        SF2Prim (SpecFloat.binary_normalize prec emax n 0 s)
  | _ => x
  end.

(** ** An insertion-ordered [Map] with string keys

    [Map.prototype.set] on a present key replaces the value where the key
    stands; on a new key it appends.  [values()] iterates in that order. *)

Fixpoint map_set {V : Type} (k : string) (v : V) (m : list (string * V))
    : list (string * V) :=
  match m with
  | [] => [(k, v)]
  | (k', v') :: m' =>
      if decide (k = k') then (k, v) :: m' else (k', v') :: map_set k v m'
  end.

Fixpoint map_get {V : Type} (k : string) (m : list (string * V)) : option V :=
  match m with
  | [] => None
  | (k', v') :: m' => if decide (k = k') then Some v' else map_get k m'
  end.

Definition map_has {V : Type} (k : string) (m : list (string * V)) : bool :=
  match map_get k m with Some _ => true | None => false end.

Fixpoint map_delete {V : Type} (k : string) (m : list (string * V))
    : list (string * V) :=
  match m with
  | [] => []
  | (k', v') :: m' =>
      if decide (k = k') then map_delete k m' else (k', v') :: map_delete k m'
  end.

Definition map_values {V : Type} (m : list (string * V)) : list V := snd <$> m.

Definition map_keys {V : Type} (m : list (string * V)) : list string := fst <$> m.

(** ** ApiQueue (src/queue/apiQueue.ts) *)

Module ApiQueue.

Definition Response := ClientResponse DeviceStatus.

Inductive QueueItemType := temperature | state.

#[global] Instance QueueItemType_eq_dec : EqDecision QueueItemType.
Proof. solve_decision. Defined.

(** [value] is declared [any]; the callers pass numbers: a Celsius
    temperature, or the target heating-cooling state (0 is off). *)
Record QueueItem := {
  id : string;
  type : QueueItemType;
  value : float;
  timestamp : Z
}.

Definition type_name (ty : QueueItemType) : string :=
  match ty with
  | temperature => "temperature"
  | state => "state"
  end.

(** [`${deviceId}:${type}`] *)
Definition QueueItemKey (deviceId : string) (ty : QueueItemType) : string :=
  deviceId +:+ ":" +:+ type_name ty.

Definition item_key (item : QueueItem) : string :=
  QueueItemKey (id item) (type item).

Record DeviceDesiredState := {
  targetTemperatureC : option float;
  targetState : option ThermalControlStatus;
  lastModified : Z;
  verificationTimerId : option nat
}.

(** The fields of an [ApiQueue] object.  [cachesById] holds references to
    cache objects. *)
Record t := {
  queue : list (string * QueueItem);
  processing : bool;
  lastProcessTime : Z;
  deviceStates : gmap string DeviceDesiredState;
  cachesById : gmap string nat;
  intervalMs : Z;
  maxRetries : Z;
  verificationDelayMs : Z
}.

(** The constructor, with its defaults. *)
Definition default_intervalMs : Z := 2000.
Definition default_maxRetries : Z := 3.
Definition default_verificationDelayMs : Z := 30000.

Definition new (intervalMs maxRetries verificationDelayMs : option Z) : t :=
  {| queue := []; processing := false; lastProcessTime := 0;
     deviceStates := ∅; cachesById := ∅;
     intervalMs := default default_intervalMs intervalMs;
     maxRetries := default default_maxRetries maxRetries;
     verificationDelayMs := default default_verificationDelayMs verificationDelayMs |}.

Definition set_queue (x : list (string * QueueItem)) (a : t) : t :=
  {| queue := x; processing := processing a;
     lastProcessTime := lastProcessTime a; deviceStates := deviceStates a;
     cachesById := cachesById a; intervalMs := intervalMs a;
     maxRetries := maxRetries a; verificationDelayMs := verificationDelayMs a |}.

Definition set_processing (x : bool) (a : t) : t :=
  {| queue := queue a; processing := x;
     lastProcessTime := lastProcessTime a; deviceStates := deviceStates a;
     cachesById := cachesById a; intervalMs := intervalMs a;
     maxRetries := maxRetries a; verificationDelayMs := verificationDelayMs a |}.

Definition set_lastProcessTime (x : Z) (a : t) : t :=
  {| queue := queue a; processing := processing a;
     lastProcessTime := x; deviceStates := deviceStates a;
     cachesById := cachesById a; intervalMs := intervalMs a;
     maxRetries := maxRetries a; verificationDelayMs := verificationDelayMs a |}.

Definition set_deviceStates (x : gmap string DeviceDesiredState) (a : t) : t :=
  {| queue := queue a; processing := processing a;
     lastProcessTime := lastProcessTime a; deviceStates := x;
     cachesById := cachesById a; intervalMs := intervalMs a;
     maxRetries := maxRetries a; verificationDelayMs := verificationDelayMs a |}.

Definition set_cachesById (x : gmap string nat) (a : t) : t :=
  {| queue := queue a; processing := processing a;
     lastProcessTime := lastProcessTime a; deviceStates := deviceStates a;
     cachesById := x; intervalMs := intervalMs a;
     maxRetries := maxRetries a; verificationDelayMs := verificationDelayMs a |}.

(** The calls made on the gateway ([client]). *)
Inductive GatewayCall :=
| setTemperatureFahrenheit (deviceId : string) (temperature : float)
| setThermalControlStatus (deviceId : string) (targetState : ThermalControlStatus).

(** The lines written to the logger, by level, with the values the source
    interpolates into the message. *)
Inductive LogEntry :=
| debug_replacing (key : string)
| debug_queued (ty : QueueItemType) (deviceId : string) (v : float)
| debug_processing (item : QueueItem)
| info_set_temperature (deviceId : string) (tempF v : float)
| info_set_status (deviceId : string) (targetState : ThermalControlStatus)
| error_request_failed (attempt maxRetries : Z)
| debug_retrying (backoffMs : Z)
| error_processing (key : string) (item : QueueItem) (attempts : Z)
| warn_no_cache (deviceId : string)
| warn_could_not_fetch (deviceId : string)
| warn_temperature_mismatch (deviceId : string) (desired actual : float)
| warn_state_mismatch (deviceId : string) (desired actual : ThermalControlStatus)
| debug_verified (deviceId : string)
| error_verification (deviceId : string) (e : FetchError).

Definition is_error (l : LogEntry) : bool :=
  match l with
  | error_request_failed _ _ | error_processing _ _ _ | error_verification _ _ => true
  | _ => false
  end.

Definition is_warn (l : LogEntry) : bool :=
  match l with
  | warn_no_cache _ | warn_could_not_fetch _
  | warn_temperature_mismatch _ _ _ | warn_state_mismatch _ _ _ => true
  | _ => false
  end.

(** Where the one running call of [processQueue] is suspended. *)
Inductive Runner :=
| Idle
| WaitingInterval (since timeToWait : Z)
| Sending (item : QueueItem) (retries : Z)
| BackingOff (item : QueueItem) (retries : Z) (since backoffMs : Z)
| Rescheduled.

(** A verification timer created by [setTimeout]. *)
Record Timer := {
  timer_id : nat;
  timer_device : string;
  timer_since : Z;
  timer_delay : Z
}.

(** The queue object together with what lives outside it: the suspended
    dispatch loop, the live verification timers, the verifications that
    await their refresh, and three traces: the calls made on the gateway
    (time, value of [retries] at the call, call), the calls of
    [cache.refresh()] (time, cache) and the lines written to the log. *)
Record World := {
  this : t;
  runner : Runner;
  timers : list Timer;
  nextTimerId : nat;
  verifying : list string;
  sent : list (Z * Z * GatewayCall);
  refreshed : list (Z * nat);
  log : list LogEntry
}.

Definition init (a : t) : World :=
  {| this := a; runner := Idle; timers := []; nextTimerId := 0%nat;
     verifying := []; sent := []; refreshed := []; log := [] |}.

Definition with_this (f : t -> t) (w : World) : World :=
  {| this := f (this w); runner := runner w; timers := timers w;
     nextTimerId := nextTimerId w; verifying := verifying w;
     sent := sent w; refreshed := refreshed w; log := log w |}.

Definition set_runner (r : Runner) (w : World) : World :=
  {| this := this w; runner := r; timers := timers w;
     nextTimerId := nextTimerId w; verifying := verifying w;
     sent := sent w; refreshed := refreshed w; log := log w |}.

Definition set_timers (ts : list Timer) (n : nat) (w : World) : World :=
  {| this := this w; runner := runner w; timers := ts;
     nextTimerId := n; verifying := verifying w;
     sent := sent w; refreshed := refreshed w; log := log w |}.

Definition set_verifying (v : list string) (w : World) : World :=
  {| this := this w; runner := runner w; timers := timers w;
     nextTimerId := nextTimerId w; verifying := v;
     sent := sent w; refreshed := refreshed w; log := log w |}.

Definition add_sent (now retries : Z) (c : GatewayCall) (w : World) : World :=
  {| this := this w; runner := runner w; timers := timers w;
     nextTimerId := nextTimerId w; verifying := verifying w;
     sent := sent w ++ [(now, retries, c)]; refreshed := refreshed w; log := log w |}.

Definition add_refreshed (now : Z) (cache : nat) (w : World) : World :=
  {| this := this w; runner := runner w; timers := timers w;
     nextTimerId := nextTimerId w; verifying := verifying w;
     sent := sent w; refreshed := refreshed w ++ [(now, cache)]; log := log w |}.

Definition add_log (l : LogEntry) (w : World) : World :=
  {| this := this w; runner := runner w; timers := timers w;
     nextTimerId := nextTimerId w; verifying := verifying w;
     sent := sent w; refreshed := refreshed w; log := log w ++ [l] |}.

(** [registerCache] *)
Definition registerCache (deviceId : string) (cache : nat) (w : World) : World :=
  with_this (fun a => set_cachesById (<[deviceId := cache]> (cachesById a)) a) w.

(** [value === 0 ? 'standby' : 'active'] *)
Definition state_of_value (v : float) : ThermalControlStatus :=
  if (v =? 0)%float then standby else active.

(** [updateDesiredState] *)
Definition updateDesiredState (now : Z) (deviceId : string) (ty : QueueItemType)
    (v : float) (w : World) : World :=
  let st :=
    default {| targetTemperatureC := None; targetState := None;
               lastModified := now; verificationTimerId := None |}
            (deviceStates (this w) !! deviceId) in
  let st1 :=
    match ty with
    | temperature =>
        {| targetTemperatureC := Some v; targetState := targetState st;
           lastModified := now; verificationTimerId := verificationTimerId st |}
    | state =>
        {| targetTemperatureC := targetTemperatureC st;
           targetState := Some (state_of_value v);
           lastModified := now; verificationTimerId := verificationTimerId st |}
    end in
  with_this (fun a => set_deviceStates (<[deviceId := st1]> (deviceStates a)) a) w.

(** [clearTimeout] *)
Definition clearTimeout (tid : nat) (ts : list Timer) : list Timer :=
  filter (fun x => timer_id x ≠ tid) ts.

(** [scheduleVerification] *)
Definition scheduleVerification (now : Z) (deviceId : string) (w : World) : World :=
  match deviceStates (this w) !! deviceId with
  | None => w
  | Some st =>
      let live :=
        match verificationTimerId st with
        | Some tid => clearTimeout tid (timers w)
        | None => timers w
        end in
      let tid := nextTimerId w in
      let timer :=
        {| timer_id := tid; timer_device := deviceId; timer_since := now;
           timer_delay := verificationDelayMs (this w) |} in
      let st1 :=
        {| targetTemperatureC := targetTemperatureC st;
           targetState := targetState st;
           lastModified := lastModified st;
           verificationTimerId := Some tid |} in
      with_this (fun a => set_deviceStates (<[deviceId := st1]> (deviceStates a)) a)
        (set_timers (live ++ [timer]) (S tid) w)
  end.

(** [getOldestItem]: the scan keeps the first item whose timestamp is
    strictly below the best so far, which starts at [Infinity] ([None]). *)
Definition older (acc : option QueueItem * option Z) (item : QueueItem)
    : option QueueItem * option Z :=
  match snd acc with
  | None => (Some item, Some (timestamp item))
  | Some oldestTimestamp =>
      if timestamp item <? oldestTimestamp
      then (Some item, Some (timestamp item))
      else acc
  end.

Definition getOldestItem (a : t) : option QueueItem :=
  if (length (queue a) =? 0)%nat then None
  else fst (fold_left older (map_values (queue a)) (None, None)).

(** The gateway call [sendRequest] makes for an item. *)
Definition gateway_call (item : QueueItem) : GatewayCall :=
  match type item with
  | temperature =>
      setTemperatureFahrenheit (id item)
        (Math_floor (value item * (9 / 5) + 32)%float)
  | state =>
      setThermalControlStatus (id item) (state_of_value (value item))
  end.

Definition info_of (item : QueueItem) : LogEntry :=
  match type item with
  | temperature =>
      info_set_temperature (id item)
        (Math_floor (value item * (9 / 5) + 32)%float) (value item)
  | state => info_set_status (id item) (state_of_value (value item))
  end.

(** [Math.min(1000 * Math.pow(2, retries), 10000)] *)
Definition backoffMs (retries : Z) : Z := Z.min (1000 * 2 ^ retries) 10000.

(** The head of the [while] loop of [sendRequest] with [success] false.
    When the test holds the gateway call is made and the loop suspends on
    it.  When it fails [sendRequest] throws; [processQueue] catches and logs
    the error, and asks for its next round with [setImmediate]. *)
Definition sendRequest_loop (now : Z) (item : QueueItem) (retries : Z) (w : World)
    : World :=
  if retries <? maxRetries (this w) then
    set_runner (Sending item retries)
      (add_sent now retries (gateway_call item) (add_log (debug_processing item) w))
  else
    set_runner Rescheduled
      (add_log (error_processing (item_key item) item (maxRetries (this w))) w).

(** [processQueue] from the fetch of the oldest item on: the part that runs
    after the interval wait. *)
Definition processQueue_dispatch (now : Z) (w : World) : World :=
  match getOldestItem (this w) with
  | None => set_runner Idle (with_this (set_processing false) w)
  | Some oldestItem =>
      let key := item_key oldestItem in
      sendRequest_loop now oldestItem 0
        (with_this (fun a => set_queue (map_delete key (queue a)) a) w)
  end.

(** [processQueue], up to its first suspension. *)
Definition processQueue (now : Z) (w : World) : World :=
  if (length (queue (this w)) =? 0)%nat then
    set_runner Idle (with_this (set_processing false) w)
  else
    let w1 := with_this (set_processing true) w in
    let timeToWait :=
      Z.max 0 (intervalMs (this w) - (now - lastProcessTime (this w))) in
    if 0 <? timeToWait then set_runner (WaitingInterval now timeToWait) w1
    else processQueue_dispatch now w1.

(** [enqueue].  The clock is read once for the whole synchronous run. *)
Definition enqueue (now : Z) (deviceId : string) (ty : QueueItemType) (v : float)
    (w : World) : World :=
  let key := QueueItemKey deviceId ty in
  let queueItem := {| id := deviceId; type := ty; value := v; timestamp := now |} in
  let w1 := if map_has key (queue (this w)) then add_log (debug_replacing key) w else w in
  let w2 := with_this (fun a => set_queue (map_set key queueItem (queue a)) a) w1 in
  let w3 := add_log (debug_queued ty deviceId v) w2 in
  let w4 := updateDesiredState now deviceId ty v w3 in
  let w5 := scheduleVerification now deviceId w4 in
  if processing (this w5) then w5 else processQueue now w5.

(** The gateway call the loop awaits has settled. *)
Definition on_call_settled (now : Z) (ok : bool) (w : World) : World :=
  match runner w with
  | Sending item retries =>
      if ok then
        set_runner Rescheduled
          (with_this (set_lastProcessTime now) (add_log (info_of item) w))
      else
        let retries1 := retries + 1 in
        let w1 := add_log (error_request_failed retries1 (maxRetries (this w))) w in
        if retries1 <? maxRetries (this w) then
          set_runner (BackingOff item retries1 now (backoffMs retries1))
            (add_log (debug_retrying (backoffMs retries1)) w1)
        else sendRequest_loop now item retries1 w1
  | _ => w
  end.

(** The backoff timer of [sendRequest] has fired. *)
Definition on_backoff_elapsed (now : Z) (w : World) : World :=
  match runner w with
  | BackingOff item retries _ _ => sendRequest_loop now item retries w
  | _ => w
  end.

(** The interval timer of [processQueue] has fired. *)
Definition on_interval_elapsed (now : Z) (w : World) : World :=
  match runner w with
  | WaitingInterval _ _ => processQueue_dispatch now w
  | _ => w
  end.

(** The [setImmediate] callback runs. *)
Definition on_immediate (now : Z) (w : World) : World :=
  match runner w with
  | Rescheduled => processQueue now w
  | _ => w
  end.

(** [verifyDeviceState] up to [await cache.refresh()]. *)
Definition verifyDeviceState_start (now : Z) (deviceId : string) (w : World) : World :=
  match deviceStates (this w) !! deviceId with
  | None => w
  | Some desiredState =>
      let st1 :=
        {| targetTemperatureC := targetTemperatureC desiredState;
           targetState := targetState desiredState;
           lastModified := lastModified desiredState;
           verificationTimerId := None |} in
      let w1 :=
        with_this (fun a => set_deviceStates (<[deviceId := st1]> (deviceStates a)) a) w in
      match cachesById (this w) !! deviceId with
      | None => add_log (warn_no_cache deviceId) w1
      | Some cache =>
          set_verifying (verifying w1 ++ [deviceId]) (add_refreshed now cache w1)
      end
  end.

(** The two comparisons of [verifyDeviceState]. *)
Definition temperature_mismatch (desiredState : DeviceDesiredState)
    (actualState : DeviceStatus) : bool :=
  match targetTemperatureC desiredState with
  | Some t => (0.1 <? abs (set_temperature_c (control actualState) - t))%float
  | None => false
  end.

Definition state_mismatch (desiredState : DeviceDesiredState)
    (actualState : DeviceStatus) : bool :=
  match targetState desiredState with
  | Some s => bool_decide (thermal_control_status (control actualState) ≠ s)
  | None => false
  end.

(** The temperature check, with the re-queue it makes. *)
Definition verify_temperature (now : Z) (deviceId : string)
    (actualState : DeviceStatus) (w : World) : bool * World :=
  match deviceStates (this w) !! deviceId with
  | Some desiredState =>
      match targetTemperatureC desiredState with
      | Some t =>
          if temperature_mismatch desiredState actualState then
            (true,
             enqueue now deviceId temperature t
               (add_log (warn_temperature_mismatch deviceId t
                           (set_temperature_c (control actualState))) w))
          else (false, w)
      | None => (false, w)
      end
  | None => (false, w)
  end.

(** The state check; [desiredState] is the object held in [deviceStates],
    read after the temperature check has run. *)
Definition verify_state (now : Z) (deviceId : string)
    (actualState : DeviceStatus) (w : World) : bool * World :=
  match deviceStates (this w) !! deviceId with
  | Some desiredState =>
      match targetState desiredState with
      | Some s =>
          if state_mismatch desiredState actualState then
            let stateValue := match s with standby => 0%float | active => 1%float end in
            (true,
             enqueue now deviceId state stateValue
               (add_log (warn_state_mismatch deviceId s
                           (thermal_control_status (control actualState))) w))
          else (false, w)
      | None => (false, w)
      end
  | None => (false, w)
  end.

(** [verifyDeviceState] after [await cache.refresh()] has settled. *)
Definition verifyDeviceState_resume (now : Z) (deviceId : string)
    (r : Settlement (option Response)) (w : World) : World :=
  match r with
  | Rejected e => add_log (error_verification deviceId e) w
  | Fulfilled None => add_log (warn_could_not_fetch deviceId) w
  | Fulfilled (Some response) =>
      let actualState := data response in
      let '(m1, w1) := verify_temperature now deviceId actualState w in
      let '(m2, w2) := verify_state now deviceId actualState w1 in
      if m1 || m2 then w2 else add_log (debug_verified deviceId) w2
  end.

(** A verification timer fires. *)
Definition on_verification_timer (now : Z) (tid : nat) (w : World) : World :=
  match find (fun x => bool_decide (timer_id x = tid)) (timers w) with
  | Some timer =>
      verifyDeviceState_start now (timer_device timer)
        (set_timers (clearTimeout tid (timers w)) (nextTimerId w) w)
  | None => w
  end.

Fixpoint remove_first (d : string) (l : list string) : list string :=
  match l with
  | [] => []
  | x :: l' => if decide (x = d) then l' else x :: remove_first d l'
  end.

(** The refresh a verification awaits has settled. *)
Definition on_refresh_settled (now : Z) (deviceId : string)
    (r : Settlement (option Response)) (w : World) : World :=
  if bool_decide (deviceId ∈ verifying w) then
    verifyDeviceState_resume now deviceId r
      (set_verifying (remove_first deviceId (verifying w)) w)
  else w.

(** What the event loop can do to a queue. *)
Inductive Event :=
| ERegisterCache (deviceId : string) (cache : nat)
| EEnqueue (now : Z) (deviceId : string) (ty : QueueItemType) (v : float)
| EIntervalElapsed (now : Z)
| ECallSettled (now : Z) (ok : bool)
| EBackoffElapsed (now : Z)
| EImmediate (now : Z)
| EVerificationTimer (now : Z) (tid : nat)
| ERefreshSettled (now : Z) (deviceId : string) (r : Settlement (option Response)).

Definition step (w : World) (e : Event) : World :=
  match e with
  | ERegisterCache d c => registerCache d c w
  | EEnqueue now d ty v => enqueue now d ty v w
  | EIntervalElapsed now => on_interval_elapsed now w
  | ECallSettled now ok => on_call_settled now ok w
  | EBackoffElapsed now => on_backoff_elapsed now w
  | EImmediate now => on_immediate now w
  | EVerificationTimer now tid => on_verification_timer now tid w
  | ERefreshSettled now d r => on_refresh_settled now d r w
  end.

Definition run (es : list Event) (w : World) : World := fold_left step es w.

End ApiQueue.


(** ** HomeKit characteristic values *)

(** The constants of [platform.Characteristic] the plugin reads.  They are
    HAP's, not the plugin's; [hap] holds the values HAP gives them. *)
Record Characteristic := {
  CurrentHeatingCoolingState_OFF : float;
  CurrentHeatingCoolingState_HEAT : float;
  CurrentHeatingCoolingState_COOL : float;
  TargetHeatingCoolingState_OFF : float;
  TargetHeatingCoolingState_AUTO : float;
  TemperatureDisplayUnits_CELSIUS : float;
  StatusLowBattery_BATTERY_LEVEL_NORMAL : float;
  StatusLowBattery_BATTERY_LEVEL_LOW : float
}.

Definition hap : Characteristic :=
  {| CurrentHeatingCoolingState_OFF := 0;
     CurrentHeatingCoolingState_HEAT := 1;
     CurrentHeatingCoolingState_COOL := 2;
     TargetHeatingCoolingState_OFF := 0;
     TargetHeatingCoolingState_AUTO := 3;
     TemperatureDisplayUnits_CELSIUS := 0;
     StatusLowBattery_BATTERY_LEVEL_NORMAL := 0;
     StatusLowBattery_BATTERY_LEVEL_LOW := 1 |}.

(** [a !== b] on numbers and on booleans. *)
Definition number_differs (a b : float) : bool := negb (a =? b)%float.


(** [x || d] for an optional duration: [undefined] and 0 are falsy. *)
Definition number_or (x : option Z) (d : Z) : Z :=
  match x with
  | Some 0 => d
  | Some n => n
  | None => d
  end.

(** ** The thermostat mapper (src/thermostat/thermostatMapper.ts) *)

Module ThermostatMapper.



Definition toTargetHeatingCoolingState (platform : Characteristic)
    (status0 : DeviceStatus) : float :=
  match thermal_control_status (control status0) with
  | standby => TargetHeatingCoolingState_OFF platform
  | active => TargetHeatingCoolingState_AUTO platform
  end.


End ThermostatMapper.

(** ** The setters (src/thermostat/setters.ts) *)

Module Setters.
Import ApiQueue.

(** The line a setter writes to the log, with the values it interpolates. *)
Inductive SetterLog :=
| info_setting_state (targetState : ThermalControlStatus) (value : float)
| info_setting_temp (tempF tempC : float).

(** [setTargetState] and [setTargetTemp] of [newSetters], called at time
    [now] for the device [id]: the line logged and the queue after the
    call.  Both return a promise that is already resolved. *)
Definition setTargetState (id : string) (now : Z) (value : float) (w : World)
    : SetterLog * World :=
  let targetState := if (value =? 0)%float then standby else active in
  (info_setting_state targetState value, enqueue now id state value w).

Definition setTargetTemp (id : string) (now : Z) (value : float) (w : World)
    : SetterLog * World :=
  let tempC := value in
  let tempF := Math_floor (tempC * (9 / 5) + 32)%float in
  (info_setting_temp tempF tempC, enqueue now id temperature tempC w).

End Setters.

(** ** The characteristic handlers (src/thermostat/service.ts,
       src/battery/service.ts) *)

Module Service.
Import ReadThroughCache.

(** Every [onGet] handler of the two services has one shape:

    [[
      try {
        const response = await readThroughCache.get();
        if (response) {
          const newValue = read(response);
          if (cachedValues.x !== newValue) cachedValues.x = newValue;
          return answer(newValue);
        }
      } catch (error) { platform.log.error(...); }
      return answer(cachedValues.x);
    ]]

    with its own field [x] of [cachedValues], which starts as
    [defaultValues.x]. *)
Record Handler (V R : Type) := {
  read : Response -> V;
  differs : V -> V -> bool;
  answer : V -> R;
  defaultValue : V
}.
Arguments read {V R} _ _.
Arguments differs {V R} _ _ _.
Arguments answer {V R} _ _.
Arguments defaultValue {V R} _.



Definition CurrentTemperature : Handler float float :=
  {| read := fun response => water_temperature_c (status (data response));
     differs := number_differs;
     answer := fun v => v;
     defaultValue := 22.0%float |}.

Definition TargetTemperature : Handler float float :=
  {| read := fun response => set_temperature_c (control (data response));
     differs := number_differs;
     answer := fun v => v;
     defaultValue := 22.0%float |}.



Definition BatteryLevel : Handler float float :=
  {| read := fun response => water_level (status (data response));
     differs := number_differs;
     answer := fun v => v;
     defaultValue := 100%float |}.

(** A handler with the cache it reads: its field of [cachedValues], the
    promises its suspended calls await, and two traces: what each call
    that has returned awaited and returned, and the errors logged. *)
Record World (V R : Type) := {
  readThroughCache : ReadThroughCache.World;
  cachedValue : V;
  awaiting : list nat;
  answers : list (Settlement (option Response) * R);
  errors : list FetchError
}.
Arguments readThroughCache {V R} _.
Arguments cachedValue {V R} _.
Arguments awaiting {V R} _.
Arguments answers {V R} _.
Arguments errors {V R} _.

Section OnGet.
Context {V R : Type} (h : Handler V R).

Definition init (c : ReadThroughCache.World) : World V R :=
  {| readThroughCache := c; cachedValue := defaultValue h;
     awaiting := []; answers := []; errors := [] |}.

(** The handler from its [await] on, the awaited promise having settled
    with [s]. *)
Definition onGet_resume (s : Settlement (option Response)) (w : World V R) : World V R :=
  match s with
  | Fulfilled (Some response) =>
      let newValue := read h response in
      {| readThroughCache := readThroughCache w;
         cachedValue := if differs h (cachedValue w) newValue then newValue
                        else cachedValue w;
         awaiting := awaiting w;
         answers := answers w ++ [(s, answer h newValue)];
         errors := errors w |}
  | Fulfilled None =>
      {| readThroughCache := readThroughCache w;
         cachedValue := cachedValue w;
         awaiting := awaiting w;
         answers := answers w ++ [(s, answer h (cachedValue w))];
         errors := errors w |}
  | Rejected error =>
      {| readThroughCache := readThroughCache w;
         cachedValue := cachedValue w;
         awaiting := awaiting w;
         answers := answers w ++ [(s, answer h (cachedValue w))];
         errors := errors w ++ [error] |}
  end.

(** The handler is called at time [now]: it calls [get] and awaits the
    promise it is handed.  A promise that has settled already lets it go
    on at once; otherwise the call is suspended. *)
Definition onGet (now : Z) (w : World V R) : World V R :=
  let '(r, c) := get now (readThroughCache w) in
  let w1 :=
    {| readThroughCache := c; cachedValue := cachedValue w;
       awaiting := awaiting w; answers := answers w; errors := errors w |} in
  match r with
  | Resolved v => onGet_resume (Fulfilled (Some v)) w1
  | InFlight p =>
      match promises c !! p with
      | Some (Settled s) => onGet_resume s w1
      | _ =>
          {| readThroughCache := c; cachedValue := cachedValue w;
             awaiting := awaiting w ++ [p]; answers := answers w; errors := errors w |}
      end
  end.

(** Something else happens to the cache: another handler or the
    verification calls it, or a fetch settles.  When a fetch settles, the
    calls suspended on its promise go on, in the order in which they were
    made. *)
Definition on_cache_event (e : ReadThroughCache.Event) (w : World V R) : World V R :=
  let c := ReadThroughCache.step (readThroughCache w) e in
  let w1 :=
    {| readThroughCache := c; cachedValue := cachedValue w;
       awaiting := awaiting w; answers := answers w; errors := errors w |} in
  match e with
  | ESettle p _ _ =>
      match promises (readThroughCache w) !! p, promises c !! p with
      | Some Pending, Some (Settled s) =>
          fold_left (fun w2 _ => onGet_resume s w2)
            (filter (fun q => q = p) (awaiting w))
            {| readThroughCache := c; cachedValue := cachedValue w;
               awaiting := filter (fun q => q <> p) (awaiting w);
               answers := answers w; errors := errors w |}
      | _, _ => w1
      end
  | _ => w1
  end.

Inductive Event :=
| EOnGet (now : Z)
| ECache (e : ReadThroughCache.Event).

Definition step (w : World V R) (e : Event) : World V R :=
  match e with
  | EOnGet now => onGet now w
  | ECache e0 => on_cache_event e0 w
  end.

Definition run (es : list Event) (w : World V R) : World V R := fold_left step es w.

End OnGet.

End Service.

(** ** The accessory (src/platformAccessory.ts) *)

Module SleepmePlatformAccessory.

(** [context.config]: the [deviceConfig] the platform stores for every
    accessory ([discoverDevices], src/platform.ts).  The accessory's type
    for it declares the first two fields. *)
Record Config := {
  apiIntervalMs : option Z;
  verificationDelayMs : option Z;
  cacheTtlMs : option Z
}.

(** What the constructor builds for one device: the queue, the cache, and
    between them the verifications that await [cache.refresh()], each with
    its device and the promise it awaits. *)
Record World := {
  apiQueue : ApiQueue.World;
  readThroughCache : ReadThroughCache.World;
  deviceId : string;
  refreshes : list (string * nat)
}.

(** The handle under which the queue knows the cache of the accessory. *)
Definition cacheHandle : nat := 0%nat.

(** The constructor, with [registerCache] of [createThermostatService].
    [config] defaults to an empty object.  The cache is built without a
    TTL argument. *)
Definition new (config : option Config) (device_id : string) : World :=
  let config :=
    default {| apiIntervalMs := None; verificationDelayMs := None;
               cacheTtlMs := None |} config in
  let apiQueue :=
    ApiQueue.init
      (ApiQueue.new (Some (number_or (apiIntervalMs config) 2000))
                    (Some 3)
                    (Some (number_or (verificationDelayMs config) 30000))) in
  {| apiQueue := ApiQueue.registerCache device_id cacheHandle apiQueue;
     readThroughCache := ReadThroughCache.init device_id None;
     deviceId := device_id;
     refreshes := [] |}.

Definition with_apiQueue (q : ApiQueue.World) (w : World) : World :=
  {| apiQueue := q; readThroughCache := readThroughCache w;
     deviceId := deviceId w; refreshes := refreshes w |}.

Definition with_readThroughCache (c : ReadThroughCache.World) (w : World) : World :=
  {| apiQueue := apiQueue w; readThroughCache := c;
     deviceId := deviceId w; refreshes := refreshes w |}.

(** A verification timer of the queue fires.  When the queue goes as far
    as [await cache.refresh()], [refresh] runs on the cache and the
    verification awaits the promise it hands back. *)
Definition on_verification_timer (now : Z) (tid : nat) (w : World) : World :=
  let q := ApiQueue.on_verification_timer now tid (apiQueue w) in
  match find (fun x => bool_decide (ApiQueue.timer_id x = tid))
             (ApiQueue.timers (apiQueue w)),
        drop (length (ApiQueue.refreshed (apiQueue w))) (ApiQueue.refreshed q) with
  | Some timer, _ :: _ =>
      let d := ApiQueue.timer_device timer in
      let '(r, c) := ReadThroughCache.refresh now (readThroughCache w) in
      match r with
      | ReadThroughCache.Resolved v =>
          {| apiQueue := ApiQueue.on_refresh_settled now d (Fulfilled (Some v)) q;
             readThroughCache := c; deviceId := deviceId w; refreshes := refreshes w |}
      | ReadThroughCache.InFlight p =>
          match ReadThroughCache.promises c !! p with
          | Some (Settled s) =>
              {| apiQueue := ApiQueue.on_refresh_settled now d s q;
                 readThroughCache := c; deviceId := deviceId w;
                 refreshes := refreshes w |}
          | _ =>
              {| apiQueue := q; readThroughCache := c; deviceId := deviceId w;
                 refreshes := refreshes w ++ [(d, p)] |}
          end
      end
  | _, _ => with_apiQueue q w
  end.

(** A fetch of the cache settles: the chain of [get] runs, and the
    verifications that await its promise go on. *)
Definition on_fetch_settled (p : nat) (now : Z) (outcome : Settlement ReadThroughCache.Response)
    (w : World) : World :=
  let c := ReadThroughCache.settle p now outcome (readThroughCache w) in
  match ReadThroughCache.promises (readThroughCache w) !! p,
        ReadThroughCache.promises c !! p with
  | Some Pending, Some (Settled s) =>
      {| apiQueue :=
           fold_left (fun q '(d, _) => ApiQueue.on_refresh_settled now d s q)
             (filter (fun x => snd x = p) (refreshes w)) (apiQueue w);
         readThroughCache := c;
         deviceId := deviceId w;
         refreshes := filter (fun x => snd x <> p) (refreshes w) |}
  | _, _ => with_readThroughCache c w
  end.

(** What the event loop can do to an accessory: HomeKit writes a
    characteristic (the setters, with the accessory's device id), a
    handler or the prefetch calls [get] on the cache, the dispatch loop of
    the queue goes on, a verification timer fires, a fetch settles. *)
Inductive Event :=
| ESetTargetState (now : Z) (value : float)
| ESetTargetTemp (now : Z) (value : float)
| EGet (now : Z)
| EIntervalElapsed (now : Z)
| ECallSettled (now : Z) (ok : bool)
| EBackoffElapsed (now : Z)
| EImmediate (now : Z)
| EVerificationTimer (now : Z) (tid : nat)
| EFetchSettled (p : nat) (now : Z) (outcome : Settlement ReadThroughCache.Response).

Definition step (w : World) (e : Event) : World :=
  match e with
  | ESetTargetState now value =>
      with_apiQueue (snd (Setters.setTargetState (deviceId w) now value (apiQueue w))) w
  | ESetTargetTemp now value =>
      with_apiQueue (snd (Setters.setTargetTemp (deviceId w) now value (apiQueue w))) w
  | EGet now =>
      with_readThroughCache (snd (ReadThroughCache.get now (readThroughCache w))) w
  | EIntervalElapsed now =>
      with_apiQueue (ApiQueue.on_interval_elapsed now (apiQueue w)) w
  | ECallSettled now ok =>
      with_apiQueue (ApiQueue.on_call_settled now ok (apiQueue w)) w
  | EBackoffElapsed now =>
      with_apiQueue (ApiQueue.on_backoff_elapsed now (apiQueue w)) w
  | EImmediate now =>
      with_apiQueue (ApiQueue.on_immediate now (apiQueue w)) w
  | EVerificationTimer now tid => on_verification_timer now tid w
  | EFetchSettled p now outcome => on_fetch_settled p now outcome w
  end.

Definition run (es : list Event) (w : World) : World := fold_left step es w.

End SleepmePlatformAccessory.

(** ** The platform (src/platform.ts) *)

Module SleepmePlatform.

(** A value of the JSON configuration; [JSUndefined] is what reading a
    field that is not there gives.  What an object holds plays no part. *)
#[warnings="-register-all"] Inductive JSValue :=
| JSUndefined
| JSNull
| JSBoolean (b : bool)
| JSNumber (x : float)
| JSString (s : string)
| JSArray (elements : list JSValue)
| JSObject.

(** [!!v]: [undefined], [null], [false], 0, [NaN] and the empty string are
    falsy. *)
Definition truthy (v : JSValue) : bool :=
  match v with
  | JSUndefined | JSNull => false
  | JSBoolean b => b
  | JSNumber x => negb (x =? 0)%float && (x =? x)%float
  | JSString s => match s with EmptyString => false | String _ _ => true end
  | JSArray _ | JSObject => true
  end.

Definition Array_isArray (v : JSValue) : bool :=
  match v with JSArray _ => true | _ => false end.

(** [typeof s !== 'string'] *)
Definition not_a_string (v : JSValue) : bool :=
  match v with JSString _ => false | _ => true end.

(** [array.some(f)], on a value already known to be an array. *)
Definition some (f : JSValue -> bool) (v : JSValue) : bool :=
  match v with JSArray elements => existsb f elements | _ => false end.

(** The fields of the configuration object [validateConfig] reads. *)
Record PlatformConfig := {
  api_keys : JSValue;
  sleepme_api_url : JSValue
}.

(** [validateConfig].  The last test is [!config], on the configuration
    object itself. *)
Definition validateConfig (config : PlatformConfig) : bool * string :=
  if negb (truthy (api_keys config)) || negb (Array_isArray (api_keys config))
  then (false, "No API keys configured - plugin will not start")
  else if negb (truthy (sleepme_api_url config))
  then (false, "Missing SleepMe API URL - plugin will not start")
  else if some not_a_string (api_keys config)
  then (false, "Some API keys are invalid")
  else if negb (truthy JSObject)
  then (false, "this configuration is invalid")
  else (true, EmptyString).

End SleepmePlatform.
(** * Auxiliary definitions for the statements *)

Module CacheAux.
Import ReadThroughCache.





(** No promise has been rejected. *)
Definition none_rejected (w : World) : Prop :=
  forall p e, promises w !! p <> Some (Settled (Rejected e)).

(** A device status and a response that carries it. *)
Definition sample_status : DeviceStatus :=
  {| about := {| firmware_version := "1"; ip_address := "10.0.0.2"; lan_address := "10.0.0.2";
                 mac_address := "00:00:00:00:00:01"; model := "DP"; serial_number := "s" |};
     control := {| brightness_level := 100; display_temperature_unit := unit_c;
                   set_temperature_c := 20; set_temperature_f := 68;
                   thermal_control_status := active; time_zone := "UTC" |};
     status := {| is_connected := true; is_water_low := false; water_level := 100;
                  water_temperature_f := 68; water_temperature_c := 20 |} |}.

Definition sample_response : Response :=
  {| data := sample_status; response_status := 200 |}.






End CacheAux.

Module QueueAux.
Import ApiQueue.

(** The queue key a gateway call belongs to. *)
Definition call_key (c : GatewayCall) : string :=
  match c with
  | setTemperatureFahrenheit d _ => QueueItemKey d temperature
  | setThermalControlStatus d _ => QueueItemKey d state
  end.

(** [enqueue] called for one key with each of the (time, value) pairs. *)
Definition enqueues (d : string) (ty : QueueItemType) (tvs : list (Z * float))
    (w : World) : World :=
  fold_left (fun w tv => enqueue (fst tv) d ty (snd tv) w) tvs w.

(** The gateway calls that open a dispatch: the first attempt of
    [sendRequest], made with [retries] at 0. *)
Definition dispatches (s : list (Z * Z * GatewayCall)) : list (Z * GatewayCall) :=
  omap (fun x => if snd (fst x) =? 0 then Some (fst (fst x), snd x) else None) s.

(** The delays [sendRequest] announced before its retries. *)
Definition retry_delays (l : list LogEntry) : list Z :=
  omap (fun e => match e with debug_retrying d => Some d | _ => None end) l.

(** The dispatch loop left to itself: no further [enqueue], every timer
    fires when it is due, every gateway call settles [latency] after it was
    made, with the outcome [ok] gives for the item and the attempt. *)
Fixpoint drive (fuel : nat) (ok : QueueItem -> Z -> bool) (latency now : Z)
    (w : World) : World :=
  match fuel with
  | O => w
  | S fuel' =>
      match runner w with
      | Idle => w
      | WaitingInterval since d =>
          drive fuel' ok latency (since + d) (on_interval_elapsed (since + d) w)
      | Sending item r =>
          drive fuel' ok latency (now + latency)
            (on_call_settled (now + latency) (ok item r) w)
      | BackingOff item r since d =>
          drive fuel' ok latency (since + d) (on_backoff_elapsed (since + d) w)
      | Rescheduled => drive fuel' ok latency now (on_immediate now w)
      end
  end.

(** A bound on the steps the loop needs to drain its queue. *)
Definition phase (M : Z) (r : Runner) : nat :=
  match r with
  | Idle => 0
  | WaitingInterval _ _ => 1
  | Rescheduled => 2
  | Sending _ r => 2 * Z.to_nat (M - r) + 3
  | BackingOff _ r _ _ => 2 * Z.to_nat (M - r) + 4
  end.

Definition budget (w : World) : nat :=
  length (queue (this w)) * (2 * Z.to_nat (maxRetries (this w)) + 5)
  + phase (maxRetries (this w)) (runner w).

(** The gateway calls failing one after the other, [k] retries following
    the attempt that is in flight: each failure is followed by the backoff
    timer firing when due, and each retry fails as soon as it is made. *)
Fixpoint failures (k : nat) (now : Z) (retries : Z) : list Event :=
  match k with
  | O => [ECallSettled now false]
  | S k' =>
      ECallSettled now false
      :: EBackoffElapsed (now + backoffMs (retries + 1))
      :: failures k' (now + backoffMs (retries + 1)) (retries + 1)
  end.

(** The [k] backoff delays that follow the failures of attempts
    [retries + 1], [retries + 2], ... *)
Fixpoint delays_from (k : nat) (retries : Z) : list Z :=
  match k with
  | O => []
  | S k' => backoffMs (retries + 1) :: delays_from k' (retries + 1)
  end.

(** Every entry of the queue stands under the key of its item. *)
Definition keyed (q : list (string * QueueItem)) : Prop :=
  Forall (fun kv => fst kv = item_key (snd kv)) q.

(** The flag [processing] is off exactly when no call of [processQueue] is
    suspended. *)
Definition one_runner (w : World) : Prop :=
  processing (this w) = false <-> runner w = Idle.

(** One step of the loop, from [w] to [w1]: the configuration stays, the
    bound goes down, and the items [L] leave the queue, each with the
    gateway call that opens its dispatch. *)
Definition progress (w w1 : World) : Prop :=
  maxRetries (this w1) = maxRetries (this w)
  /\ (budget w1 < budget w)%nat
  /\ exists (L : list QueueItem) (S : list (Z * Z * GatewayCall)),
       sent w1 = sent w ++ S
       /\ Permutation (map_values (queue (this w))) (L ++ map_values (queue (this w1)))
       /\ snd <$> dispatches S = gateway_call <$> L.

(** [retries] is never negative, and positive once a backoff is awaited. *)
Definition runner_ok (w : World) : Prop :=
  match runner w with
  | Sending _ r => 0 <= r
  | BackingOff _ r _ _ => 1 <= r
  | _ => True
  end.

(** What holds of the queue and its dispatch loop in every state. *)
Record Inv (w : World) : Prop := {
  inv_nodup : NoDup (map_keys (queue (this w)));
  inv_keyed : keyed (queue (this w));
  inv_runner : one_runner w;
  inv_idle : runner w = Idle -> queue (this w) = [];
  inv_retries : runner_ok w
}.



(** A device that reports 20 C / standby. *)
Definition drifted_status : DeviceStatus :=
  {| about := about CacheAux.sample_status;
     control := {| brightness_level := 100; display_temperature_unit := unit_c;
                   set_temperature_c := 20; set_temperature_f := 68;
                   thermal_control_status := standby; time_zone := "UTC" |};
     status := status CacheAux.sample_status |}.

(** Every live verification timer belongs to a device with a desired state. *)
Definition timers_have_state (w : World) : Prop :=
  Forall (fun tm => is_Some (deviceStates (this w) !! timer_device tm)) (timers w).

End QueueAux.

(** * Auxiliary definitions for the further properties *)

Module QueueMoreAux.
Import ApiQueue QueueAux.

(** [getOldestItem] reads the queue only. *)
Definition oldest (q : list (string * QueueItem)) : option QueueItem :=
  if (length q =? 0)%nat then None
  else fst (fold_left older (map_values q) (None, None)).

(** The order in which the loop takes the items of a queue when nothing is
    added: the oldest first, then the oldest of the rest. *)
Fixpoint dispatch_order (fuel : nat) (q : list (string * QueueItem)) : list QueueItem :=
  match fuel with
  | O => []
  | S fuel' =>
      match oldest q with
      | None => []
      | Some item => item :: dispatch_order fuel' (map_delete (item_key item) q)
      end
  end.

Definition order (w : World) : list QueueItem :=
  dispatch_order (length (queue (this w))) (queue (this w)).

(** Timestamps do not decrease along a list of items. *)
Definition by_timestamp (l : list QueueItem) : Prop :=
  StronglySorted (fun x y => timestamp x <= timestamp y) l.

(** The live verification timers of one device. *)
Definition timers_of (d : string) (w : World) : list Timer :=
  filter (fun tm => timer_device tm = d) (timers w).

(** Timer ids are below the next id and pairwise distinct; the desired
    state of a timer's device holds the timer's id; and the id a desired
    state holds is that of a live timer of its device. *)
Record TimersInv (w : World) : Prop := {
  tinv_fresh : forall tm, tm ∈ timers w -> (timer_id tm < nextTimerId w)%nat;
  tinv_nodup : NoDup (timer_id <$> timers w);
  tinv_owner :
    forall tm, tm ∈ timers w ->
    exists st, deviceStates (this w) !! timer_device tm = Some st
               /\ verificationTimerId st = Some (timer_id tm);
  tinv_live :
    forall d st tid,
    deviceStates (this w) !! d = Some st -> verificationTimerId st = Some tid ->
    exists tm, tm ∈ timers w /\ timer_id tm = tid /\ timer_device tm = d
}.

(** The timers [scheduleVerification] keeps for a device: all but the one
    whose id the desired state of the device holds. *)
Definition cleared (d : string) (w : World) : list Timer :=
  match deviceStates (this w) !! d ≫= verificationTimerId with
  | Some tid => clearTimeout tid (timers w)
  | None => timers w
  end.

(** What one step of the loop adds to the calls sent, against the order in
    which the queue is to be taken. *)
Definition refines (w w1 : World) : Prop :=
  exists S, sent w1 = sent w ++ S
            /\ (snd <$> dispatches S) ++ (gateway_call <$> order w1)
               = gateway_call <$> order w.

(** The desired targets of a device, without the bookkeeping fields. *)
Definition targets (d : string) (w : World)
    : option (option float * option ThermalControlStatus) :=
  (fun st => (targetTemperatureC st, targetState st)) <$> deviceStates (this w) !! d.

(** The gateway calls of the writes the events ask for. *)
Definition asked (es : list Event) : list GatewayCall :=
  omap (fun e => match e with
                 | EEnqueue now d ty v =>
                     Some (gateway_call {| id := d; type := ty; value := v;
                                           timestamp := now |})
                 | _ => None
                 end) es.

(** Every gateway call the queue holds in any form is one of [A]: the
    calls of the queued items and of the item the loop is sending, the
    calls that would write the desired targets, and the calls made. *)
Record AskedInv (A : GatewayCall -> Prop) (w : World) : Prop := {
  asked_queue : forall kv, kv ∈ queue (this w) -> A (gateway_call (snd kv));
  asked_runner :
    match runner w with
    | Sending item _ | BackingOff item _ _ _ => A (gateway_call item)
    | _ => True
    end;
  asked_temperature :
    forall d st x, deviceStates (this w) !! d = Some st ->
    targetTemperatureC st = Some x ->
    A (gateway_call {| id := d; type := temperature; value := x; timestamp := 0 |});
  asked_state :
    forall d st s, deviceStates (this w) !! d = Some st -> targetState st = Some s ->
    A (setThermalControlStatus d s);
  asked_sent : forall x, x ∈ sent w -> A (snd x)
}.

End QueueMoreAux.

Module CacheMoreAux.
Import ReadThroughCache CacheAux.

(** What holds of a cache in every state it reaches: a settled promise
    left in [this.request] resolved to a response; a promise that resolved
    to a response has left the cache with a value; no promise has been
    rejected; the bookkeeping of the value and of the last error is
    consistent; and the gateway has been called once for every promise. *)
Record CacheInv (w : World) : Prop := {
  cinv_request :
    forall p s, request (cache w) = Some p -> promises w !! p = Some (Settled s) ->
    exists v, s = Fulfilled (Some v);
  cinv_settled :
    forall p v, promises w !! p = Some (Settled (Fulfilled (Some v))) ->
    is_Some (value (cache w));
  cinv_rejected : none_rejected w;
  cinv_timestamp : value (cache w) = None <-> responseTimestamp (cache w) = None;
  cinv_expire : is_Some (responseExpireAt (cache w)) -> is_Some (value (cache w));
  cinv_error : errorCount (cache w) = 0%nat <-> lastErrorMessage (cache w) = None;
  cinv_code : is_Some (lastErrorCode (cache w)) -> is_Some (lastErrorMessage (cache w));
  cinv_fetches : fst <$> fetches w = seq 0 (length (promises w))
}.

End CacheMoreAux.

Module ServiceAux.
Import ReadThroughCache CacheMoreAux Service.




End ServiceAux.

Module AccessoryAux.
Import ApiQueue CacheMoreAux.

(** The lines of the log other than "No cache registered" and "Error
    during state verification". *)
Definition quiet (l : LogEntry) : Prop :=
  match l with
  | warn_no_cache _ | error_verification _ _ => False
  | _ => True
  end.

(** A log with further lines, all of them [quiet]. *)
Definition extends (l l' : list LogEntry) : Prop :=
  exists k, l' = l ++ k /\ Forall quiet k.

(** What a piece of the queue's code leaves as it is when it acts for the
    device [d] only: the registered caches, the settings, the suspended
    verifications, that every timer is one of [d], and the log but for
    [quiet] lines. *)
Record Evolves (d : string) (w w' : World) : Prop := {
  ev_caches : cachesById (this w') = cachesById (this w);
  ev_interval : intervalMs (this w') = intervalMs (this w);
  ev_retries : maxRetries (this w') = maxRetries (this w);
  ev_delay : verificationDelayMs (this w') = verificationDelayMs (this w);
  ev_verifying : verifying w' = verifying w;
  ev_timers :
    Forall (fun tm => timer_device tm = d) (timers w) ->
    Forall (fun tm => timer_device tm = d) (timers w');
  ev_log : extends (log w) (log w')
}.

(** What holds of an accessory in every state it reaches: the queue knows
    the cache of the device and has the settings it was built with; every
    timer is one of the device; the suspended verifications of the queue
    are the ones that await a refresh, each a promise of its own that is
    still pending; and the log has [quiet] lines only. *)
Record AccessoryInv (config : option SleepmePlatformAccessory.Config) (device : string)
    (w : SleepmePlatformAccessory.World) : Prop := {
  ainv_device : SleepmePlatformAccessory.deviceId w = device;
  ainv_cache :
    cachesById (this (SleepmePlatformAccessory.apiQueue w)) !! device
    = Some SleepmePlatformAccessory.cacheHandle;
  ainv_interval :
    intervalMs (this (SleepmePlatformAccessory.apiQueue w))
    = intervalMs (this (SleepmePlatformAccessory.apiQueue
                          (SleepmePlatformAccessory.new config device)));
  ainv_retries :
    maxRetries (this (SleepmePlatformAccessory.apiQueue w)) = 3;
  ainv_delay :
    verificationDelayMs (this (SleepmePlatformAccessory.apiQueue w))
    = verificationDelayMs (this (SleepmePlatformAccessory.apiQueue
                                   (SleepmePlatformAccessory.new config device)));
  ainv_timers :
    Forall (fun tm => timer_device tm = device)
      (timers (SleepmePlatformAccessory.apiQueue w));
  ainv_refreshes :
    Forall (fun x => fst x = device
                     /\ ReadThroughCache.promises
                          (SleepmePlatformAccessory.readThroughCache w) !! snd x
                        = Some Pending)
      (SleepmePlatformAccessory.refreshes w);
  ainv_nodup : NoDup (snd <$> SleepmePlatformAccessory.refreshes w);
  ainv_verifying :
    verifying (SleepmePlatformAccessory.apiQueue w)
    = fst <$> SleepmePlatformAccessory.refreshes w;
  ainv_cacheinv : CacheInv (SleepmePlatformAccessory.readThroughCache w);
  ainv_ttl :
    ReadThroughCache.expirationMS
      (ReadThroughCache.cache (SleepmePlatformAccessory.readThroughCache w))
    = 1000;
  ainv_log : Forall quiet (log (SleepmePlatformAccessory.apiQueue w))
}.

End AccessoryAux.

(** * Properties of the read-through cache *)

Module CacheFacts.
Import ReadThroughCache CacheAux.

Lemma settle_chain_fulfilled now response c :
  settle_chain now (Fulfilled response) c
  = (fst (on_fulfilled now response c), Fulfilled (Some response)).
Proof. reflexivity. Qed.

Lemma settle_chain_rejected now e c :
  settle_chain now (Rejected e) c = on_rejected now e c.
Proof. reflexivity. Qed.

Lemma on_rejected_settlement now e c :
  snd (on_rejected now e c) = Fulfilled (value c).
Proof. unfold on_rejected. destruct (value c); reflexivity. Qed.

Lemma settle_chain_settlement now o c :
  snd (settle_chain now o c)
  = match o with
    | Fulfilled response => Fulfilled (Some response)
    | Rejected _ => Fulfilled (value c)
    end.
Proof.
  destruct o as [response|e].
  - reflexivity.
  - rewrite settle_chain_rejected. apply on_rejected_settlement.
Qed.

Lemma settle_pending p now o w :
  promises w !! p = Some Pending ->
  settle p now o w
  = {| cache := fst (settle_chain now o (cache w));
       promises := <[p := Settled (snd (settle_chain now o (cache w)))]> (promises w);
       fetches := fetches w |}.
Proof.
  intros Hp. unfold settle. rewrite Hp.
  destruct (settle_chain now o (cache w)); reflexivity.
Qed.

Lemma settle_not_pending p now o w :
  promises w !! p <> Some Pending -> settle p now o w = w.
Proof.
  intros Hp. unfold settle.
  destruct (promises w !! p) as [[|s]|]; congruence.
Qed.

Lemma get_valid now w v :
  valid_entry now (cache w) = Some v -> get now w = (Resolved v, w).
Proof. intros H. unfold get. rewrite H. reflexivity. Qed.


Lemma get_new_fetch now w :
  valid_entry now (cache w) = None -> request (cache w) = None ->
  get now w
  = (InFlight (length (promises w)),
     {| cache := set_request (Some (length (promises w))) (cache w);
        promises := promises w ++ [Pending];
        fetches := fetches w ++ [(length (promises w), now)] |}).
Proof. intros H1 H2. unfold get. rewrite H1, H2. reflexivity. Qed.



Lemma valid_entry_no_expiry now c :
  responseExpireAt c = None -> valid_entry now c = None.
Proof. intros H. unfold valid_entry. rewrite H. destruct (value c); reflexivity. Qed.

(** *** C7: a successful fetch and the TTL *)

(** C7.  When the fetch behind promise [p] succeeds at time [T], the
    response is stored, [errorCount] is 0, [this.request] is cleared and the
    entry expires at [T + expirationMS], where [expirationMS] is 1000 unless
    the constructor was told otherwise.  A [get] at any time before the
    expiry resolves to the stored response, leaves the cache as it is and
    makes no gateway call; a [get] at the expiry or later starts a new
    fetch. *)
Theorem fetch_success_then_ttl (T : Z) (response : Response) (p : nat) (w : World) :
  promises w !! p = Some Pending ->
  let w' := settle p T (Fulfilled response) w in
  let expiry := T + expirationMS (cache w) in
  value (cache w') = Some response
  /\ errorCount (cache w') = 0%nat
  /\ request (cache w') = None
  /\ responseExpireAt (cache w') = Some expiry
  /\ promises w' !! p = Some (Settled (Fulfilled (Some response)))
  /\ (forall d, expirationMS (ReadThroughCache.new d None) = 1000)
  /\ (forall t, t < expiry -> get t w' = (Resolved response, w'))
  /\ (forall t, expiry <= t ->
        fst (get t w') = InFlight (length (promises w'))
        /\ promises (snd (get t w')) = promises w' ++ [Pending]
        /\ fetches (snd (get t w')) = fetches w' ++ [(length (promises w'), t)]
        /\ request (cache (snd (get t w'))) = Some (length (promises w'))).
Proof.
  intros Hp w' expiry. subst w'.
  rewrite (settle_pending _ _ _ _ Hp), settle_chain_fulfilled. cbn.
  pose proof (lookup_lt_Some _ _ _ Hp) as Hlt.
  split_and!; try reflexivity.
  - rewrite list_lookup_insert_eq by exact Hlt. reflexivity.
  - intros u Hu. apply get_valid. unfold valid_entry. cbn.
    destruct (Z.ltb_spec u (T + expirationMS (cache w))); [reflexivity|].
    subst expiry. lia.
  - intros u Hu. rewrite get_new_fetch; [split_and!; reflexivity| |reflexivity].
    unfold valid_entry. cbn.
    destruct (Z.ltb_spec u (T + expirationMS (cache w))); [|reflexivity].
    subst expiry. lia.
Qed.

Lemma fetch_success_then_ttl_witness :
  let w := snd (get 0 (init "dock" None)) in
  promises w !! 0%nat = Some Pending
  /\ get 500 (settle 0 10 (Fulfilled sample_response) w)
     = (Resolved sample_response, settle 0 10 (Fulfilled sample_response) w)
  /\ fst (get 1500 (settle 0 10 (Fulfilled sample_response) w)) = InFlight 1.
Proof.
  intros w.
  pose proof (fetch_success_then_ttl 10 sample_response 0 w eq_refl) as H.
  cbv zeta in H.
  destruct H as (_ & _ & _ & _ & _ & _ & Hbefore & Hafter).
  split; [reflexivity|]. split.
  - apply Hbefore. reflexivity.
  - apply (Hafter 1500). discriminate.
Defined.

(** *** C5: a failed fetch over a cached value *)


Lemma backoffDuration_bounds n ttl : 5000 <= backoffDuration n ttl <= 300000.
Proof. unfold backoffDuration. lia. Qed.



(** *** C8: [get] never rejects *)

Lemma settle_none_rejected p now o w :
  none_rejected w -> none_rejected (settle p now o w).
Proof.
  intros Hw q e.
  assert (promises w !! p = Some Pending \/ promises w !! p <> Some Pending)
    as [Hp|Hp] by (destruct (promises w !! p) as [[|?]|]; auto; right; congruence).
  - rewrite (settle_pending _ _ _ _ Hp). cbn [promises].
    destruct (decide (p = q)) as [->|Hne].
    + rewrite list_lookup_insert_eq by (eapply lookup_lt_Some; exact Hp).
      rewrite settle_chain_settlement. destruct o; congruence.
    + rewrite list_lookup_insert_ne by exact Hne. apply Hw.
  - rewrite (settle_not_pending _ _ _ _ Hp). apply Hw.
Qed.

Lemma get_promises now w :
  promises (snd (get now w)) = promises w
  \/ promises (snd (get now w)) = promises w ++ [Pending].
Proof.
  unfold get. destruct (valid_entry now (cache w)); [left; reflexivity|].
  destruct (request (cache w)); [left; reflexivity|right; reflexivity].
Qed.

Lemma none_rejected_grow w ps :
  none_rejected w -> ps = promises w \/ ps = promises w ++ [Pending] ->
  forall p e, ps !! p <> Some (Settled (Rejected e)).
Proof.
  intros Hw [->| ->] p e; [apply Hw|].
  intros H. apply lookup_app_Some in H as [H|[_ H]].
  - exact (Hw _ _ H).
  - apply list_lookup_singleton_Some in H as [_ H]. congruence.
Qed.




Lemma init_none_rejected d ttl : none_rejected (init d ttl).
Proof. intros p e. cbn. rewrite lookup_nil. congruence. Qed.



(** *** C9: one fetch at a time *)

















(** *** C1: [refresh] *)

Lemma refresh_unfold now w :
  refresh now w
  = (InFlight (length (promises w)),
     {| cache := set_request (Some (length (promises w)))
                   (set_responseExpireAt None (set_request None (cache w)));
        promises := promises w ++ [Pending];
        fetches := fetches w ++ [(length (promises w), now)] |}).
Proof.
  unfold refresh. rewrite get_new_fetch; [reflexivity| |reflexivity].
  apply valid_entry_no_expiry. reflexivity.
Qed.

(** The counterexample to C1 as stated: with the fetch of promise 0 in
    flight, [refresh] does not return promise 0; it makes a second gateway
    call and stores the new promise in [this.request]. *)
Lemma refresh_replaces_in_flight_fetch :
  let w := snd (get 0 (init "dock" None)) in
  (request (cache w) = Some 0%nat /\ promises w !! 0%nat = Some Pending)
  /\ fst (refresh 1 w) <> InFlight 0
  /\ fst (refresh 1 w) = InFlight 1
  /\ fetches (snd (refresh 1 w)) = [(0%nat, 0); (1%nat, 1)]
  /\ request (cache (snd (refresh 1 w))) = Some 1%nat.
Proof. cbn. split_and!; try reflexivity. discriminate. Qed.

(** C1, amended.  [refresh] clears [this.request], invalidates the expiry
    and always starts a new fetch, whose promise it stores and returns; it
    does so too when a fetch is in flight, which it does not return.  Only
    the first declaration of [refresh], replaced by the second, returns the
    promise in flight. *)
Theorem refresh_always_fetches (now : Z) (w : World) :
  refresh now w
  = (InFlight (length (promises w)),
     {| cache := set_request (Some (length (promises w)))
                   (set_responseExpireAt None (set_request None (cache w)));
        promises := promises w ++ [Pending];
        fetches := fetches w ++ [(length (promises w), now)] |})
  /\ responseExpireAt (cache (snd (refresh now w))) = None
  /\ (forall p s, promises w !! p = Some s -> fst (refresh now w) <> InFlight p)
  /\ (forall p, request (cache w) = Some p -> refresh_shadowed now w = (InFlight p, w)).
Proof.
  rewrite (refresh_unfold now w). split_and!; [reflexivity|reflexivity| |].
  - intros p s Hp. apply lookup_lt_Some in Hp. cbn. intros [= Heq]. lia.
  - intros p Hp. unfold refresh_shadowed. rewrite Hp. reflexivity.
Qed.

Lemma refresh_always_fetches_witness :
  let w := snd (get 0 (init "dock" None)) in
  request (cache w) = Some 0%nat
  /\ promises w !! 0%nat = Some Pending
  /\ fst (refresh 1 w) <> InFlight 0
  /\ refresh_shadowed 1 w = (InFlight 0, w).
Proof.
  intros w.
  destruct (refresh_always_fetches 1 w) as (_ & _ & H3 & H4).
  split_and!; [reflexivity|reflexivity|exact (H3 0%nat Pending eq_refl)|exact (H4 0%nat eq_refl)].
Defined.

(** *** C2: the request left behind by a failed fetch *)





End CacheFacts.

(** * Properties of the write queue *)

Module QueueFacts.
Import ApiQueue QueueAux.

(** *** The insertion-ordered map *)

Section MapFacts.
Context {V : Type}.
Implicit Types (m : list (string * V)) (k : string) (v : V).

Lemma map_get_set_eq k v m : map_get k (map_set k v m) = Some v.
Proof.
  induction m as [|[k' v'] m IH]; cbn.
  - rewrite decide_True by reflexivity. reflexivity.
  - destruct (decide (k = k')) as [->|Hne]; cbn.
    + rewrite decide_True by reflexivity. reflexivity.
    + rewrite decide_False by exact Hne. exact IH.
Qed.

Lemma map_get_set_ne k k' v m :
  k <> k' -> map_get k' (map_set k v m) = map_get k' m.
Proof.
  intros Hne. induction m as [|[k0 v0] m IH]; cbn.
  - rewrite decide_False by congruence. reflexivity.
  - destruct (decide (k = k0)) as [->|Hne0]; cbn.
    + rewrite !decide_False by congruence. reflexivity.
    + destruct (decide (k' = k0)); [reflexivity|exact IH].
Qed.

Lemma map_get_Some_elem k v m : map_get k m = Some v -> (k, v) ∈ m.
Proof.
  induction m as [|[k0 v0] m IH]; cbn; [discriminate|].
  destruct (decide (k = k0)) as [->|Hne].
  - intros [= ->]. apply list_elem_of_here.
  - intros H. apply list_elem_of_further, IH, H.
Qed.

Lemma map_get_None_keys k m : map_get k m = None <-> k ∉ map_keys m.
Proof.
  induction m as [|[k0 v0] m IH]; cbn.
  - split; [intros _; apply not_elem_of_nil|reflexivity].
  - rewrite not_elem_of_cons. destruct (decide (k = k0)) as [->|Hne].
    + split; [discriminate|]. intros [H _]. congruence.
    + rewrite IH. tauto.
Qed.

Lemma map_keys_set k v m :
  map_keys (map_set k v m)
  = if map_has k m then map_keys m else map_keys m ++ [k].
Proof.
  unfold map_has, map_keys. induction m as [|[k0 v0] m IH]; cbn; [reflexivity|].
  destruct (decide (k = k0)) as [->|Hne]; cbn; [reflexivity|].
  rewrite IH. destruct (map_get k m); reflexivity.
Qed.

Lemma length_map_set k v m :
  length (map_set k v m) = if map_has k m then length m else S (length m).
Proof.
  unfold map_has. induction m as [|[k0 v0] m IH]; cbn; [reflexivity|].
  destruct (decide (k = k0)) as [->|Hne]; cbn; [reflexivity|].
  rewrite IH. destruct (map_get k m); reflexivity.
Qed.

Lemma NoDup_map_set k v m : NoDup (map_keys m) -> NoDup (map_keys (map_set k v m)).
Proof.
  intros Hm. rewrite map_keys_set. unfold map_has.
  destruct (map_get k m) eqn:Hk; [exact Hm|].
  apply NoDup_app. split_and!; [exact Hm| |apply NoDup_singleton].
  intros x Hx Hx'. apply list_elem_of_singleton in Hx' as ->.
  apply map_get_None_keys in Hk. contradiction.
Qed.

Lemma map_get_delete_eq k m : map_get k (map_delete k m) = None.
Proof.
  induction m as [|[k0 v0] m IH]; cbn; [reflexivity|].
  destruct (decide (k = k0)) as [->|Hne]; [exact IH|].
  cbn. rewrite decide_False by exact Hne. exact IH.
Qed.

Lemma map_get_delete_ne k k' m :
  k <> k' -> map_get k' (map_delete k m) = map_get k' m.
Proof.
  intros Hne. induction m as [|[k0 v0] m IH]; cbn; [reflexivity|].
  destruct (decide (k = k0)) as [->|Hne0]; cbn.
  - rewrite decide_False by congruence. exact IH.
  - destruct (decide (k' = k0)); [reflexivity|exact IH].
Qed.

Lemma map_delete_elem kv k m : kv ∈ map_delete k m -> kv ∈ m /\ fst kv <> k.
Proof.
  induction m as [|[k0 v0] m IH]; cbn; [intros H; inversion H|].
  destruct (decide (k = k0)) as [->|Hne].
  - intros H. apply IH in H as [H1 H2]. split; [apply list_elem_of_further, H1|exact H2].
  - intros H. apply elem_of_cons in H as [->|H].
    + split; [apply list_elem_of_here|cbn; congruence].
    + apply IH in H as [H1 H2]. split; [apply list_elem_of_further, H1|exact H2].
Qed.

Lemma map_delete_absent k m : k ∉ map_keys m -> map_delete k m = m.
Proof.
  induction m as [|[k0 v0] m IH]; cbn; [reflexivity|].
  rewrite not_elem_of_cons. intros [Hne H].
  rewrite decide_False by exact Hne. rewrite IH by exact H. reflexivity.
Qed.

Lemma NoDup_map_delete k m : NoDup (map_keys m) -> NoDup (map_keys (map_delete k m)).
Proof.
  induction m as [|[k0 v0] m IH]; cbn; [auto|].
  intros Hm. apply NoDup_cons in Hm as [Hk0 Hm].
  destruct (decide (k = k0)) as [->|Hne]; [exact (IH Hm)|].
  cbn. apply NoDup_cons. split; [|exact (IH Hm)].
  intros Hin. apply Hk0.
  apply list_elem_of_fmap in Hin as ([k1 v1] & -> & Hin).
  apply map_delete_elem in Hin as [Hin _].
  apply list_elem_of_fmap. exists (k1, v1). split; [reflexivity|exact Hin].
Qed.

(** Deleting a present key of a map without repeated keys takes out
    exactly its entry. *)
Lemma map_delete_Permutation k v m :
  NoDup (map_keys m) -> (k, v) ∈ m -> Permutation m ((k, v) :: map_delete k m).
Proof.
  induction m as [|[k0 v0] m IH]; cbn; [intros _ H; inversion H|].
  intros Hm Hin. apply NoDup_cons in Hm as [Hk0 Hm].
  destruct (decide (k = k0)) as [->|Hne].
  - assert (v0 = v) as ->.
    { apply elem_of_cons in Hin as [[= ->]|Hin]; [reflexivity|].
      exfalso. apply Hk0. apply list_elem_of_fmap. exists (k0, v). auto. }
    rewrite map_delete_absent by exact Hk0. reflexivity.
  - apply elem_of_cons in Hin as [[= -> ->]|Hin]; [congruence|].
    rewrite (IH Hm Hin) at 1. apply perm_swap.
Qed.

Lemma length_map_delete k v m :
  (k, v) ∈ m -> (length (map_delete k m) < length m)%nat.
Proof.
  induction m as [|[k0 v0] m IH]; cbn; [intros H; inversion H|].
  intros Hin. destruct (decide (k = k0)) as [->|Hne].
  - assert (length (map_delete k0 m) <= length m)%nat; [|lia].
    clear. induction m as [|[k1 v1] m IH]; cbn; [lia|].
    destruct (decide (k0 = k1)); cbn; lia.
  - apply elem_of_cons in Hin as [[= -> ->]|Hin]; [congruence|].
    cbn. apply IH in Hin. lia.
Qed.
End MapFacts.

(** *** Queue keys *)

Lemma string_app_cons (ch : Ascii.ascii) (a b : string) :
  String ch a +:+ b = String ch (a +:+ b).
Proof. reflexivity. Qed.

Lemma string_app_nil (b : string) : EmptyString +:+ b = b.
Proof. reflexivity. Qed.

Lemma string_length_app (a b : string) :
  String.length (a +:+ b) = (String.length a + String.length b)%nat.
Proof.
  induction a as [|c a IH]; [reflexivity|].
  rewrite string_app_cons. cbn. rewrite IH. reflexivity.
Qed.

Lemma string_app_split (a b c d : string) :
  a +:+ b = c +:+ d -> (String.length a <= String.length c)%nat ->
  exists x, c = a +:+ x /\ b = x +:+ d.
Proof.
  revert c. induction a as [|ch a IH]; intros c H Hlen.
  - exists c. split; [reflexivity|exact H].
  - destruct c as [|ch' c]; [cbn in Hlen; lia|].
    rewrite !string_app_cons in H. injection H as -> H.
    destruct (IH c H) as (x & -> & ->); [cbn in Hlen; lia|].
    exists x. split; reflexivity.
Qed.

Lemma string_app_inv_tail (a c s : string) : a +:+ s = c +:+ s -> a = c.
Proof.
  intros H.
  assert (String.length a = String.length c) as Hlen.
  { apply (f_equal String.length) in H. rewrite !string_length_app in H. lia. }
  destruct (string_app_split a s c s H) as (x & -> & Hx); [lia|].
  rewrite string_length_app in Hlen.
  destruct x; [|cbn in Hlen; lia].
  clear. induction a as [|ch a IH]; [reflexivity|].
  rewrite string_app_cons, <- IH. reflexivity.
Qed.

Lemma temperature_key_is_no_state_key (d1 d2 : string) :
  QueueItemKey d1 temperature <> QueueItemKey d2 state.
Proof.
  unfold QueueItemKey. cbn [type_name]. intros H.
  destruct (string_app_split d1 _ d2 _ H) as (x & _ & Hx).
  { apply (f_equal String.length) in H. rewrite !string_length_app in H.
    cbn in H. lia. }
  rewrite !string_app_cons, !string_app_nil in Hx.
  repeat (destruct x as [|? x];
          [rewrite ?string_app_cons, ?string_app_nil in Hx; discriminate Hx|];
          rewrite string_app_cons in Hx; injection Hx as _ Hx).
  destruct x; discriminate Hx.
Qed.

(** A key stands for one device and one field. *)
Lemma QueueItemKey_inj (d1 d2 : string) (t1 t2 : QueueItemType) :
  QueueItemKey d1 t1 = QueueItemKey d2 t2 -> d1 = d2 /\ t1 = t2.
Proof.
  intros H. destruct t1, t2.
  - split; [|reflexivity]. eapply string_app_inv_tail, H.
  - exfalso. exact (temperature_key_is_no_state_key _ _ H).
  - exfalso. symmetry in H. exact (temperature_key_is_no_state_key _ _ H).
  - split; [|reflexivity]. eapply string_app_inv_tail, H.
Qed.

(** *** What the pieces of the dispatch loop leave alone *)

Lemma sendRequest_loop_this now item r w :
  this (sendRequest_loop now item r w) = this w.
Proof. unfold sendRequest_loop. destruct (r <? maxRetries (this w)); reflexivity. Qed.

Lemma processQueue_dispatch_deviceStates now w :
  deviceStates (this (processQueue_dispatch now w)) = deviceStates (this w).
Proof.
  unfold processQueue_dispatch. destruct (getOldestItem (this w)); [|reflexivity].
  rewrite sendRequest_loop_this. reflexivity.
Qed.

Lemma processQueue_deviceStates now w :
  deviceStates (this (processQueue now w)) = deviceStates (this w).
Proof.
  unfold processQueue. destruct (length (queue (this w)) =? 0)%nat; [reflexivity|].
  destruct (0 <? _); [reflexivity|].
  rewrite processQueue_dispatch_deviceStates. reflexivity.
Qed.

Lemma scheduleVerification_deviceStates now d w st :
  deviceStates (this w) !! d = Some st ->
  deviceStates (this (scheduleVerification now d w))
  = <[d := {| targetTemperatureC := targetTemperatureC st;
              targetState := targetState st;
              lastModified := lastModified st;
              verificationTimerId := Some (nextTimerId w) |}]> (deviceStates (this w)).
Proof. intros H. unfold scheduleVerification. rewrite H. reflexivity. Qed.

(** The desired state of a device after [enqueue]: the field that was
    written holds the new target and the other field is as before. *)
Lemma enqueue_deviceStates now d ty v w :
  exists st,
    deviceStates (this (enqueue now d ty v w)) !! d = Some st
    /\ targetTemperatureC st
       = match ty with
         | temperature => Some v
         | state => (deviceStates (this w) !! d) ≫= targetTemperatureC
         end
    /\ targetState st
       = match ty with
         | temperature => (deviceStates (this w) !! d) ≫= targetState
         | state => Some (state_of_value v)
         end.
Proof.
  unfold enqueue.
  set (w3 := add_log _ (with_this _ _)).
  assert (deviceStates (this w3) = deviceStates (this w)) as Hw3.
  { subst w3. destruct (map_has _ _); reflexivity. }
  set (w4 := updateDesiredState now d ty v w3).
  assert (exists st, deviceStates (this w4) !! d = Some st
            /\ targetTemperatureC st
               = match ty with
                 | temperature => Some v
                 | state => (deviceStates (this w) !! d) ≫= targetTemperatureC
                 end
            /\ targetState st
               = match ty with
                 | temperature => (deviceStates (this w) !! d) ≫= targetState
                 | state => Some (state_of_value v)
                 end) as (st & Hst & Ht & Hs).
  { subst w4. unfold updateDesiredState. cbn [this with_this deviceStates set_deviceStates].
    rewrite Hw3. eexists. rewrite lookup_insert_eq. split; [reflexivity|].
    destruct ty, (deviceStates (this w) !! d); cbn; auto. }
  eexists.
  assert (deviceStates (this (scheduleVerification now d w4)) !! d
          = Some {| targetTemperatureC := targetTemperatureC st;
                    targetState := targetState st;
                    lastModified := lastModified st;
                    verificationTimerId := Some (nextTimerId w4) |}) as Hsched.
  { rewrite (scheduleVerification_deviceStates _ _ _ _ Hst). apply lookup_insert_eq. }
  destruct (processing (this (scheduleVerification now d w4))).
  - split; [exact Hsched|]. split; assumption.
  - rewrite processQueue_deviceStates. split; [exact Hsched|]. split; assumption.
Qed.

(** *** The oldest item *)

Lemma fold_older_elem (l : list QueueItem) acc item :
  fst (fold_left older l acc) = Some item -> fst acc = Some item \/ item ∈ l.
Proof.
  revert acc. induction l as [|x l IH]; intros acc H; [left; exact H|].
  cbn in H. apply IH in H as [H|H]; [|right; apply list_elem_of_further, H].
  unfold older in H. destruct (snd acc) as [ts|].
  - destruct (timestamp x <? ts); cbn in H.
    + injection H as ->. right. apply list_elem_of_here.
    + left. exact H.
  - cbn in H. injection H as ->. right. apply list_elem_of_here.
Qed.

Lemma fold_older_Some (l : list QueueItem) acc :
  is_Some (fst acc) -> is_Some (snd acc) -> is_Some (fst (fold_left older l acc)).
Proof.
  revert acc. induction l as [|x l IH]; intros acc H1 H2; [exact H1|].
  cbn. destruct H2 as [ts Hts].
  assert (is_Some (fst (older acc x)) /\ is_Some (snd (older acc x))) as [H3 H4].
  { unfold older. rewrite Hts. destruct (timestamp x <? ts); cbn; [eauto|].
    rewrite Hts. eauto. }
  apply IH; assumption.
Qed.

Lemma getOldestItem_elem a item :
  getOldestItem a = Some item -> item ∈ map_values (queue a).
Proof.
  unfold getOldestItem. destruct (length (queue a) =? 0)%nat; [discriminate|].
  intros H. apply fold_older_elem in H as [H|H]; [discriminate H|exact H].
Qed.

Lemma getOldestItem_keyed a item :
  keyed (queue a) -> getOldestItem a = Some item -> (item_key item, item) ∈ queue a.
Proof.
  intros Hk H. apply getOldestItem_elem in H.
  apply list_elem_of_fmap in H as ([k x] & -> & Hin).
  unfold keyed in Hk. rewrite Forall_forall in Hk.
  specialize (Hk _ Hin). cbn in Hk |- *. rewrite <- Hk. exact Hin.
Qed.

Lemma getOldestItem_None a : getOldestItem a = None -> queue a = [].
Proof.
  unfold getOldestItem. destruct (queue a) as [|[k x] q]; [reflexivity|].
  cbn [length Nat.eqb map_values fmap list_fmap fold_left snd].
  intros H. exfalso.
  assert (is_Some (fst (fold_left older (snd <$> q) (older (None, None) x)))) as [y Hy]
    by (apply fold_older_Some; cbn; eauto).
  cbn in H, Hy. congruence.
Qed.

(** The oldest item is oldest: no queued item has a smaller timestamp. *)
Lemma fold_older_min (l : list QueueItem) acc item :
  (forall x ts, fst acc = Some x -> snd acc = Some ts -> timestamp x = ts) ->
  (is_Some (fst acc) <-> is_Some (snd acc)) ->
  fst (fold_left older l acc) = Some item ->
  (forall x, fst acc = Some x -> timestamp item <= timestamp x)
  /\ (forall x, x ∈ l -> timestamp item <= timestamp x).
Proof.
  revert acc. induction l as [|y l IH]; intros acc Hts Hsome H.
  - cbn in H. split; [|intros x Hx; inversion Hx].
    intros x Hx. rewrite H in Hx. injection Hx as ->. lia.
  - cbn in H. destruct (IH (older acc y)) as [IH1 IH2]; [| |exact H|].
    + intros x ts. unfold older. destruct (snd acc) as [ts0|] eqn:Hs.
      * destruct (timestamp y <? ts0); cbn.
        -- intros [= <-] [= <-]. reflexivity.
        -- rewrite Hs. apply Hts.
      * cbn. intros [= <-] [= <-]. reflexivity.
    + unfold older. destruct (snd acc) as [ts0|] eqn:Hs.
      * destruct (timestamp y <? ts0); cbn; [split; eauto|].
        rewrite Hs. exact Hsome.
      * cbn. split; eauto.
    + split.
      * intros x Hx. unfold older in IH1.
        destruct (snd acc) as [ts0|] eqn:Hs.
        -- specialize (Hts x ts0 Hx eq_refl).
           destruct (Z.ltb_spec (timestamp y) ts0); cbn in IH1.
           ++ specialize (IH1 y eq_refl). lia.
           ++ apply IH1, Hx.
        -- destruct Hsome as [Hsome _]. destruct Hsome as [? ?]; [eauto|discriminate].
      * intros x Hx. apply elem_of_cons in Hx as [->|Hx]; [|apply IH2, Hx].
        unfold older in IH1. destruct (snd acc) as [ts0|] eqn:Hs.
        -- destruct (Z.ltb_spec (timestamp y) ts0); cbn in IH1.
           ++ apply IH1. reflexivity.
           ++ destruct Hsome as [_ Hsome]. destruct Hsome as [x0 Hx0]; [eauto|].
              specialize (Hts x0 ts0 Hx0 eq_refl). specialize (IH1 x0 Hx0). lia.
        -- cbn in IH1. apply IH1. reflexivity.
Qed.

Lemma getOldestItem_min a item x :
  getOldestItem a = Some item -> x ∈ map_values (queue a) ->
  timestamp item <= timestamp x.
Proof.
  unfold getOldestItem. destruct (length (queue a) =? 0)%nat; [discriminate|].
  intros H Hx. eapply (fold_older_min _ (None, None)); [| |exact H|exact Hx].
  - cbn. discriminate.
  - cbn. split; intros [? ?]; discriminate.
Qed.

(** *** The invariant *)

Lemma enqueue_unfold now d ty v w :
  exists w5,
    enqueue now d ty v w = (if processing (this w5) then w5 else processQueue now w5)
    /\ queue (this w5)
       = map_set (QueueItemKey d ty)
           {| id := d; type := ty; value := v; timestamp := now |} (queue (this w))
    /\ processing (this w5) = processing (this w)
    /\ lastProcessTime (this w5) = lastProcessTime (this w)
    /\ intervalMs (this w5) = intervalMs (this w)
    /\ maxRetries (this w5) = maxRetries (this w)
    /\ runner w5 = runner w
    /\ sent w5 = sent w.
Proof.
  unfold enqueue.
  set (w4 := updateDesiredState now d ty v _).
  exists (scheduleVerification now d w4). split; [reflexivity|].
  unfold scheduleVerification.
  destruct (deviceStates (this w4) !! d) as [st|];
    subst w4; destruct (map_has _ _); split_and!; reflexivity.
Qed.

Lemma sendRequest_loop_cases now item r w :
  (r < maxRetries (this w)
   /\ sendRequest_loop now item r w
      = set_runner (Sending item r)
          (add_sent now r (gateway_call item) (add_log (debug_processing item) w)))
  \/ (maxRetries (this w) <= r
      /\ sendRequest_loop now item r w
         = set_runner Rescheduled
             (add_log (error_processing (item_key item) item (maxRetries (this w))) w)).
Proof.
  unfold sendRequest_loop. destruct (Z.ltb_spec r (maxRetries (this w))); [left|right]; auto.
Qed.

Lemma sendRequest_loop_runner now item r w :
  runner (sendRequest_loop now item r w) = Sending item r
  \/ runner (sendRequest_loop now item r w) = Rescheduled.
Proof.
  destruct (sendRequest_loop_cases now item r w) as [[_ ->]|[_ ->]]; auto.
Qed.

Lemma Inv_busy w :
  NoDup (map_keys (queue (this w))) -> keyed (queue (this w)) ->
  processing (this w) = true -> runner w <> Idle -> runner_ok w -> Inv w.
Proof.
  intros Hq Hk Hp Hr Hn. split; try assumption.
  - unfold one_runner. rewrite Hp. split; [discriminate|contradiction].
  - contradiction.
Qed.

Lemma keyed_map_delete k q : keyed q -> keyed (map_delete k q).
Proof.
  unfold keyed. rewrite !Forall_forall. intros Hk kv Hin.
  apply map_delete_elem in Hin as [Hin _]. apply Hk, Hin.
Qed.

Lemma keyed_map_set k item q : keyed q -> k = item_key item -> keyed (map_set k item q).
Proof.
  unfold keyed. intros Hk ->. induction q as [|[k0 x0] q IH]; cbn.
  - constructor; [reflexivity|constructor].
  - apply Forall_cons in Hk as [H0 Hk].
    destruct (decide (item_key item = k0)).
    + constructor; [reflexivity|exact Hk].
    + constructor; [exact H0|exact (IH Hk)].
Qed.

Lemma processQueue_dispatch_Inv now w :
  NoDup (map_keys (queue (this w))) -> keyed (queue (this w)) ->
  processing (this w) = true ->
  Inv (processQueue_dispatch now w).
Proof.
  intros Hq Hk Hp. unfold processQueue_dispatch.
  destruct (getOldestItem (this w)) as [item|] eqn:Hold.
  - set (w1 := with_this _ w).
    destruct (sendRequest_loop_cases now item 0 w1) as [[_ ->]|[_ ->]];
      (apply Inv_busy;
       [apply NoDup_map_delete, Hq|apply keyed_map_delete, Hk|exact Hp|discriminate|]).
    + unfold runner_ok. cbn. lia.
    + exact I.
  - apply getOldestItem_None in Hold.
    split; unfold one_runner, runner_ok; cbn; try rewrite Hold; auto.
    + constructor.
    + constructor.
    + tauto.
Qed.

Lemma processQueue_Inv now w :
  NoDup (map_keys (queue (this w))) -> keyed (queue (this w)) ->
  Inv (processQueue now w).
Proof.
  intros Hq Hk. unfold processQueue.
  destruct (length (queue (this w)) =? 0)%nat eqn:Hlen.
  - apply Nat.eqb_eq in Hlen. apply nil_length_inv in Hlen.
    split; unfold one_runner, runner_ok; cbn; try rewrite Hlen; auto.
    + constructor.
    + constructor.
    + tauto.
  - destruct (0 <? _).
    + apply Inv_busy; [exact Hq|exact Hk|reflexivity|discriminate|exact I].
    + apply processQueue_dispatch_Inv; [exact Hq|exact Hk|reflexivity].
Qed.

Lemma enqueue_Inv now d ty v w : Inv w -> Inv (enqueue now d ty v w).
Proof.
  intros [Hq Hk Hrun Hidle Hret].
  destruct (enqueue_unfold now d ty v w)
    as (w5 & -> & Hq5 & Hp5 & _ & _ & _ & Hr5 & _).
  assert (NoDup (map_keys (queue (this w5)))) as Hq'
    by (rewrite Hq5; apply NoDup_map_set, Hq).
  assert (keyed (queue (this w5))) as Hk'
    by (rewrite Hq5; apply keyed_map_set; [exact Hk|reflexivity]).
  destruct (processing (this w5)) eqn:Hp.
  - assert (processing (this w) = true) as Hpw by congruence.
    split; unfold one_runner, runner_ok in *; rewrite ?Hr5, ?Hp; try assumption.
    + rewrite Hpw in Hrun. exact Hrun.
    + intros Hi. apply Hrun in Hi. congruence.
  - apply processQueue_Inv; assumption.
Qed.

Lemma Inv_frame w w' :
  queue (this w') = queue (this w) -> processing (this w') = processing (this w) ->
  runner w' = runner w -> Inv w -> Inv w'.
Proof.
  intros Hq Hp Hr [H1 H2 H3 H4 H5].
  split; unfold one_runner, runner_ok in *; rewrite ?Hq, ?Hp, ?Hr; assumption.
Qed.

Lemma Inv_processing w : Inv w -> runner w <> Idle -> processing (this w) = true.
Proof.
  intros [_ _ Hrun _ _] Hr. unfold one_runner in Hrun.
  destruct (processing (this w)); [reflexivity|].
  exfalso. apply Hr, Hrun. reflexivity.
Qed.

Lemma on_call_settled_Inv now ok w : Inv w -> Inv (on_call_settled now ok w).
Proof.
  intros HI. unfold on_call_settled.
  destruct (runner w) as [| | item r | |] eqn:Hr; try exact HI.
  assert (processing (this w) = true) as Hp by (apply Inv_processing; [exact HI|congruence]).
  pose proof (inv_retries _ HI) as Hn. unfold runner_ok in Hn. rewrite Hr in Hn.
  destruct HI as [Hq Hk _ _ _].
  destruct ok.
  - apply Inv_busy; [exact Hq|exact Hk|exact Hp|discriminate|exact I].
  - destruct (r + 1 <? maxRetries (this w)).
    + apply Inv_busy; [exact Hq|exact Hk|exact Hp|discriminate|].
      unfold runner_ok. cbn. lia.
    + set (w1 := add_log _ w).
      destruct (sendRequest_loop_cases now item (r + 1) w1) as [[_ ->]|[_ ->]];
        (apply Inv_busy; [exact Hq|exact Hk|exact Hp|discriminate|]).
      * unfold runner_ok. cbn. lia.
      * exact I.
Qed.

Lemma on_backoff_elapsed_Inv now w : Inv w -> Inv (on_backoff_elapsed now w).
Proof.
  intros HI. unfold on_backoff_elapsed.
  destruct (runner w) as [| | | item r since d |] eqn:Hr; try exact HI.
  assert (processing (this w) = true) as Hp by (apply Inv_processing; [exact HI|congruence]).
  pose proof (inv_retries _ HI) as Hn. unfold runner_ok in Hn. rewrite Hr in Hn.
  destruct HI as [Hq Hk _ _ _].
  destruct (sendRequest_loop_cases now item r w) as [[_ ->]|[_ ->]];
    (apply Inv_busy; [exact Hq|exact Hk|exact Hp|discriminate|]).
  - unfold runner_ok. cbn. lia.
  - exact I.
Qed.

Lemma on_interval_elapsed_Inv now w : Inv w -> Inv (on_interval_elapsed now w).
Proof.
  intros HI. unfold on_interval_elapsed.
  destruct (runner w) eqn:Hr; try exact HI.
  apply processQueue_dispatch_Inv; [apply HI|apply HI|].
  apply Inv_processing; [exact HI|congruence].
Qed.

Lemma on_immediate_Inv now w : Inv w -> Inv (on_immediate now w).
Proof.
  intros HI. unfold on_immediate.
  destruct (runner w) eqn:Hr; try exact HI.
  apply processQueue_Inv; apply HI.
Qed.

Lemma verifyDeviceState_start_Inv now d w : Inv w -> Inv (verifyDeviceState_start now d w).
Proof.
  intros HI. unfold verifyDeviceState_start.
  destruct (deviceStates (this w) !! d); [|exact HI].
  destruct (cachesById (this w) !! d);
    (apply (Inv_frame w); [reflexivity|reflexivity|reflexivity|exact HI]).
Qed.

Lemma verifyDeviceState_resume_Inv now d r w :
  Inv w -> Inv (verifyDeviceState_resume now d r w).
Proof.
  intros HI. unfold verifyDeviceState_resume.
  destruct r as [[response|]|e];
    [|apply (Inv_frame w); [reflexivity|reflexivity|reflexivity|exact HI]
     |apply (Inv_frame w); [reflexivity|reflexivity|reflexivity|exact HI]].
  assert (Inv (snd (verify_temperature now d (data response) w))) as H1.
  { unfold verify_temperature.
    destruct (deviceStates (this w) !! d) as [ds|]; [|exact HI].
    destruct (targetTemperatureC ds); [|exact HI].
    destruct (temperature_mismatch ds (data response)); [|exact HI].
    apply enqueue_Inv.
    apply (Inv_frame w); [reflexivity|reflexivity|reflexivity|exact HI]. }
  destruct (verify_temperature now d (data response) w) as [m1 w1]. cbn [snd] in H1.
  assert (Inv (snd (verify_state now d (data response) w1))) as H2.
  { unfold verify_state.
    destruct (deviceStates (this w1) !! d) as [ds|]; [|exact H1].
    destruct (targetState ds); [|exact H1].
    destruct (state_mismatch ds (data response)); [|exact H1].
    apply enqueue_Inv.
    apply (Inv_frame w1); [reflexivity|reflexivity|reflexivity|exact H1]. }
  destruct (verify_state now d (data response) w1) as [m2 w2]. cbn [snd] in H2.
  destruct (m1 || m2); [exact H2|].
  apply (Inv_frame w2); [reflexivity|reflexivity|reflexivity|exact H2].
Qed.

Lemma step_Inv w e : Inv w -> Inv (step w e).
Proof.
  intros HI. destruct e; cbn.
  - apply (Inv_frame w); [reflexivity|reflexivity|reflexivity|exact HI].
  - apply enqueue_Inv, HI.
  - apply on_interval_elapsed_Inv, HI.
  - apply on_call_settled_Inv, HI.
  - apply on_backoff_elapsed_Inv, HI.
  - apply on_immediate_Inv, HI.
  - unfold on_verification_timer. destruct (find _ _); [|exact HI].
    apply verifyDeviceState_start_Inv.
    apply (Inv_frame w); [reflexivity|reflexivity|reflexivity|exact HI].
  - unfold on_refresh_settled. destruct (bool_decide _); [|exact HI].
    apply verifyDeviceState_resume_Inv.
    apply (Inv_frame w); [reflexivity|reflexivity|reflexivity|exact HI].
Qed.

Lemma run_Inv es w : Inv w -> Inv (run es w).
Proof.
  revert w. induction es as [|e es IH]; intros w HI; [exact HI|].
  cbn. apply IH, step_Inv, HI.
Qed.

Lemma init_Inv i m v : Inv (init (new i m v)).
Proof.
  split; cbn; try constructor; unfold one_runner; cbn; tauto.
Qed.

(** *** Verification timers *)

Lemma timers_have_state_frame w w' :
  timers w' = timers w -> deviceStates (this w') = deviceStates (this w) ->
  timers_have_state w -> timers_have_state w'.
Proof. unfold timers_have_state. intros -> ->. auto. Qed.

Lemma timers_have_state_insert (ts : list Timer) (m : gmap string DeviceDesiredState) d st :
  Forall (fun tm => is_Some (m !! timer_device tm)) ts ->
  Forall (fun tm => is_Some (<[d := st]> m !! timer_device tm)) ts.
Proof.
  intros H. eapply Forall_impl; [exact H|].
  intros tm Htm. cbn. rewrite lookup_insert_is_Some.
  destruct (decide (d = timer_device tm)); auto.
Qed.

Lemma Forall_clearTimeout (P : Timer -> Prop) tid ts :
  Forall P ts -> Forall P (clearTimeout tid ts).
Proof.
  rewrite !Forall_forall. intros H x Hx. unfold clearTimeout in Hx.
  apply list_elem_of_filter in Hx as [_ Hx]. apply H, Hx.
Qed.

Lemma sendRequest_loop_timers now item r w :
  timers (sendRequest_loop now item r w) = timers w.
Proof. unfold sendRequest_loop. destruct (r <? maxRetries (this w)); reflexivity. Qed.

Lemma sendRequest_loop_deviceStates now item r w :
  deviceStates (this (sendRequest_loop now item r w)) = deviceStates (this w).
Proof. rewrite sendRequest_loop_this. reflexivity. Qed.

Lemma processQueue_dispatch_timers now w :
  timers (processQueue_dispatch now w) = timers w.
Proof.
  unfold processQueue_dispatch. destruct (getOldestItem (this w)); [|reflexivity].
  rewrite sendRequest_loop_timers. reflexivity.
Qed.

Lemma processQueue_timers now w : timers (processQueue now w) = timers w.
Proof.
  unfold processQueue. destruct (length (queue (this w)) =? 0)%nat; [reflexivity|].
  destruct (0 <? _); [reflexivity|].
  rewrite processQueue_dispatch_timers. reflexivity.
Qed.

Lemma enqueue_timers_have_state now d ty v w :
  timers_have_state w -> timers_have_state (enqueue now d ty v w).
Proof.
  intros Hw. unfold enqueue.
  set (w3 := add_log _ (with_this _ _)).
  assert (timers_have_state w3) as H3.
  { apply (timers_have_state_frame w); [| |exact Hw];
      subst w3; destruct (map_has _ _); reflexivity. }
  set (w4 := updateDesiredState now d ty v w3).
  assert (timers_have_state w4 /\ is_Some (deviceStates (this w4) !! d)) as [H4 Hd].
  { subst w4. unfold updateDesiredState, timers_have_state.
    cbn [this with_this deviceStates set_deviceStates timers]. split.
    - apply timers_have_state_insert, H3.
    - rewrite lookup_insert_eq. eauto. }
  assert (timers_have_state (scheduleVerification now d w4)) as H5.
  { unfold scheduleVerification. destruct Hd as [st Hst]. rewrite Hst.
    unfold timers_have_state.
    cbn [this with_this deviceStates set_deviceStates timers set_timers].
    apply timers_have_state_insert. apply Forall_app. split.
    - destruct (verificationTimerId st); [|exact H4].
      apply Forall_clearTimeout, H4.
    - constructor; [|constructor]. cbn [timer_device]. rewrite Hst. eauto. }
  destruct (processing (this (scheduleVerification now d w4))); [exact H5|].
  apply (timers_have_state_frame (scheduleVerification now d w4));
    [apply processQueue_timers|apply processQueue_deviceStates|exact H5].
Qed.

Lemma verifyDeviceState_resume_timers_have_state now d r w :
  timers_have_state w -> timers_have_state (verifyDeviceState_resume now d r w).
Proof.
  intros Hw. unfold verifyDeviceState_resume.
  destruct r as [[response|]|e]; [|exact Hw|exact Hw].
  assert (timers_have_state (snd (verify_temperature now d (data response) w))) as H1.
  { unfold verify_temperature.
    destruct (deviceStates (this w) !! d) as [ds|]; [|exact Hw].
    destruct (targetTemperatureC ds); [|exact Hw].
    destruct (temperature_mismatch ds (data response)); [|exact Hw].
    apply enqueue_timers_have_state. exact Hw. }
  destruct (verify_temperature now d (data response) w) as [m1 w1]. cbn [snd] in H1.
  assert (timers_have_state (snd (verify_state now d (data response) w1))) as H2.
  { unfold verify_state.
    destruct (deviceStates (this w1) !! d) as [ds|]; [|exact H1].
    destruct (targetState ds); [|exact H1].
    destruct (state_mismatch ds (data response)); [|exact H1].
    apply enqueue_timers_have_state. exact H1. }
  destruct (verify_state now d (data response) w1) as [m2 w2]. cbn [snd] in H2.
  destruct (m1 || m2); exact H2.
Qed.

Lemma step_timers_have_state w e : timers_have_state w -> timers_have_state (step w e).
Proof.
  intros Hw. destruct e; cbn [step].
  - exact Hw.
  - apply enqueue_timers_have_state, Hw.
  - unfold on_interval_elapsed. destruct (runner w); try exact Hw.
    apply (timers_have_state_frame w);
      [apply processQueue_dispatch_timers|apply processQueue_dispatch_deviceStates|exact Hw].
  - unfold on_call_settled. destruct (runner w); try exact Hw.
    destruct ok; [exact Hw|].
    destruct (_ <? _); [exact Hw|].
    eapply timers_have_state_frame;
      [apply sendRequest_loop_timers|apply sendRequest_loop_deviceStates|exact Hw].
  - unfold on_backoff_elapsed. destruct (runner w); try exact Hw.
    apply (timers_have_state_frame w);
      [apply sendRequest_loop_timers|apply sendRequest_loop_deviceStates|exact Hw].
  - unfold on_immediate. destruct (runner w); try exact Hw.
    apply (timers_have_state_frame w);
      [apply processQueue_timers|apply processQueue_deviceStates|exact Hw].
  - unfold on_verification_timer. destruct (find _ _); [|exact Hw].
    assert (timers_have_state (set_timers (clearTimeout tid (timers w)) (nextTimerId w) w))
      as H1.
    { unfold timers_have_state. cbn [timers set_timers this].
      apply Forall_clearTimeout, Hw. }
    revert H1. generalize (set_timers (clearTimeout tid (timers w)) (nextTimerId w) w).
    intros w1 H1. unfold verifyDeviceState_start.
    destruct (deviceStates (this w1) !! timer_device t0) as [ds|]; [|exact H1].
    destruct (cachesById (this w1) !! timer_device t0);
      unfold timers_have_state;
      cbn [this with_this deviceStates set_deviceStates timers add_log
           set_verifying add_refreshed];
      apply timers_have_state_insert, H1.
  - unfold on_refresh_settled. destruct (bool_decide _); [|exact Hw].
    apply verifyDeviceState_resume_timers_have_state. exact Hw.
Qed.

(** A verification that a timer starts finds the desired state of its
    device. *)
Lemma run_timers_have_state es w :
  timers_have_state w -> timers_have_state (run es w).
Proof.
  revert w. induction es as [|e es IH]; intros w Hw; [exact Hw|].
  cbn. apply IH, step_timers_have_state, Hw.
Qed.

Lemma scheduled_verification_has_desired_state es i m v tm :
  tm ∈ timers (run es (init (new i m v))) ->
  is_Some (deviceStates (this (run es (init (new i m v)))) !! timer_device tm).
Proof.
  assert (timers_have_state (run es (init (new i m v)))) as H
    by (apply run_timers_have_state; constructor).
  unfold timers_have_state in H. rewrite Forall_forall in H. apply H.
Qed.

(** *** C6: verification *)

Lemma state_of_value_encodes s :
  state_of_value (match s with standby => 0%float | active => 1%float end) = s.
Proof. destruct s; reflexivity. Qed.







(** *** C3: retries *)

Lemma retry_delays_app l1 l2 : retry_delays (l1 ++ l2) = retry_delays l1 ++ retry_delays l2.
Proof. unfold retry_delays. apply omap_app. Qed.

Lemma on_call_failed_retry now item r w :
  runner w = Sending item r -> r + 1 < maxRetries (this w) ->
  on_call_settled now false w
  = set_runner (BackingOff item (r + 1) now (backoffMs (r + 1)))
      (add_log (debug_retrying (backoffMs (r + 1)))
         (add_log (error_request_failed (r + 1) (maxRetries (this w))) w)).
Proof.
  intros Hr Hlt. unfold on_call_settled. rewrite Hr.
  destruct (Z.ltb_spec (r + 1) (maxRetries (this w))); [reflexivity|lia].
Qed.

Lemma on_call_failed_last now item r w :
  runner w = Sending item r -> maxRetries (this w) <= r + 1 ->
  on_call_settled now false w
  = set_runner Rescheduled
      (add_log (error_processing (item_key item) item (maxRetries (this w)))
         (add_log (error_request_failed (r + 1) (maxRetries (this w))) w)).
Proof.
  intros Hr Hge. unfold on_call_settled. rewrite Hr.
  destruct (Z.ltb_spec (r + 1) (maxRetries (this w))); [lia|].
  unfold sendRequest_loop. cbn [this add_log].
  destruct (Z.ltb_spec (r + 1) (maxRetries (this w))); [lia|reflexivity].
Qed.

Lemma on_backoff_elapsed_retry now item r since d w :
  runner w = BackingOff item r since d -> r < maxRetries (this w) ->
  on_backoff_elapsed now w
  = set_runner (Sending item r)
      (add_sent now r (gateway_call item) (add_log (debug_processing item) w)).
Proof.
  intros Hr Hlt. unfold on_backoff_elapsed. rewrite Hr. unfold sendRequest_loop.
  destruct (Z.ltb_spec r (maxRetries (this w))); [reflexivity|lia].
Qed.

Lemma failures_run k : forall now r item w,
  runner w = Sending item r ->
  maxRetries (this w) = r + 1 + Z.of_nat k ->
  let w' := run (failures k now r) w in
  runner w' = Rescheduled
  /\ this w' = this w
  /\ snd <$> sent w' = (snd <$> sent w) ++ replicate k (gateway_call item)
  /\ retry_delays (log w') = retry_delays (log w) ++ delays_from k r
  /\ last (log w') = Some (error_processing (item_key item) item (maxRetries (this w))).
Proof.
  induction k as [|k IH]; intros now r item w Hr HM.
  - cbn [failures run fold_left step].
    rewrite (on_call_failed_last _ _ _ _ Hr) by lia.
    cbn [runner set_runner this add_log sent log].
    split_and!; try reflexivity.
    + rewrite app_nil_r. reflexivity.
    + rewrite !retry_delays_app. cbn. rewrite !app_nil_r. reflexivity.
    + rewrite last_snoc. reflexivity.
  - cbn [failures run fold_left step].
    rewrite (on_call_failed_retry _ _ _ _ Hr) by lia.
    set (w1 := set_runner _ _).
    assert (runner w1 = BackingOff item (r + 1) now (backoffMs (r + 1))) as Hr1
      by reflexivity.
    assert (r + 1 < maxRetries (this w1)) as HM1
      by (change (maxRetries (this w1)) with (maxRetries (this w)); lia).
    rewrite (on_backoff_elapsed_retry _ _ _ _ _ _ Hr1 HM1).
    set (w2 := set_runner _ _).
    assert (runner w2 = Sending item (r + 1)) as Hr2 by reflexivity.
    assert (maxRetries (this w2) = r + 1 + 1 + Z.of_nat k) as HM2
      by (change (maxRetries (this w2)) with (maxRetries (this w)); lia).
    destruct (IH (now + backoffMs (r + 1)) (r + 1) item w2 Hr2 HM2)
      as (H1 & H2 & H3 & H4 & H5).
    change (fold_left step (failures k (now + backoffMs (r + 1)) (r + 1)) w2)
      with (run (failures k (now + backoffMs (r + 1)) (r + 1)) w2).
    split_and!.
    + exact H1.
    + rewrite H2. reflexivity.
    + rewrite H3. subst w2 w1. cbn [sent add_sent set_runner add_log].
      rewrite fmap_app. cbn. rewrite <- app_assoc. reflexivity.
    + rewrite H4. subst w2 w1. cbn [log add_sent set_runner add_log].
      rewrite !retry_delays_app. cbn. rewrite !app_nil_r, <- app_assoc. reflexivity.
    + rewrite H5. reflexivity.
Qed.

Lemma delays_from_lookup k : forall r i,
  (i < k)%nat -> delays_from k r !! i = Some (backoffMs (r + 1 + Z.of_nat i)).
Proof.
  induction k as [|k IH]; intros r i Hi; [lia|].
  destruct i as [|i]; cbn.
  - do 2 f_equal. lia.
  - rewrite IH by lia. do 2 f_equal. lia.
Qed.

Lemma processQueue_dispatch_removes now w item :
  getOldestItem (this w) = Some item ->
  map_get (item_key item) (queue (this (processQueue_dispatch now w))) = None.
Proof.
  intros H. unfold processQueue_dispatch. rewrite H.
  rewrite sendRequest_loop_this. apply map_get_delete_eq.
Qed.

(** The counterexample to C3 as stated: with the default three attempts
    the first retry comes 2 s after the first failure and the second 4 s
    after the second; no retry is made after 1 s. *)
Lemma first_retry_waits_two_seconds :
  let w := run (EEnqueue 5000 "dock" temperature 20 :: failures 2 5010 0)
               (init (new None None None)) in
  retry_delays (log w) = [2000; 4000]
  /\ retry_delays (log w) !! 0%nat <> Some 1000
  /\ (fun x => fst (fst x)) <$> sent w = [5000; 7010; 11010].
Proof.
  intros w.
  assert (retry_delays (log w) = [2000; 4000]) as H by (vm_compute; reflexivity).
  split_and!; [exact H|rewrite H; discriminate|vm_compute; reflexivity].
Qed.

(** C3, amended.  When the gateway call of a dispatched item keeps failing,
    [sendRequest] makes [maxRetries] attempts in all (3 by default): the
    first one and [maxRetries - 1] retries.  The retry that follows the
    [i]-th failure waits [min(1000 * 2^i, 10000)] ms: 2 s, 4 s, 8 s, then
    10 s.  After the last failure the error is logged by [processQueue],
    the loop asks for its next round, and the queue object is as it was:
    the item, taken out of the queue when it was dispatched, is not put
    back. *)
Theorem failed_write_retries_then_gives_up (k : nat) (now : Z) (item : QueueItem)
    (w : World) :
  runner w = Sending item 0 ->
  maxRetries (this w) = Z.of_nat (S k) ->
  let w' := run (failures k now 0) w in
  runner w' = Rescheduled
  /\ this w' = this w
  /\ snd <$> sent w' = (snd <$> sent w) ++ replicate k (gateway_call item)
  /\ retry_delays (log w') = retry_delays (log w) ++ delays_from k 0
  /\ (forall i, (i < k)%nat ->
        delays_from k 0 !! i = Some (Z.min (1000 * 2 ^ Z.of_nat (S i)) 10000))
  /\ last (log w') = Some (error_processing (item_key item) item (maxRetries (this w)))
  /\ (forall t w0 x, getOldestItem (this w0) = Some x ->
        map_get (item_key x) (queue (this (processQueue_dispatch t w0))) = None)
  /\ maxRetries (new None None None) = 3.
Proof.
  intros Hr HM w'.
  assert (maxRetries (this w) = 0 + 1 + Z.of_nat k) as HM' by lia.
  destruct (failures_run k now 0 item w Hr HM') as (H1 & H2 & H3 & H4 & H5).
  split_and!; try assumption.
  - intros i Hi. rewrite delays_from_lookup by exact Hi.
    unfold backoffMs. replace (0 + 1 + Z.of_nat i) with (Z.of_nat (S i)) by lia.
    reflexivity.
  - intros t w0 x. apply processQueue_dispatch_removes.
  - reflexivity.
Qed.

Lemma failed_write_retries_then_gives_up_witness :
  let w := enqueue 5000 "dock" temperature 20 (init (new None None None)) in
  let item := {| id := "dock"; type := temperature; value := 20; timestamp := 5000 |} in
  runner w = Sending item 0
  /\ maxRetries (this w) = Z.of_nat 3
  /\ runner (run (failures 2 5010 0) w) = Rescheduled
  /\ queue (this (run (failures 2 5010 0) w)) = []
  /\ retry_delays (log (run (failures 2 5010 0) w)) = [2000; 4000].
Proof.
  intros w item.
  assert (runner w = Sending item 0) as Hr by (vm_compute; reflexivity).
  assert (maxRetries (this w) = Z.of_nat 3) as HM by reflexivity.
  pose proof (failed_write_retries_then_gives_up 2 5010 item w Hr HM) as H.
  cbv zeta in H. destruct H as (H1 & H2 & _ & H4 & _).
  split_and!; [exact Hr|exact HM|exact H1|rewrite H2; reflexivity|].
  rewrite H4. vm_compute. reflexivity.
Defined.

(** *** C4: the interval between dispatches *)

(** C4, evaluated where it fails.  With an interval of 10 s and three
    attempts: the write for device a is
    dispatched at 10000 and its three attempts (at 10000, 12050 and 16050)
    fail; the write for device b is then dispatched at once, at 16050,
    while [lastProcessTime] is still 0. *)
Theorem exhausted_dispatch_does_not_hold_the_next :
  let w := run (EEnqueue 10000 "a" temperature 20
                :: EEnqueue 10001 "b" temperature 21
                :: failures 2 10050 0 ++ [EImmediate 16050])
               (init (new (Some 10000) None None)) in
  dispatches (sent w)
  = [(10000, setTemperatureFahrenheit "a" 68); (16050, setTemperatureFahrenheit "b" 69)]
  /\ (fun x => fst (fst x)) <$> sent w = [10000; 12050; 16050; 16050]
  /\ intervalMs (this w) = 10000
  /\ lastProcessTime (this w) = 0
  /\ 16050 - 10000 < intervalMs (this w).
Proof. vm_compute. split_and!; reflexivity. Qed.

(** *** C10: one pending item per key, last write wins *)

Lemma dispatches_app s1 s2 : dispatches (s1 ++ s2) = dispatches s1 ++ dispatches s2.
Proof. unfold dispatches. apply omap_app. Qed.

Lemma progress_idle w w1 :
  runner w <> Idle ->
  maxRetries (this w1) = maxRetries (this w) ->
  queue (this w1) = queue (this w) -> sent w1 = sent w ->
  (phase (maxRetries (this w)) (runner w1) < phase (maxRetries (this w)) (runner w))%nat ->
  progress w w1.
Proof.
  intros Hr HM Hq Hs Hph. unfold progress, budget. rewrite HM, Hq, Hs.
  split_and!; [reflexivity|lia|].
  exists [], []. rewrite app_nil_r. split_and!; reflexivity.
Qed.

Lemma dispatch_progress now w :
  NoDup (map_keys (queue (this w))) -> keyed (queue (this w)) ->
  0 < maxRetries (this w) ->
  (1 <= phase (maxRetries (this w)) (runner w))%nat ->
  progress w (processQueue_dispatch now w).
Proof.
  intros Hq Hk HM Hph. unfold processQueue_dispatch.
  destruct (getOldestItem (this w)) as [item|] eqn:Hold.
  - pose proof (getOldestItem_keyed _ _ Hk Hold) as Hin.
    set (w1 := with_this _ w).
    destruct (sendRequest_loop_cases now item 0 w1) as [[_ ->]|[Hle _]];
      [|change (maxRetries (this w1)) with (maxRetries (this w)) in Hle; lia].
    unfold progress, budget. subst w1.
    cbn [this runner sent set_runner add_sent add_log with_this queue set_queue
         maxRetries phase].
    pose proof (length_map_delete _ _ _ Hin) as Hlen.
    split_and!; [reflexivity| |].
    + replace (maxRetries (this w) - 0) with (maxRetries (this w)) by lia.
      generalize dependent (Z.to_nat (maxRetries (this w))). intros m.
      generalize dependent (phase (maxRetries (this w)) (runner w)). intros ph Hph.
      nia.
    + exists [item], [(now, 0, gateway_call item)].
      split_and!; [reflexivity| |reflexivity].
      unfold map_values.
      rewrite (map_delete_Permutation _ _ _ Hq Hin) at 1. reflexivity.
  - apply getOldestItem_None in Hold.
    unfold progress, budget.
    cbn [this runner sent set_runner with_this queue set_processing maxRetries phase].
    rewrite Hold. cbn [length]. split_and!; [reflexivity|lia|].
    exists [], []. rewrite app_nil_r. split_and!; reflexivity.
Qed.

Lemma on_interval_elapsed_progress now w since d :
  Inv w -> 0 < maxRetries (this w) -> runner w = WaitingInterval since d ->
  progress w (on_interval_elapsed now w).
Proof.
  intros HI HM Hr. unfold on_interval_elapsed. rewrite Hr.
  apply dispatch_progress; [apply HI|apply HI|exact HM|rewrite Hr; cbn; lia].
Qed.

Lemma on_immediate_progress now w :
  Inv w -> 0 < maxRetries (this w) -> runner w = Rescheduled ->
  progress w (on_immediate now w).
Proof.
  intros HI HM Hr. unfold on_immediate. rewrite Hr. unfold processQueue.
  destruct (length (queue (this w)) =? 0)%nat eqn:Hlen.
  - apply progress_idle; [congruence|reflexivity|reflexivity|reflexivity|].
    rewrite Hr. cbn. lia.
  - destruct (0 <? _).
    + apply progress_idle; [congruence|reflexivity|reflexivity|reflexivity|].
      rewrite Hr. cbn. lia.
    + set (w1 := with_this (set_processing true) w).
      change (progress w1 (processQueue_dispatch now w1)).
      apply dispatch_progress; [apply HI|apply HI|exact HM|].
      change (runner w1) with (runner w). rewrite Hr. cbn. lia.
Qed.

Lemma on_call_settled_progress now ok w item r :
  Inv w -> runner w = Sending item r ->
  progress w (on_call_settled now ok w).
Proof.
  intros HI Hr. pose proof (inv_retries _ HI) as Hn.
  unfold runner_ok in Hn. rewrite Hr in Hn.
  unfold on_call_settled. rewrite Hr. destruct ok.
  - apply progress_idle; [congruence|reflexivity|reflexivity|reflexivity|].
    rewrite Hr. cbn. lia.
  - destruct (Z.ltb_spec (r + 1) (maxRetries (this w))).
    + apply progress_idle; [congruence|reflexivity|reflexivity|reflexivity|].
      rewrite Hr. cbn. lia.
    + set (w1 := add_log _ w).
      destruct (sendRequest_loop_cases now item (r + 1) w1) as [[Hlt _]|[_ ->]];
        [change (maxRetries (this w1)) with (maxRetries (this w)) in Hlt; lia|].
      apply progress_idle; [congruence|reflexivity|reflexivity|reflexivity|].
      rewrite Hr. cbn. lia.
Qed.

Lemma on_backoff_elapsed_progress now w item r since d :
  Inv w -> runner w = BackingOff item r since d ->
  progress w (on_backoff_elapsed now w).
Proof.
  intros HI Hr. pose proof (inv_retries _ HI) as Hn.
  unfold runner_ok in Hn. rewrite Hr in Hn.
  unfold on_backoff_elapsed. rewrite Hr.
  destruct (sendRequest_loop_cases now item r w) as [[Hlt ->]|[_ ->]].
  - unfold progress, budget.
    cbn [this runner sent set_runner add_sent add_log queue maxRetries phase].
    rewrite Hr. cbn [phase]. split_and!; [reflexivity|lia|].
    exists [], [(now, r, gateway_call item)].
    rewrite app_nil_l. split_and!; [reflexivity|reflexivity|].
    unfold dispatches. cbn. destruct (Z.eqb_spec r 0); [lia|reflexivity].
  - apply progress_idle; [congruence|reflexivity|reflexivity|reflexivity|].
    rewrite Hr. cbn. lia.
Qed.

(** Left to itself the loop drains the queue: it comes to rest with the
    queue empty, having dispatched every queued item once. *)
Lemma drive_drains fuel : forall ok latency now w,
  Inv w -> 0 < maxRetries (this w) -> (budget w <= fuel)%nat ->
  let w' := drive fuel ok latency now w in
  runner w' = Idle
  /\ queue (this w') = []
  /\ exists (L : list QueueItem) (S : list (Z * Z * GatewayCall)),
       sent w' = sent w ++ S
       /\ Permutation (map_values (queue (this w))) L
       /\ snd <$> dispatches S = gateway_call <$> L.
Proof.
  induction fuel as [|fuel IH]; intros ok latency now w HI HM Hb.
  - assert (runner w = Idle) as Hr.
    { unfold budget in Hb.
      set (x := (length _ * _)%nat) in Hb.
      destruct (runner w); cbn [phase] in Hb; [reflexivity|lia..]. }
    pose proof (inv_idle _ HI Hr) as Hq.
    cbn. split_and!; [exact Hr|exact Hq|].
    exists [], []. rewrite app_nil_r, Hq. split_and!; reflexivity.
  - assert (forall now1 w1, Inv w1 -> progress w w1 ->
              let w' := drive fuel ok latency now1 w1 in
              runner w' = Idle /\ queue (this w') = []
              /\ exists L S, sent w' = sent w ++ S
                   /\ Permutation (map_values (queue (this w))) L
                   /\ snd <$> dispatches S = gateway_call <$> L) as Hstep.
    { intros now1 w1 HI1 (HM1 & Hb1 & L1 & S1 & Hs1 & Hp1 & Hd1).
      destruct (IH ok latency now1 w1 HI1) as (Hr' & Hq' & L2 & S2 & Hs2 & Hp2 & Hd2);
        [rewrite HM1; exact HM|lia|].
      cbv zeta. split_and!; [exact Hr'|exact Hq'|].
      exists (L1 ++ L2), (S1 ++ S2). split_and!.
      - rewrite Hs2, Hs1, app_assoc. reflexivity.
      - rewrite Hp1, Hp2. reflexivity.
      - rewrite dispatches_app, !fmap_app, Hd1, Hd2. reflexivity. }
    cbn [drive]. destruct (runner w) as [|since d|item r|item r since d|] eqn:Hr.
    + pose proof (inv_idle _ HI Hr) as Hq.
      split_and!; [exact Hr|exact Hq|].
      exists [], []. rewrite app_nil_r, Hq. split_and!; reflexivity.
    + apply Hstep; [apply on_interval_elapsed_Inv, HI|].
      eapply on_interval_elapsed_progress; eassumption.
    + apply Hstep; [apply on_call_settled_Inv, HI|].
      eapply on_call_settled_progress; eassumption.
    + apply Hstep; [apply on_backoff_elapsed_Inv, HI|].
      eapply on_backoff_elapsed_progress; eassumption.
    + apply Hstep; [apply on_immediate_Inv, HI|].
      eapply on_immediate_progress; eassumption.
Qed.

Lemma map_set_not_nil {V : Type} k (v : V) m : map_set k v m <> [].
Proof. destruct m as [|[k0 v0] m]; cbn; [|destruct (decide (k = k0))]; discriminate. Qed.

(** An [enqueue] that finds the loop busy, or idle with the interval not
    yet over, only writes the queue entry: nothing is sent. *)
Lemma enqueue_no_dispatch now d ty v w :
  processing (this w) = true
  \/ 0 < intervalMs (this w) - (now - lastProcessTime (this w)) ->
  let w' := enqueue now d ty v w in
  queue (this w')
  = map_set (QueueItemKey d ty)
      {| id := d; type := ty; value := v; timestamp := now |} (queue (this w))
  /\ processing (this w') = true
  /\ sent w' = sent w
  /\ maxRetries (this w') = maxRetries (this w).
Proof.
  intros Hbusy.
  destruct (enqueue_unfold now d ty v w)
    as (w5 & He & Hq5 & Hp5 & Hl5 & Hi5 & Hm5 & Hr5 & Hs5).
  cbv zeta. rewrite He. destruct (processing (this w5)) eqn:Hp.
  - split_and!; assumption.
  - unfold processQueue.
    destruct (length (queue (this w5)) =? 0)%nat eqn:Hlen.
    { apply Nat.eqb_eq, nil_length_inv in Hlen. rewrite Hq5 in Hlen.
      exfalso. exact (map_set_not_nil _ _ _ Hlen). }
    rewrite Hi5, Hl5.
    destruct (Z.ltb_spec 0 (Z.max 0 (intervalMs (this w) - (now - lastProcessTime (this w))))).
    + split_and!; [exact Hq5|reflexivity|exact Hs5|exact Hm5].
    + destruct Hbusy as [Hbusy|Hbusy]; [congruence|lia].
Qed.

Lemma enqueues_cons d ty t v tvs w :
  enqueues d ty ((t, v) :: tvs) w = enqueues d ty tvs (enqueue t d ty v w).
Proof. reflexivity. Qed.

Lemma enqueues_snoc d ty t v tvs w :
  enqueues d ty (tvs ++ [(t, v)]) w = enqueue t d ty v (enqueues d ty tvs w).
Proof. unfold enqueues. rewrite fold_left_app. reflexivity. Qed.

Lemma enqueues_no_dispatch d ty tvs : forall w,
  processing (this w) = true ->
  let w' := enqueues d ty tvs w in
  processing (this w') = true
  /\ sent w' = sent w
  /\ maxRetries (this w') = maxRetries (this w)
  /\ (forall k, k <> QueueItemKey d ty ->
        map_get k (queue (this w')) = map_get k (queue (this w)))
  /\ (tvs = [] -> queue (this w') = queue (this w)).
Proof.
  induction tvs as [|[t v] tvs IH]; intros w Hp.
  - cbn. split_and!; auto.
  - destruct (enqueue_no_dispatch t d ty v w (or_introl Hp)) as (Hq1 & Hp1 & Hs1 & Hm1).
    destruct (IH _ Hp1) as (Hp2 & Hs2 & Hm2 & Hk2 & _).
    cbv zeta. rewrite enqueues_cons.
    split_and!; [exact Hp2|congruence|congruence| |discriminate].
    intros k Hk. rewrite (Hk2 k Hk), Hq1. apply map_get_set_ne. congruence.
Qed.

(** After a run of writes to one key that starts while the loop is busy,
    or idle with the interval not yet over, the queue holds the last write
    under that key and nothing has been sent. *)
Lemma enqueues_last d ty tvs t v w :
  processing (this w) = true
  \/ 0 < intervalMs (this w) - (hd t (fst <$> tvs) - lastProcessTime (this w)) ->
  let w' := enqueues d ty (tvs ++ [(t, v)]) w in
  map_get (QueueItemKey d ty) (queue (this w'))
  = Some {| id := d; type := ty; value := v; timestamp := t |}
  /\ processing (this w') = true
  /\ sent w' = sent w
  /\ maxRetries (this w') = maxRetries (this w)
  /\ (forall k, k <> QueueItemKey d ty ->
        map_get k (queue (this w')) = map_get k (queue (this w))).
Proof.
  intros Hbusy. cbv zeta. rewrite enqueues_snoc.
  assert (processing (this (enqueues d ty tvs w)) = true
          \/ 0 < intervalMs (this (enqueues d ty tvs w))
                 - (t - lastProcessTime (this (enqueues d ty tvs w)))) as Hbusy1.
  { destruct tvs as [|[t0 v0] tvs]; [exact Hbusy|].
    left. rewrite enqueues_cons.
    destruct (enqueue_no_dispatch t0 d ty v0 w Hbusy) as (_ & Hp0 & _).
    apply (enqueues_no_dispatch d ty tvs _ Hp0). }
  assert (sent (enqueues d ty tvs w) = sent w
          /\ maxRetries (this (enqueues d ty tvs w)) = maxRetries (this w)
          /\ (forall k, k <> QueueItemKey d ty ->
                map_get k (queue (this (enqueues d ty tvs w))) = map_get k (queue (this w))))
    as (Hs0 & Hm0 & Hk0).
  { destruct tvs as [|[t0 v0] tvs]; [split_and!; reflexivity|].
    rewrite enqueues_cons.
    destruct (enqueue_no_dispatch t0 d ty v0 w Hbusy) as (Hq0 & Hp0 & Hs0 & Hm0).
    destruct (enqueues_no_dispatch d ty tvs _ Hp0) as (_ & Hs1 & Hm1 & Hk1 & _).
    split_and!; [congruence|congruence|].
    intros k Hk. rewrite (Hk1 k Hk), Hq0. apply map_get_set_ne. congruence. }
  destruct (enqueue_no_dispatch t d ty v _ Hbusy1) as (Hq & Hp & Hs & Hm).
  split_and!; [rewrite Hq; apply map_get_set_eq|exact Hp|congruence|congruence|].
  intros k Hk. rewrite Hq, map_get_set_ne by congruence. apply Hk0, Hk.
Qed.

Lemma enqueues_Inv d ty tvs : forall w, Inv w -> Inv (enqueues d ty tvs w).
Proof.
  induction tvs as [|[t v] tvs IH]; intros w HI; [exact HI|].
  rewrite enqueues_cons. apply IH, enqueue_Inv, HI.
Qed.

Lemma call_key_gateway_call item : call_key (gateway_call item) = item_key item.
Proof. unfold gateway_call, item_key. destruct (type item); reflexivity. Qed.

(** In a queue without repeated keys the items of one key are the one
    stored under it. *)
Lemma filter_key_absent k q :
  k ∉ map_keys q -> keyed q ->
  filter (fun x => item_key x = k) (map_values q) = [].
Proof.
  unfold map_keys, map_values, keyed.
  induction q as [|[k0 x0] q IH]; intros Hk0 Hk; [reflexivity|].
  rewrite fmap_cons in Hk0. rewrite fmap_cons. cbn [fst snd] in *.
  apply not_elem_of_cons in Hk0 as [Hne Hk0].
  apply Forall_cons in Hk as [H0 Hk]. cbn in H0.
  rewrite filter_cons_False by congruence. apply IH; assumption.
Qed.

Lemma filter_key_values k item q :
  NoDup (map_keys q) -> keyed q -> map_get k q = Some item ->
  filter (fun x => item_key x = k) (map_values q) = [item].
Proof.
  induction q as [|[k0 x0] q IH]; intros Hq Hk Hget; [discriminate|].
  unfold map_keys in Hq. rewrite fmap_cons in Hq. cbn [fst] in Hq.
  apply NoDup_cons in Hq as [Hk0 Hq].
  apply Forall_cons in Hk as [H0 Hk]. cbn in H0.
  unfold map_values. rewrite fmap_cons. cbn [snd map_get] in *.
  destruct (decide (k = k0)) as [->|Hne].
  - injection Hget as ->. rewrite filter_cons_True by (symmetry; exact H0).
    f_equal. apply filter_key_absent; assumption.
  - rewrite filter_cons_False by congruence. apply IH; assumption.
Qed.

Lemma filter_fmap_gateway_call k (L : list QueueItem) :
  filter (fun c => call_key c = k) (gateway_call <$> L)
  = gateway_call <$> filter (fun x => item_key x = k) L.
Proof.
  induction L as [|x L IH]; [reflexivity|].
  cbn [fmap list_fmap]. destruct (decide (item_key x = k)) as [He|Hne].
  - rewrite !filter_cons_True by (rewrite ?call_key_gateway_call; exact He).
    cbn. f_equal. exact IH.
  - rewrite !filter_cons_False by (rewrite ?call_key_gateway_call; exact Hne).
    exact IH.
Qed.

Lemma Permutation_filter_singleton (P : QueueItem -> Prop) `{!forall x, Decision (P x)}
    (l1 l2 : list QueueItem) (x : QueueItem) :
  Permutation l1 l2 -> filter P l1 = [x] -> filter P l2 = [x].
Proof.
  intros Hp Hf. symmetry. apply Permutation_singleton_l.
  rewrite <- Hf, Hp. reflexivity.
Qed.

Lemma pending_item_means_busy w k old :
  Inv w -> map_get k (queue (this w)) = Some old -> processing (this w) = true.
Proof.
  intros HI Hget. apply Inv_processing; [exact HI|].
  intros Hidle. rewrite (inv_idle _ HI Hidle) in Hget. discriminate.
Qed.

(** C10.  In every state the queue reaches, no key occurs twice in the
    queue, every item stands under the key of its device and field, and a
    key stands for one device and one field.  [enqueue] for a key that has
    a pending item puts the new value in its place: same keys, nothing
    sent.  And after a run of writes to one key, made while nothing is
    dispatched in between (the loop is busy, or idle with the interval not
    yet over), the loop left to itself drains the queue and opens exactly
    one dispatch for that key, which carries the last value written. *)
Theorem queue_keeps_last_write :
  (forall es i m v d1 t1 d2 t2,
      let w := run es (init (new i m v)) in
      NoDup (map_keys (queue (this w)))
      /\ keyed (queue (this w))
      /\ (QueueItemKey d1 t1 = QueueItemKey d2 t2 -> d1 = d2 /\ t1 = t2))
  /\ (forall es i m v now d ty x old,
      let w := run es (init (new i m v)) in
      map_get (QueueItemKey d ty) (queue (this w)) = Some old ->
      let w' := enqueue now d ty x w in
      map_get (QueueItemKey d ty) (queue (this w'))
      = Some {| id := d; type := ty; value := x; timestamp := now |}
      /\ map_keys (queue (this w')) = map_keys (queue (this w))
      /\ (forall k, k <> QueueItemKey d ty ->
            map_get k (queue (this w')) = map_get k (queue (this w)))
      /\ sent w' = sent w)
  /\ (forall es i m v d ty tvs t x fuel ok latency now,
      let w := run es (init (new i m v)) in
      0 < maxRetries (this w) ->
      processing (this w) = true
      \/ 0 < intervalMs (this w) - (hd t (fst <$> tvs) - lastProcessTime (this w)) ->
      let w1 := enqueues d ty (tvs ++ [(t, x)]) w in
      (budget w1 <= fuel)%nat ->
      let w2 := drive fuel ok latency now w1 in
      sent w1 = sent w
      /\ runner w2 = Idle
      /\ queue (this w2) = []
      /\ exists S,
           sent w2 = sent w1 ++ S
           /\ filter (fun c => call_key c = QueueItemKey d ty) (snd <$> dispatches S)
              = [gateway_call {| id := d; type := ty; value := x; timestamp := t |}]).
Proof.
  split_and!.
  - intros es i m v d1 t1 d2 t2 w.
    pose proof (run_Inv es _ (init_Inv i m v)) as HI.
    split_and!; [apply HI|apply HI|apply QueueItemKey_inj].
  - intros es i m v now d ty x old w Hget w'.
    pose proof (run_Inv es _ (init_Inv i m v)) as HI.
    pose proof (pending_item_means_busy _ _ _ HI Hget) as Hp.
    destruct (enqueue_no_dispatch now d ty x w (or_introl Hp)) as (Hq & _ & Hs & _).
    subst w'. rewrite Hq. split_and!.
    + apply map_get_set_eq.
    + rewrite map_keys_set. unfold map_has. fold w. rewrite Hget. reflexivity.
    + intros k Hk. apply map_get_set_ne. congruence.
    + exact Hs.
  - intros es i m v d ty tvs t x fuel ok latency now w HM Hbusy w1 Hfuel w2.
    pose proof (run_Inv es _ (init_Inv i m v)) as HI.
    destruct (enqueues_last d ty tvs t x w Hbusy) as (Hget & Hp & Hs & Hm & _).
    fold w1 in Hget, Hp, Hs, Hm.
    assert (Inv w1) as HI1 by (apply enqueues_Inv, HI).
    destruct (drive_drains fuel ok latency now w1 HI1) as (Hr & Hq & L & S & HS & HL & Hd);
      [rewrite Hm; exact HM|exact Hfuel|].
    fold w2 in Hr, Hq, HS.
    split_and!; [exact Hs|exact Hr|exact Hq|].
    exists S. split; [exact HS|].
    rewrite Hd, filter_fmap_gateway_call.
    rewrite (Permutation_filter_singleton _ _ _ _ HL
               (filter_key_values _ _ _ (inv_nodup _ HI1) (inv_keyed _ HI1) Hget)).
    reflexivity.
Qed.

(** While the write for device a waits for the interval, 20 and then 22
    are written for the dock: one call for the dock follows, with 22 C,
    which is 71 F. *)
Lemma queue_keeps_last_write_witness :
  let w := run [EEnqueue 1000 "a" temperature 18] (init (new None None None)) in
  let w1 := enqueues "dock" temperature ([(1100, 20%float)] ++ [(1200, 22%float)]) w in
  let w2 := drive 30 (fun _ _ => true) 50 1200 w1 in
  0 < maxRetries (this w)
  /\ processing (this w) = true
  /\ (budget w1 <= 30)%nat
  /\ runner w2 = Idle
  /\ snd <$> sent w2
     = [setTemperatureFahrenheit "a" 64; setTemperatureFahrenheit "dock" 71].
Proof.
  intros w w1 w2.
  assert (0 < maxRetries (this w)) as HM by reflexivity.
  assert (processing (this w) = true) as Hp by reflexivity.
  assert (budget w1 <= 30)%nat as Hfuel by (vm_compute; lia).
  destruct queue_keeps_last_write as (_ & _ & H).
  destruct (H [EEnqueue 1000 "a" temperature 18] None None None "dock" temperature
              [(1100, 20%float)] 1200 22%float 30%nat (fun _ _ => true) 50 1200
              HM (or_introl Hp) Hfuel) as (_ & Hr & _).
  split_and!; [exact HM|exact Hp|exact Hfuel|exact Hr|vm_compute; reflexivity].
Defined.

(** *** The oldest item first, and the interval after a success *)

(** [getOldestItem] returns a queued item, and none in the queue has a
    smaller timestamp; it returns nothing only for an empty queue. *)
Theorem getOldestItem_is_oldest (a : t) :
  (forall item, getOldestItem a = Some item ->
     item ∈ map_values (queue a)
     /\ forall x, x ∈ map_values (queue a) -> timestamp item <= timestamp x)
  /\ (getOldestItem a = None -> queue a = []).
Proof.
  split.
  - intros item H. split; [|intros x Hx; eapply getOldestItem_min; eassumption].
    apply getOldestItem_elem, H.
  - apply getOldestItem_None.
Qed.

Lemma processQueue_dispatch_sent now w :
  exists S, sent (processQueue_dispatch now w) = sent w ++ S
            /\ Forall (fun x => fst (fst x) = now) S.
Proof.
  unfold processQueue_dispatch. destruct (getOldestItem (this w)) as [item|].
  - set (w1 := with_this _ w).
    destruct (sendRequest_loop_cases now item 0 w1) as [[_ ->]|[_ ->]].
    + exists [(now, 0, gateway_call item)]. split; [reflexivity|].
      constructor; [reflexivity|constructor].
    + exists []. rewrite app_nil_r. split; [reflexivity|constructor].
  - exists []. rewrite app_nil_r. split; [reflexivity|constructor].
Qed.

(** After a gateway call that succeeded at time [c], the next round of the
    loop sends nothing before [c + intervalMs]: it either dispatches at a
    time that is already that late, or waits until exactly then. *)
Theorem next_dispatch_waits_after_success (c now : Z) (item : QueueItem) (r : Z)
    (w : World) :
  runner w = Sending item r ->
  let w1 := on_call_settled c true w in
  let w2 := on_immediate now w1 in
  lastProcessTime (this w1) = c
  /\ runner w1 = Rescheduled
  /\ (exists S, sent w2 = sent w ++ S
                /\ Forall (fun x => c + intervalMs (this w) <= fst (fst x)) S)
  /\ (forall since d, runner w2 = WaitingInterval since d ->
        since + d = c + intervalMs (this w)
        /\ forall now', since + d <= now' ->
             exists S, sent (on_interval_elapsed now' w2) = sent w2 ++ S
                       /\ Forall (fun x => c + intervalMs (this w) <= fst (fst x)) S).
Proof.
  intros Hr w1 w2.
  assert (w1 = set_runner Rescheduled
                 (with_this (set_lastProcessTime c) (add_log (info_of item) w))) as Hw1
    by (subst w1; unfold on_call_settled; rewrite Hr; reflexivity).
  assert (w2 = processQueue now w1) as Hw2
    by (subst w2; unfold on_immediate; rewrite Hw1; reflexivity).
  split; [rewrite Hw1; reflexivity|]. split; [rewrite Hw1; reflexivity|].
  assert (sent w1 = sent w) as Hs1 by (rewrite Hw1; reflexivity).
  assert (intervalMs (this w1) = intervalMs (this w)) as Hi1 by (rewrite Hw1; reflexivity).
  assert (lastProcessTime (this w1) = c) as Hl1 by (rewrite Hw1; reflexivity).
  rewrite Hw2. unfold processQueue. rewrite Hi1, Hl1.
  destruct (length (queue (this w1)) =? 0)%nat.
  { split.
    - exists []. rewrite app_nil_r. split; [exact Hs1|constructor].
    - intros since d Hrun. discriminate Hrun. }
  destruct (Z.ltb_spec 0 (Z.max 0 (intervalMs (this w) - (now - c)))) as [Hwait|Hgo].
  - split.
    + exists []. rewrite app_nil_r. split; [exact Hs1|constructor].
    + intros since d Hrun. cbn [runner set_runner] in Hrun.
      injection Hrun as <- <-. split; [lia|].
      intros now' Hnow'. unfold on_interval_elapsed. cbn [runner set_runner].
      destruct (processQueue_dispatch_sent now'
                  (set_runner (WaitingInterval now (Z.max 0 (intervalMs (this w) - (now - c))))
                     (with_this (set_processing true) w1))) as (S & HS & Ht).
      exists S. split; [exact HS|].
      eapply Forall_impl; [exact Ht|]. cbn. intros x ->. lia.
  - destruct (processQueue_dispatch_sent now (with_this (set_processing true) w1))
      as (S & HS & Ht).
    split.
    + exists S. split; [rewrite HS; cbn [sent with_this]; rewrite Hs1; reflexivity|].
      eapply Forall_impl; [exact Ht|]. cbn. intros x ->. lia.
    + intros since d Hrun. exfalso.
      revert Hrun. unfold processQueue_dispatch.
      destruct (getOldestItem _) as [x|]; [|discriminate].
      set (w3 := with_this _ _).
      destruct (sendRequest_loop_runner now x 0 w3) as [-> | ->]; discriminate.
Qed.

Lemma next_dispatch_waits_after_success_witness :
  let w := run [EEnqueue 5000 "a" temperature 20; EEnqueue 5001 "b" temperature 21]
               (init (new None None None)) in
  let item := {| id := "a"; type := temperature; value := 20; timestamp := 5000 |} in
  runner w = Sending item 0
  /\ runner (on_immediate 5300 (on_call_settled 5300 true w)) = WaitingInterval 5300 2000
  /\ dispatches (sent (on_interval_elapsed 7300 (on_immediate 5300 (on_call_settled 5300 true w))))
     = [(5000, setTemperatureFahrenheit "a" 68); (7300, setTemperatureFahrenheit "b" 69)].
Proof.
  intros w item.
  assert (runner w = Sending item 0) as Hr by (vm_compute; reflexivity).
  pose proof (next_dispatch_waits_after_success 5300 5300 item 0 w Hr) as H.
  cbv zeta in H. destruct H as (_ & _ & _ & H).
  assert (runner (on_immediate 5300 (on_call_settled 5300 true w)) = WaitingInterval 5300 2000)
    as Hrun by (vm_compute; reflexivity).
  destruct (H 5300 2000 Hrun) as [_ _].
  split_and!; [exact Hr|exact Hrun|vm_compute; reflexivity].
Defined.

End QueueFacts.

(** * Further properties of the write queue *)

Module QueueMoreFacts.
Import ApiQueue QueueAux QueueMoreAux QueueFacts.

(** *** The loop runs while the queue holds an item *)

(** In every state the queue reaches: [processing] is off exactly when no
    call of [processQueue] is suspended, the queue is then empty, and so a
    queued item always has a running loop that will take it. *)
Theorem queued_item_has_running_loop (es : list Event) (i m v : option Z) :
  let w := run es (init (new i m v)) in
  (processing (this w) = false <-> runner w = Idle)
  /\ (runner w = Idle -> queue (this w) = [])
  /\ (queue (this w) <> [] -> processing (this w) = true /\ runner w <> Idle).
Proof.
  intros w. pose proof (run_Inv es _ (init_Inv i m v)) as HI. fold w in HI.
  split_and!.
  - apply (inv_runner _ HI).
  - apply (inv_idle _ HI).
  - intros Hq.
    assert (runner w <> Idle) as Hr by (intros Hr; apply Hq, (inv_idle _ HI Hr)).
    split; [apply Inv_processing; assumption|exact Hr].
Qed.

(** *** The loop takes the oldest item first *)

Lemma getOldestItem_oldest a : getOldestItem a = oldest (queue a).
Proof. reflexivity. Qed.

Lemma oldest_as_getOldestItem q :
  oldest q = getOldestItem (set_queue q (new None None None)).
Proof. reflexivity. Qed.

Lemma length_map_delete_present (q : list (string * QueueItem)) k x :
  NoDup (map_keys q) -> (k, x) ∈ q -> length q = S (length (map_delete k q)).
Proof.
  intros Hq Hin.
  rewrite (Permutation_length (map_delete_Permutation k x q Hq Hin)). reflexivity.
Qed.

Lemma dispatch_order_sorted n : forall q,
  n = length q -> NoDup (map_keys q) -> keyed q ->
  Permutation (dispatch_order n q) (map_values q) /\ by_timestamp (dispatch_order n q).
Proof.
  induction n as [|n IH]; intros q Hn Hq Hk.
  - symmetry in Hn. apply nil_length_inv in Hn. subst q.
    split; [reflexivity|constructor].
  - cbn [dispatch_order]. destruct (oldest q) as [item|] eqn:Hold.
    + rewrite oldest_as_getOldestItem in Hold.
      pose proof (getOldestItem_keyed (set_queue q (new None None None)) item Hk Hold)
        as Hin.
      cbn [queue set_queue] in Hin.
      pose proof (length_map_delete_present q _ _ Hq Hin) as Hlen.
      destruct (IH (map_delete (item_key item) q)) as [Hperm Hsorted];
        [lia|apply NoDup_map_delete, Hq|apply keyed_map_delete, Hk|].
      split.
      * rewrite Hperm. unfold map_values.
        rewrite (map_delete_Permutation _ _ _ Hq Hin) at 2. reflexivity.
      * constructor; [exact Hsorted|].
        rewrite Forall_forall. intros x Hx. rewrite Hperm in Hx.
        apply (getOldestItem_min (set_queue q (new None None None)) item x Hold).
        cbn [queue set_queue].
        apply list_elem_of_fmap in Hx as (kv & -> & Hkv).
        apply map_delete_elem in Hkv as [Hkv _].
        apply list_elem_of_fmap. exists kv. split; [reflexivity|exact Hkv].
    + rewrite oldest_as_getOldestItem in Hold. apply getOldestItem_None in Hold.
      cbn [queue set_queue] in Hold. subst q. discriminate Hn.
Qed.

Lemma refines_same w w1 S :
  queue (this w1) = queue (this w) -> sent w1 = sent w ++ S -> dispatches S = [] ->
  refines w w1.
Proof.
  intros Hq Hs Hd. exists S. split; [exact Hs|].
  unfold order. rewrite Hd, Hq. reflexivity.
Qed.

Lemma dispatch_refines now w :
  NoDup (map_keys (queue (this w))) -> keyed (queue (this w)) ->
  0 < maxRetries (this w) ->
  refines w (processQueue_dispatch now w).
Proof.
  intros Hq Hk HM. unfold processQueue_dispatch.
  destruct (getOldestItem (this w)) as [item|] eqn:Hold.
  - pose proof (getOldestItem_keyed _ _ Hk Hold) as Hin.
    pose proof (length_map_delete_present _ _ _ Hq Hin) as Hlen.
    set (w1 := with_this _ w).
    destruct (sendRequest_loop_cases now item 0 w1) as [[_ ->]|[Hle _]];
      [|change (maxRetries (this w1)) with (maxRetries (this w)) in Hle; lia].
    exists [(now, 0, gateway_call item)]. split; [reflexivity|].
    unfold order. subst w1.
    cbn [this set_runner add_sent add_log with_this queue set_queue].
    rewrite Hlen. cbn [dispatch_order].
    rewrite <- getOldestItem_oldest, Hold. reflexivity.
  - apply (refines_same _ _ []); [reflexivity|symmetry; apply app_nil_r|reflexivity].
Qed.

Lemma on_interval_elapsed_refines now w :
  Inv w -> 0 < maxRetries (this w) -> refines w (on_interval_elapsed now w).
Proof.
  intros HI HM. unfold on_interval_elapsed. destruct (runner w);
    try (apply (refines_same _ _ []); [reflexivity|symmetry; apply app_nil_r|reflexivity]).
  apply dispatch_refines; [apply HI|apply HI|exact HM].
Qed.

Lemma on_immediate_refines now w :
  Inv w -> 0 < maxRetries (this w) -> refines w (on_immediate now w).
Proof.
  intros HI HM. unfold on_immediate. destruct (runner w);
    try (apply (refines_same _ _ []); [reflexivity|symmetry; apply app_nil_r|reflexivity]).
  unfold processQueue. destruct (length (queue (this w)) =? 0)%nat;
    [apply (refines_same _ _ []); [reflexivity|symmetry; apply app_nil_r|reflexivity]|].
  destruct (0 <? _);
    [apply (refines_same _ _ []); [reflexivity|symmetry; apply app_nil_r|reflexivity]|].
  set (w1 := with_this (set_processing true) w).
  change (refines w1 (processQueue_dispatch now w1)).
  apply dispatch_refines; [apply HI|apply HI|exact HM].
Qed.

Lemma on_call_settled_refines now ok w : refines w (on_call_settled now ok w).
Proof.
  unfold on_call_settled. destruct (runner w) as [| |item r| |];
    try (apply (refines_same _ _ []); [reflexivity|symmetry; apply app_nil_r|reflexivity]).
  destruct ok;
    [apply (refines_same _ _ []); [reflexivity|symmetry; apply app_nil_r|reflexivity]|].
  destruct (Z.ltb_spec (r + 1) (maxRetries (this w)));
    [apply (refines_same _ _ []); [reflexivity|symmetry; apply app_nil_r|reflexivity]|].
  set (w1 := add_log _ w).
  destruct (sendRequest_loop_cases now item (r + 1) w1) as [[Hlt _]|[_ ->]];
    [change (maxRetries (this w1)) with (maxRetries (this w)) in Hlt; lia|].
  apply (refines_same _ _ []); [reflexivity|symmetry; apply app_nil_r|reflexivity].
Qed.

Lemma on_backoff_elapsed_refines now w : Inv w -> refines w (on_backoff_elapsed now w).
Proof.
  intros HI. pose proof (inv_retries _ HI) as Hn. unfold runner_ok in Hn.
  unfold on_backoff_elapsed. destruct (runner w) as [| | |item r since d|];
    try (apply (refines_same _ _ []); [reflexivity|symmetry; apply app_nil_r|reflexivity]).
  destruct (sendRequest_loop_cases now item r w) as [[_ ->]|[_ ->]].
  - apply (refines_same _ _ [(now, r, gateway_call item)]); [reflexivity|reflexivity|].
    unfold dispatches. cbn. destruct (Z.eqb_spec r 0); [lia|reflexivity].
  - apply (refines_same _ _ []); [reflexivity|symmetry; apply app_nil_r|reflexivity].
Qed.

Lemma drive_in_order fuel : forall ok latency now w,
  Inv w -> 0 < maxRetries (this w) -> (budget w <= fuel)%nat ->
  exists S, sent (drive fuel ok latency now w) = sent w ++ S
            /\ snd <$> dispatches S = gateway_call <$> order w.
Proof.
  induction fuel as [|fuel IH]; intros ok latency now w HI HM Hb.
  - assert (runner w = Idle) as Hr.
    { unfold budget in Hb. set (x := (length _ * _)%nat) in Hb.
      destruct (runner w); cbn [phase] in Hb; [reflexivity|lia..]. }
    exists []. cbn. rewrite app_nil_r. unfold order.
    rewrite (inv_idle _ HI Hr). split; reflexivity.
  - assert (forall now1 w1, Inv w1 -> progress w w1 -> refines w w1 ->
              exists S, sent (drive fuel ok latency now1 w1) = sent w ++ S
                        /\ snd <$> dispatches S = gateway_call <$> order w) as Hstep.
    { intros now1 w1 HI1 (HM1 & Hb1 & _) (S1 & Hs1 & Hd1).
      destruct (IH ok latency now1 w1 HI1) as (S2 & Hs2 & Hd2);
        [rewrite HM1; exact HM|lia|].
      exists (S1 ++ S2). split.
      - rewrite Hs2, Hs1, app_assoc. reflexivity.
      - rewrite dispatches_app, fmap_app, Hd2. exact Hd1. }
    cbn [drive]. destruct (runner w) as [|since d|item r|item r since d|] eqn:Hr.
    + exists []. rewrite app_nil_r. unfold order.
      rewrite (inv_idle _ HI Hr). split; reflexivity.
    + apply Hstep; [apply on_interval_elapsed_Inv, HI| |].
      * eapply on_interval_elapsed_progress; eassumption.
      * apply on_interval_elapsed_refines; assumption.
    + apply Hstep; [apply on_call_settled_Inv, HI| |].
      * eapply on_call_settled_progress; eassumption.
      * apply on_call_settled_refines.
    + apply Hstep; [apply on_backoff_elapsed_Inv, HI| |].
      * eapply on_backoff_elapsed_progress; eassumption.
      * apply on_backoff_elapsed_refines, HI.
    + apply Hstep; [apply on_immediate_Inv, HI| |].
      * eapply on_immediate_progress; eassumption.
      * apply on_immediate_refines; assumption.
Qed.

(** Left to itself from any state the queue reaches, with at least one
    attempt allowed, the loop comes to rest within [budget] steps with the
    queue empty, whatever the gateway answers.  The dispatches it opens on
    the way are those of the queued items, each once, in the order of their
    timestamps. *)
Theorem loop_drains_oldest_first (es : list Event) (i m v : option Z) (fuel : nat)
    (ok : QueueItem -> Z -> bool) (latency now : Z) :
  let w := run es (init (new i m v)) in
  0 < maxRetries (this w) ->
  (budget w <= fuel)%nat ->
  let w' := drive fuel ok latency now w in
  runner w' = Idle
  /\ queue (this w') = []
  /\ (exists S, sent w' = sent w ++ S
                /\ snd <$> dispatches S = gateway_call <$> order w)
  /\ Permutation (order w) (map_values (queue (this w)))
  /\ by_timestamp (order w).
Proof.
  intros w HM Hfuel w'.
  pose proof (run_Inv es _ (init_Inv i m v)) as HI. fold w in HI.
  destruct (drive_drains fuel ok latency now w HI HM Hfuel) as (Hr & Hq & _).
  destruct (dispatch_order_sorted (length (queue (this w))) (queue (this w)) eq_refl
              (inv_nodup _ HI) (inv_keyed _ HI)) as [Hperm Hsorted].
  split_and!; [exact Hr|exact Hq| |exact Hperm|exact Hsorted].
  apply drive_in_order; assumption.
Qed.

(** Three writes queued while the first one is being sent; the gateway
    fails the first attempt of every item. *)
Lemma loop_drains_oldest_first_witness :
  let es := [EEnqueue 5000 "a" temperature 20; EEnqueue 5003 "c" state 0;
             EEnqueue 5001 "b" temperature 21; EEnqueue 5002 "a" state 3] in
  let w := run es (init (new None None None)) in
  let w' := drive 60 (fun _ r => negb (r =? 0)) 10 5000 w in
  0 < maxRetries (this w)
  /\ (budget w <= 60)%nat
  /\ runner w' = Idle
  /\ snd <$> dispatches (sent w')
     = [setTemperatureFahrenheit "a" 68; setTemperatureFahrenheit "b" 69;
        setThermalControlStatus "a" active; setThermalControlStatus "c" standby].
Proof.
  intros es w w'.
  assert (0 < maxRetries (this w)) as HM by reflexivity.
  assert (budget w <= 60)%nat as Hfuel by (vm_compute; lia).
  destruct (loop_drains_oldest_first es None None None 60
              (fun _ r => negb (r =? 0)) 10 5000 HM Hfuel) as (Hr & _).
  split_and!; [exact HM|exact Hfuel|exact Hr|vm_compute; reflexivity].
Defined.

(** *** Verification timers are debounced *)

Lemma NoDup_fmap_inj {A B : Type} (f : A -> B) (l : list A) x y :
  NoDup (f <$> l) -> x ∈ l -> y ∈ l -> f x = f y -> x = y.
Proof.
  induction l as [|a l IH]; intros Hl Hx Hy Hf; [inversion Hx|].
  rewrite fmap_cons in Hl. apply NoDup_cons in Hl as [Ha Hl].
  apply elem_of_cons in Hx as [->|Hx]; apply elem_of_cons in Hy as [->|Hy].
  - reflexivity.
  - exfalso. apply Ha. rewrite Hf. apply list_elem_of_fmap_2, Hy.
  - exfalso. apply Ha. rewrite <- Hf. apply list_elem_of_fmap_2, Hx.
  - apply IH; assumption.
Qed.

Lemma NoDup_fmap_filter {A B : Type} (f : A -> B) (P : A -> Prop)
    `{!forall x, Decision (P x)} (l : list A) :
  NoDup (f <$> l) -> NoDup (f <$> filter P l).
Proof.
  intros Hl. eapply sublist_NoDup; [exact Hl|].
  apply fmap_sublist, sublist_filter.
Qed.

Lemma filter_ext_in {A : Type} (P Q : A -> Prop)
    `{!forall x, Decision (P x), !forall x, Decision (Q x)} (l : list A) :
  (forall x, x ∈ l -> (P x <-> Q x)) -> filter P l = filter Q l.
Proof.
  induction l as [|a l IH]; intros Hext; [reflexivity|].
  assert (filter P l = filter Q l) as Hl
    by (apply IH; intros x Hx; apply Hext, list_elem_of_further, Hx).
  pose proof (Hext a (list_elem_of_here a l)) as Hiff.
  destruct (decide (P a)) as [Ha|Ha].
  - rewrite (filter_cons_True P) by exact Ha.
    rewrite (filter_cons_True Q) by (apply Hiff, Ha).
    rewrite Hl. reflexivity.
  - rewrite (filter_cons_False P) by exact Ha.
    rewrite (filter_cons_False Q) by (intros Hq; apply Ha, Hiff, Hq).
    exact Hl.
Qed.

Lemma filter_all {A : Type} (P : A -> Prop) `{!forall x, Decision (P x)} (l : list A) :
  (forall x, x ∈ l -> P x) -> filter P l = l.
Proof.
  induction l as [|a l IH]; intros Hall; [reflexivity|].
  rewrite filter_cons_True by (apply Hall, list_elem_of_here).
  rewrite IH; [reflexivity|]. intros x Hx. apply Hall, list_elem_of_further, Hx.
Qed.

(** Under the invariant, what [scheduleVerification] keeps are the timers
    of the other devices. *)
Lemma cleared_eq d w :
  TimersInv w -> cleared d w = filter (fun tm => timer_device tm <> d) (timers w).
Proof.
  intros HT. unfold cleared.
  destruct (deviceStates (this w) !! d) as [st|] eqn:Hst; cbn.
  - destruct (verificationTimerId st) as [tid|] eqn:Htid.
    + unfold clearTimeout. apply filter_ext_in. intros tm Htm.
      destruct (tinv_owner _ HT tm Htm) as (st' & Hst' & Hid').
      destruct (tinv_live _ HT d st tid Hst Htid) as (tm0 & Htm0 & Hid0 & Hd0).
      split.
      * intros Hne Hd. rewrite Hd, Hst in Hst'. injection Hst' as <-. congruence.
      * intros Hne Hid. apply Hne. rewrite <- Hd0. f_equal.
        apply (NoDup_fmap_inj timer_id (timers w)); [apply HT|assumption..|congruence].
    + symmetry. apply filter_all. intros tm Htm Hd.
      destruct (tinv_owner _ HT tm Htm) as (st' & Hst' & Hid').
      rewrite Hd, Hst in Hst'. injection Hst' as <-. congruence.
  - symmetry. apply filter_all. intros tm Htm Hd.
    destruct (tinv_owner _ HT tm Htm) as (st' & Hst' & _). congruence.
Qed.

(** The timers, the next id and the desired states after [enqueue]. *)
Lemma enqueue_timers now d ty x w :
  let w' := enqueue now d ty x w in
  timers w'
  = cleared d w
    ++ [{| timer_id := nextTimerId w; timer_device := d; timer_since := now;
           timer_delay := verificationDelayMs (this w) |}]
  /\ nextTimerId w' = S (nextTimerId w)
  /\ exists st, deviceStates (this w') = <[d := st]> (deviceStates (this w))
                /\ verificationTimerId st = Some (nextTimerId w).
Proof.
  cbv zeta. unfold enqueue.
  set (w3 := add_log _ (with_this _ _)).
  assert (timers w3 = timers w /\ nextTimerId w3 = nextTimerId w
          /\ deviceStates (this w3) = deviceStates (this w)
          /\ verificationDelayMs (this w3) = verificationDelayMs (this w))
    as (Ht3 & Hn3 & Hs3 & Hv3)
    by (subst w3; destruct (map_has _ _); split_and!; reflexivity).
  set (w4 := updateDesiredState now d ty x w3).
  set (st4 := default {| targetTemperatureC := None; targetState := None;
                         lastModified := now; verificationTimerId := None |}
                      (deviceStates (this w) !! d)).
  assert (exists st, deviceStates (this w4) = <[d := st]> (deviceStates (this w))
                     /\ verificationTimerId st
                        = deviceStates (this w) !! d ≫= verificationTimerId)
    as (st & Hs4 & Hid4).
  { subst w4. unfold updateDesiredState.
    cbn [this with_this deviceStates set_deviceStates]. rewrite Hs3.
    eexists. split; [reflexivity|].
    destruct ty, (deviceStates (this w) !! d); reflexivity. }
  assert (timers w4 = timers w /\ nextTimerId w4 = nextTimerId w
          /\ verificationDelayMs (this w4) = verificationDelayMs (this w))
    as (Ht4 & Hn4 & Hv4) by (split_and!; assumption).
  set (w5 := scheduleVerification now d w4).
  assert (timers w5
          = cleared d w
            ++ [{| timer_id := nextTimerId w; timer_device := d; timer_since := now;
                   timer_delay := verificationDelayMs (this w) |}]
          /\ nextTimerId w5 = S (nextTimerId w)
          /\ exists st', deviceStates (this w5) = <[d := st']> (deviceStates (this w))
                         /\ verificationTimerId st' = Some (nextTimerId w)) as H5.
  { subst w5. unfold scheduleVerification. rewrite Hs4, lookup_insert_eq.
    cbn [this with_this deviceStates set_deviceStates timers set_timers nextTimerId].
    rewrite Hs4, insert_insert_eq, Ht4, Hn4, Hv4, Hid4.
    split_and!; [|reflexivity|eexists; split; reflexivity].
    unfold cleared. destruct (deviceStates (this w) !! d ≫= verificationTimerId);
      reflexivity. }
  destruct (processing (this w5)); [exact H5|].
  rewrite processQueue_timers, processQueue_deviceStates.
  destruct H5 as (H51 & H52 & H53). split_and!; [exact H51| |exact H53].
  rewrite <- H52. unfold processQueue.
  destruct (length (queue (this w5)) =? 0)%nat; [reflexivity|].
  destruct (0 <? _); [reflexivity|].
  unfold processQueue_dispatch. destruct (getOldestItem _); [|reflexivity].
  unfold sendRequest_loop. destruct (0 <? _); reflexivity.
Qed.

Lemma enqueue_TimersInv now d ty x w : TimersInv w -> TimersInv (enqueue now d ty x w).
Proof.
  intros HT. destruct (enqueue_timers now d ty x w) as (Ht & Hn & st & Hs & Hid).
  rewrite (cleared_eq d w HT) in Ht.
  split.
  - intros tm Htm. rewrite Ht in Htm. rewrite Hn.
    apply elem_of_app in Htm as [Htm|Htm].
    + apply list_elem_of_filter in Htm as [_ Htm].
      pose proof (tinv_fresh _ HT tm Htm). lia.
    + apply list_elem_of_singleton in Htm as ->. cbn. lia.
  - rewrite Ht, fmap_app. apply NoDup_app. split_and!.
    + apply NoDup_fmap_filter, HT.
    + intros tid Htid Hnew. cbn in Hnew. apply list_elem_of_singleton in Hnew as ->.
      apply list_elem_of_fmap in Htid as (tm & Heq & Htm).
      apply list_elem_of_filter in Htm as [_ Htm].
      pose proof (tinv_fresh _ HT tm Htm). lia.
    + cbn. apply NoDup_singleton.
  - intros tm Htm. rewrite Ht in Htm. rewrite Hs.
    apply elem_of_app in Htm as [Htm|Htm].
    + apply list_elem_of_filter in Htm as [Hd Htm].
      rewrite lookup_insert_ne by congruence. apply (tinv_owner _ HT), Htm.
    + apply list_elem_of_singleton in Htm as ->. cbn.
      rewrite lookup_insert_eq. eauto.
  - intros d' st' tid Hst' Htid. rewrite Hs in Hst'. rewrite Ht.
    destruct (decide (d = d')) as [<-|Hne].
    + rewrite lookup_insert_eq in Hst'. injection Hst' as <-.
      eexists. split; [apply elem_of_app; right; apply list_elem_of_singleton; reflexivity|].
      cbn. split; [congruence|reflexivity].
    + rewrite lookup_insert_ne in Hst' by exact Hne.
      destruct (tinv_live _ HT d' st' tid Hst' Htid) as (tm & Htm & Hid' & Hd').
      exists tm. split_and!; [|exact Hid'|exact Hd'].
      apply elem_of_app. left. apply list_elem_of_filter. split; [congruence|exact Htm].
Qed.

Lemma TimersInv_frame w w' :
  timers w' = timers w -> nextTimerId w' = nextTimerId w ->
  deviceStates (this w') = deviceStates (this w) ->
  TimersInv w -> TimersInv w'.
Proof.
  intros Ht Hn Hs [H1 H2 H3 H4].
  split; rewrite ?Ht, ?Hn, ?Hs; assumption.
Qed.

Lemma sendRequest_loop_nextTimerId now item r w :
  nextTimerId (sendRequest_loop now item r w) = nextTimerId w.
Proof. unfold sendRequest_loop. destruct (r <? maxRetries (this w)); reflexivity. Qed.

Lemma processQueue_dispatch_nextTimerId now w :
  nextTimerId (processQueue_dispatch now w) = nextTimerId w.
Proof.
  unfold processQueue_dispatch. destruct (getOldestItem (this w)); [|reflexivity].
  rewrite sendRequest_loop_nextTimerId. reflexivity.
Qed.

Lemma processQueue_nextTimerId now w : nextTimerId (processQueue now w) = nextTimerId w.
Proof.
  unfold processQueue. destruct (length (queue (this w)) =? 0)%nat; [reflexivity|].
  destruct (0 <? _); [reflexivity|].
  rewrite processQueue_dispatch_nextTimerId. reflexivity.
Qed.

Lemma on_verification_timer_TimersInv now tid w :
  TimersInv w -> TimersInv (on_verification_timer now tid w).
Proof.
  intros HT. unfold on_verification_timer.
  destruct (find _ (timers w)) as [tm0|] eqn:Hfind; [|exact HT].
  apply find_some in Hfind as [Hin0 Hid0].
  apply list_elem_of_In in Hin0. apply bool_decide_eq_true in Hid0.
  destruct (tinv_owner _ HT tm0 Hin0) as (st0 & Hst0 & Hstored).
  unfold verifyDeviceState_start. cbn [this set_timers]. rewrite Hst0.
  set (st1 := {| targetTemperatureC := targetTemperatureC st0;
                 targetState := targetState st0;
                 lastModified := lastModified st0;
                 verificationTimerId := None |}).
  assert (TimersInv
            (with_this (fun a => set_deviceStates
                                   (<[timer_device tm0 := st1]> (deviceStates a)) a)
               (set_timers (clearTimeout tid (timers w)) (nextTimerId w) w))) as H1.
  { split; cbn [this with_this set_timers timers nextTimerId deviceStates set_deviceStates].
    - intros tm Htm. apply list_elem_of_filter in Htm as [_ Htm].
      apply (tinv_fresh _ HT), Htm.
    - apply NoDup_fmap_filter, HT.
    - intros tm Htm. apply list_elem_of_filter in Htm as [Hne Htm].
      destruct (tinv_owner _ HT tm Htm) as (st & Hst & Hid).
      destruct (decide (timer_device tm0 = timer_device tm)) as [Heq|Hd].
      + exfalso. rewrite <- Heq, Hst0 in Hst. injection Hst as <-. congruence.
      + rewrite lookup_insert_ne by exact Hd. eauto.
    - intros d st tid' Hst Htid'.
      destruct (decide (timer_device tm0 = d)) as [<-|Hd].
      + rewrite lookup_insert_eq in Hst. injection Hst as <-. discriminate Htid'.
      + rewrite lookup_insert_ne in Hst by exact Hd.
        destruct (tinv_live _ HT d st tid' Hst Htid') as (tm & Htm & Hid & Hdev).
        exists tm. split_and!; [|exact Hid|exact Hdev].
        apply list_elem_of_filter. split; [|exact Htm].
        intros Heq. apply Hd. rewrite <- Hdev. f_equal.
        apply (NoDup_fmap_inj timer_id (timers w)); [apply HT|assumption..|congruence]. }
  destruct (cachesById _ !! _); eapply TimersInv_frame; try exact H1; reflexivity.
Qed.

Lemma verifyDeviceState_resume_TimersInv now d r w :
  TimersInv w -> TimersInv (verifyDeviceState_resume now d r w).
Proof.
  intros HT. unfold verifyDeviceState_resume.
  destruct r as [[response|]|e];
    [|eapply TimersInv_frame; try exact HT; reflexivity
     |eapply TimersInv_frame; try exact HT; reflexivity].
  assert (TimersInv (snd (verify_temperature now d (data response) w))) as H1.
  { unfold verify_temperature.
    destruct (deviceStates (this w) !! d) as [ds|]; [|exact HT].
    destruct (targetTemperatureC ds); [|exact HT].
    destruct (temperature_mismatch ds (data response)); [|exact HT].
    apply enqueue_TimersInv. eapply TimersInv_frame; try exact HT; reflexivity. }
  destruct (verify_temperature now d (data response) w) as [m1 w1]. cbn [snd] in H1.
  assert (TimersInv (snd (verify_state now d (data response) w1))) as H2.
  { unfold verify_state.
    destruct (deviceStates (this w1) !! d) as [ds|]; [|exact H1].
    destruct (targetState ds); [|exact H1].
    destruct (state_mismatch ds (data response)); [|exact H1].
    apply enqueue_TimersInv. eapply TimersInv_frame; try exact H1; reflexivity. }
  destruct (verify_state now d (data response) w1) as [m2 w2]. cbn [snd] in H2.
  destruct (m1 || m2); [exact H2|].
  eapply TimersInv_frame; try exact H2; reflexivity.
Qed.

Lemma step_TimersInv w e : TimersInv w -> TimersInv (step w e).
Proof.
  intros HT. destruct e; cbn [step].
  - eapply TimersInv_frame; try exact HT; reflexivity.
  - apply enqueue_TimersInv, HT.
  - unfold on_interval_elapsed. destruct (runner w); try exact HT.
    eapply TimersInv_frame;
      [apply processQueue_dispatch_timers|apply processQueue_dispatch_nextTimerId
      |apply processQueue_dispatch_deviceStates|exact HT].
  - unfold on_call_settled. destruct (runner w); try exact HT.
    destruct ok; [eapply TimersInv_frame; try exact HT; reflexivity|].
    destruct (_ <? _); [eapply TimersInv_frame; try exact HT; reflexivity|].
    eapply TimersInv_frame;
      [apply sendRequest_loop_timers|apply sendRequest_loop_nextTimerId
      |apply sendRequest_loop_deviceStates|].
    eapply TimersInv_frame; try exact HT; reflexivity.
  - unfold on_backoff_elapsed. destruct (runner w); try exact HT.
    eapply TimersInv_frame;
      [apply sendRequest_loop_timers|apply sendRequest_loop_nextTimerId
      |apply sendRequest_loop_deviceStates|exact HT].
  - unfold on_immediate. destruct (runner w); try exact HT.
    eapply TimersInv_frame;
      [apply processQueue_timers|apply processQueue_nextTimerId
      |apply processQueue_deviceStates|exact HT].
  - apply on_verification_timer_TimersInv, HT.
  - unfold on_refresh_settled. destruct (bool_decide _); [|exact HT].
    apply verifyDeviceState_resume_TimersInv.
    eapply TimersInv_frame; try exact HT; reflexivity.
Qed.

Lemma run_TimersInv es w : TimersInv w -> TimersInv (run es w).
Proof.
  revert w. induction es as [|e es IH]; intros w HT; [exact HT|].
  cbn. apply IH, step_TimersInv, HT.
Qed.

Lemma init_TimersInv i m v : TimersInv (init (new i m v)).
Proof.
  split; cbn.
  - intros tm Htm. inversion Htm.
  - constructor.
  - intros tm Htm. inversion Htm.
  - intros d st tid Hst. rewrite lookup_empty in Hst. discriminate.
Qed.

Lemma NoDup_all_equal {A : Type} (l : list A) :
  NoDup l -> (forall x y, x ∈ l -> y ∈ l -> x = y) -> (length l <= 1)%nat.
Proof.
  intros Hl Heq. destruct l as [|a [|b l]]; cbn; [lia|lia|].
  exfalso. apply NoDup_cons in Hl as [Ha _]. apply Ha.
  rewrite (Heq a b); [apply list_elem_of_here|apply list_elem_of_here|].
  apply list_elem_of_further, list_elem_of_here.
Qed.

(** In every state the queue reaches a device has at most one live
    verification timer.  [enqueue] for a device leaves it with exactly one,
    newly set and due [verificationDelayMs] after the call, whatever timer
    it had before; the timers of the other devices stay. *)
Theorem verification_is_debounced (es : list Event) (i m v : option Z) :
  let w := run es (init (new i m v)) in
  (forall d, (length (timers_of d w) <= 1)%nat)
  /\ (forall now d ty x,
        timers_of d (enqueue now d ty x w)
        = [{| timer_id := nextTimerId w; timer_device := d; timer_since := now;
              timer_delay := verificationDelayMs (this w) |}])
  /\ (forall now d ty x d', d' <> d ->
        timers_of d' (enqueue now d ty x w) = timers_of d' w).
Proof.
  intros w. pose proof (run_TimersInv es _ (init_TimersInv i m v)) as HT. fold w in HT.
  split_and!.
  - intros d. unfold timers_of. apply NoDup_all_equal.
    + eapply NoDup_fmap_1, NoDup_fmap_filter, HT.
    + intros x y Hx Hy.
      apply list_elem_of_filter in Hx as [Hdx Hx].
      apply list_elem_of_filter in Hy as [Hdy Hy].
      destruct (tinv_owner _ HT x Hx) as (sx & Hsx & Hix).
      destruct (tinv_owner _ HT y Hy) as (sy & Hsy & Hiy).
      apply (NoDup_fmap_inj timer_id (timers w)); [apply HT|assumption..|].
      rewrite Hdx in Hsx. rewrite Hdy, Hsx in Hsy. injection Hsy as <-. congruence.
  - intros now d ty x. unfold timers_of.
    destruct (enqueue_timers now d ty x w) as (-> & _).
    rewrite (cleared_eq d w HT), filter_app, list_filter_filter.
    rewrite (filter_ext_in _ (fun _ => False)) by (intros tm _; tauto).
    assert (filter (fun _ : Timer => False) (timers w) = []) as ->
      by (clear; induction (timers w) as [|a l IH]; [reflexivity|];
          rewrite filter_cons_False by tauto; exact IH).
    rewrite filter_cons_True by reflexivity. reflexivity.
  - intros now d ty x d' Hne. unfold timers_of.
    destruct (enqueue_timers now d ty x w) as (-> & _).
    rewrite (cleared_eq d w HT), filter_app, list_filter_filter.
    rewrite filter_cons_False by (cbn; congruence).
    rewrite filter_nil, app_nil_r.
    apply list_filter_iff. intros tm. split; [tauto|]. intros Hd. split; congruence.
Qed.

Lemma verification_is_debounced_witness :
  let w := run [EEnqueue 1000 "dock" temperature 20; EEnqueue 1500 "dock" state 0;
                EEnqueue 1600 "bed" state 3]
               (init (new None None None)) in
  timers_of "dock" w
  = [{| timer_id := 1; timer_device := "dock"; timer_since := 1500; timer_delay := 30000 |}]
  /\ (length (timers_of "dock" w) <= 1)%nat
  /\ timers_of "bed" (enqueue 1700 "dock" temperature 21 w) = timers_of "bed" w.
Proof.
  intros w.
  destruct (verification_is_debounced
              [EEnqueue 1000 "dock" temperature 20; EEnqueue 1500 "dock" state 0;
               EEnqueue 1600 "bed" state 3] None None None) as (H1 & _ & H3).
  split_and!; [vm_compute; reflexivity|apply H1|apply H3; discriminate].
Defined.

(** *** The desired targets *)

Lemma enqueue_targets now d ty x w d' :
  targets d' (enqueue now d ty x w)
  = if decide (d = d') then
      Some match ty with
           | temperature => (Some x, deviceStates (this w) !! d ≫= targetState)
           | state => (deviceStates (this w) !! d ≫= targetTemperatureC,
                       Some (state_of_value x))
           end
    else targets d' w.
Proof.
  unfold targets.
  destruct (enqueue_timers now d ty x w) as (_ & _ & st & Hs & _).
  destruct (enqueue_deviceStates now d ty x w) as (st' & Hst' & Ht & Hm).
  destruct (decide (d = d')) as [<-|Hne].
  - rewrite Hst'. cbn. rewrite Ht, Hm. destruct ty; reflexivity.
  - rewrite Hs, lookup_insert_ne by exact Hne. reflexivity.
Qed.

Lemma targets_frame w w' d :
  deviceStates (this w') = deviceStates (this w) -> targets d w' = targets d w.
Proof. unfold targets. intros ->. reflexivity. Qed.

Lemma verify_temperature_targets now d a w d' :
  targets d' (snd (verify_temperature now d a w)) = targets d' w.
Proof.
  unfold verify_temperature.
  destruct (deviceStates (this w) !! d) as [ds|] eqn:Hds; [|reflexivity].
  destruct (targetTemperatureC ds) as [t|] eqn:Ht; [|reflexivity].
  destruct (temperature_mismatch ds a); [|reflexivity].
  cbn [snd]. rewrite enqueue_targets.
  destruct (decide (d = d')) as [<-|Hne]; [|reflexivity].
  unfold targets. cbn [this add_log with_this]. rewrite Hds. cbn. rewrite Ht. reflexivity.
Qed.

Lemma verify_state_targets now d a w d' :
  targets d' (snd (verify_state now d a w)) = targets d' w.
Proof.
  unfold verify_state.
  destruct (deviceStates (this w) !! d) as [ds|] eqn:Hds; [|reflexivity].
  destruct (targetState ds) as [s|] eqn:Hs; [|reflexivity].
  destruct (state_mismatch ds a); [|reflexivity].
  cbn [snd]. rewrite enqueue_targets.
  destruct (decide (d = d')) as [<-|Hne]; [|reflexivity].
  unfold targets. cbn [this add_log with_this]. rewrite Hds. cbn. rewrite Hs.
  destruct s; reflexivity.
Qed.

Lemma verifyDeviceState_resume_targets now d r w d' :
  targets d' (verifyDeviceState_resume now d r w) = targets d' w.
Proof.
  unfold verifyDeviceState_resume.
  destruct r as [[response|]|e]; [|reflexivity|reflexivity].
  pose proof (verify_temperature_targets now d (data response) w d') as H1.
  destruct (verify_temperature now d (data response) w) as [m1 w1]. cbn [snd] in H1.
  pose proof (verify_state_targets now d (data response) w1 d') as H2.
  destruct (verify_state now d (data response) w1) as [m2 w2]. cbn [snd] in H2.
  destruct (m1 || m2); [congruence|].
  rewrite <- H1, <- H2. reflexivity.
Qed.

Lemma verifyDeviceState_start_targets now d w d' :
  targets d' (verifyDeviceState_start now d w) = targets d' w.
Proof.
  unfold verifyDeviceState_start.
  destruct (deviceStates (this w) !! d) as [ds|] eqn:Hds; [|reflexivity].
  assert (forall w1, deviceStates (this w1)
                     = <[d := {| targetTemperatureC := targetTemperatureC ds;
                                 targetState := targetState ds;
                                 lastModified := lastModified ds;
                                 verificationTimerId := None |}]>
                         (deviceStates (this w)) ->
                     targets d' w1 = targets d' w) as Hframe.
  { intros w1 H1. unfold targets. rewrite H1.
    destruct (decide (d = d')) as [<-|Hne].
    - rewrite lookup_insert_eq, Hds. reflexivity.
    - rewrite lookup_insert_ne by exact Hne. reflexivity. }
  destruct (cachesById (this w) !! d); apply Hframe; reflexivity.
Qed.

(** The targets the queue holds for a device change by [enqueue] for that
    device and by nothing else: not by the loop, not by a verification
    timer, and not by a verification, whose re-queueing writes back the
    targets it has read.  [enqueue] sets the target of its type and keeps
    the other. *)
Theorem only_enqueue_changes_targets (w : World) (e : Event) (d : string) :
  targets d (step w e)
  = match e with
    | EEnqueue _ d' ty x =>
        if decide (d' = d) then
          Some match ty with
               | temperature => (Some x, deviceStates (this w) !! d ≫= targetState)
               | state => (deviceStates (this w) !! d ≫= targetTemperatureC,
                           Some (state_of_value x))
               end
        else targets d w
    | _ => targets d w
    end.
Proof.
  destruct e; cbn [step].
  - reflexivity.
  - rewrite enqueue_targets. destruct (decide (deviceId = d)) as [->|]; reflexivity.
  - unfold on_interval_elapsed. destruct (runner w); try reflexivity.
    apply targets_frame, processQueue_dispatch_deviceStates.
  - unfold on_call_settled. destruct (runner w); try reflexivity.
    destruct ok; [reflexivity|]. destruct (_ <? _); [reflexivity|].
    rewrite (targets_frame _ _ d (sendRequest_loop_deviceStates _ _ _ _)). reflexivity.
  - unfold on_backoff_elapsed. destruct (runner w); try reflexivity.
    apply targets_frame, sendRequest_loop_deviceStates.
  - unfold on_immediate. destruct (runner w); try reflexivity.
    apply targets_frame, processQueue_deviceStates.
  - unfold on_verification_timer. destruct (find _ _); [|reflexivity].
    rewrite verifyDeviceState_start_targets. reflexivity.
  - unfold on_refresh_settled. destruct (bool_decide _); [|reflexivity].
    rewrite verifyDeviceState_resume_targets. reflexivity.
Qed.

(** *** Nothing is sent that was not asked for *)

Section Asked.
Context (A : GatewayCall -> Prop).

Lemma map_set_elem {V : Type} k (v : V) m kv :
  kv ∈ map_set k v m -> kv = (k, v) \/ kv ∈ m.
Proof.
  induction m as [|[k0 v0] m IH]; cbn.
  - intros H. apply list_elem_of_singleton in H. auto.
  - destruct (decide (k = k0)) as [->|Hne]; intros H;
      apply elem_of_cons in H as [->|H]; auto using list_elem_of_here.
    + right. apply list_elem_of_further, H.
    + destruct (IH H) as [->|H']; auto using list_elem_of_further.
Qed.

Lemma AskedInv_frame w w' :
  queue (this w') = queue (this w) -> runner w' = runner w ->
  deviceStates (this w') = deviceStates (this w) -> sent w' = sent w ->
  AskedInv A w -> AskedInv A w'.
Proof.
  intros Hq Hr Hs Hsent [H1 H2 H3 H4 H5].
  split; rewrite ?Hq, ?Hr, ?Hs, ?Hsent; assumption.
Qed.

Lemma sendRequest_loop_AskedInv now item r w :
  AskedInv A w -> A (gateway_call item) -> AskedInv A (sendRequest_loop now item r w).
Proof.
  intros [H1 H2 H3 H4 H5] Hitem. unfold sendRequest_loop.
  destruct (r <? maxRetries (this w)); split; cbn; try assumption; try exact I.
  intros x Hx. apply elem_of_app in Hx as [Hx|Hx]; [apply H5, Hx|].
  apply list_elem_of_singleton in Hx as ->. exact Hitem.
Qed.

Lemma processQueue_dispatch_AskedInv now w :
  AskedInv A w -> AskedInv A (processQueue_dispatch now w).
Proof.
  intros HI. unfold processQueue_dispatch.
  destruct (getOldestItem (this w)) as [item|] eqn:Hold.
  - apply sendRequest_loop_AskedInv.
    + destruct HI as [H1 H2 H3 H4 H5]. split; cbn; try assumption.
      intros kv Hkv. apply map_delete_elem in Hkv as [Hkv _]. apply H1, Hkv.
    + apply getOldestItem_elem in Hold.
      apply list_elem_of_fmap in Hold as (kv & -> & Hkv).
      apply (asked_queue _ _ HI), Hkv.
  - destruct HI as [H1 H2 H3 H4 H5]. split; cbn; try assumption. exact I.
Qed.

Lemma processQueue_AskedInv now w : AskedInv A w -> AskedInv A (processQueue now w).
Proof.
  intros HI. unfold processQueue.
  destruct (length (queue (this w)) =? 0)%nat;
    [destruct HI; split; cbn; try assumption; exact I|].
  destruct (0 <? _); [destruct HI; split; cbn; try assumption; exact I|].
  apply processQueue_dispatch_AskedInv.
  eapply AskedInv_frame; try exact HI; reflexivity.
Qed.

Lemma enqueue_AskedInv now d ty x w :
  AskedInv A w ->
  A (gateway_call {| id := d; type := ty; value := x; timestamp := now |}) ->
  AskedInv A (enqueue now d ty x w).
Proof.
  intros [H1 H2 H3 H4 H5] Hnew. unfold enqueue.
  set (w5 := scheduleVerification now d _).
  assert (AskedInv A w5) as H5'.
  { subst w5. unfold scheduleVerification, updateDesiredState.
    cbn [this with_this deviceStates set_deviceStates add_log].
    rewrite lookup_insert_eq.
    assert (forall (b : bool) l, queue (this (if b then add_log l w else w)) = queue (this w))
      as Hq by (intros [|] l; reflexivity).
    assert (forall (b : bool) l,
              deviceStates (this (if b then add_log l w else w)) = deviceStates (this w))
      as Hs by (intros [|] l; reflexivity).
    assert (forall (b : bool) l, runner (if b then add_log l w else w) = runner w)
      as Hr by (intros [|] l; reflexivity).
    assert (forall (b : bool) l, sent (if b then add_log l w else w) = sent w)
      as Hsent by (intros [|] l; reflexivity).
    split; cbn [this with_this queue set_queue set_deviceStates deviceStates add_log
                set_timers runner sent]; rewrite ?Hq, ?Hs, ?Hr, ?Hsent.
    - intros kv Hkv. apply map_set_elem in Hkv as [->|Hkv]; [exact Hnew|apply H1, Hkv].
    - exact H2.
    - intros d' st t Hst Ht. rewrite insert_insert_eq in Hst.
      destruct (decide (d = d')) as [<-|Hne].
      + rewrite lookup_insert_eq in Hst. injection Hst as <-. cbn in Ht.
        destruct ty; cbn in Ht.
        * injection Ht as <-. exact Hnew.
        * destruct (deviceStates (this w) !! d) as [st0|] eqn:Hst0; cbn in Ht;
            [eapply H3; eassumption|discriminate].
      + rewrite lookup_insert_ne in Hst by exact Hne. eapply H3; eassumption.
    - intros d' st s Hst Hs'. rewrite insert_insert_eq in Hst.
      destruct (decide (d = d')) as [<-|Hne].
      + rewrite lookup_insert_eq in Hst. injection Hst as <-. cbn in Hs'.
        destruct ty; cbn in Hs'.
        * destruct (deviceStates (this w) !! d) as [st0|] eqn:Hst0; cbn in Hs';
            [eapply H4; eassumption|discriminate].
        * injection Hs' as <-. exact Hnew.
      + rewrite lookup_insert_ne in Hst by exact Hne. eapply H4; eassumption.
    - exact H5. }
  destruct (processing (this w5)); [exact H5'|apply processQueue_AskedInv, H5'].
Qed.

Lemma verifyDeviceState_resume_AskedInv now d r w :
  AskedInv A w -> AskedInv A (verifyDeviceState_resume now d r w).
Proof.
  intros HI. unfold verifyDeviceState_resume.
  destruct r as [[response|]|e];
    [|eapply AskedInv_frame; try exact HI; reflexivity
     |eapply AskedInv_frame; try exact HI; reflexivity].
  assert (AskedInv A (snd (verify_temperature now d (data response) w))) as H1.
  { unfold verify_temperature.
    destruct (deviceStates (this w) !! d) as [ds|] eqn:Hds; [|exact HI].
    destruct (targetTemperatureC ds) as [t|] eqn:Ht; [|exact HI].
    destruct (temperature_mismatch ds (data response)); [|exact HI].
    cbn [snd]. apply enqueue_AskedInv.
    - eapply AskedInv_frame; try exact HI; reflexivity.
    - exact (asked_temperature _ _ HI d ds t Hds Ht). }
  destruct (verify_temperature now d (data response) w) as [m1 w1]. cbn [snd] in H1.
  assert (AskedInv A (snd (verify_state now d (data response) w1))) as H2.
  { unfold verify_state.
    destruct (deviceStates (this w1) !! d) as [ds|] eqn:Hds; [|exact H1].
    destruct (targetState ds) as [s|] eqn:Hs; [|exact H1].
    destruct (state_mismatch ds (data response)); [|exact H1].
    cbn [snd]. apply enqueue_AskedInv.
    - eapply AskedInv_frame; try exact H1; reflexivity.
    - unfold gateway_call. cbn [type id value]. rewrite state_of_value_encodes.
      exact (asked_state _ _ H1 d ds s Hds Hs). }
  destruct (verify_state now d (data response) w1) as [m2 w2]. cbn [snd] in H2.
  destruct (m1 || m2); [exact H2|].
  eapply AskedInv_frame; try exact H2; reflexivity.
Qed.

Lemma verifyDeviceState_start_AskedInv now d w :
  AskedInv A w -> AskedInv A (verifyDeviceState_start now d w).
Proof.
  intros HI. unfold verifyDeviceState_start.
  destruct (deviceStates (this w) !! d) as [ds|] eqn:Hds; [|exact HI].
  assert (forall w1,
            queue (this w1) = queue (this w) -> runner w1 = runner w ->
            sent w1 = sent w ->
            deviceStates (this w1)
            = <[d := {| targetTemperatureC := targetTemperatureC ds;
                        targetState := targetState ds;
                        lastModified := lastModified ds;
                        verificationTimerId := None |}]> (deviceStates (this w)) ->
            AskedInv A w1) as Hframe.
  { intros w1 Hq Hr Hsent Hs. destruct HI as [H1 H2 H3 H4 H5].
    split; rewrite ?Hq, ?Hr, ?Hsent, ?Hs; try assumption.
    - intros d' st t Hst Ht. destruct (decide (d = d')) as [<-|Hne].
      + rewrite lookup_insert_eq in Hst. injection Hst as <-. eapply H3; eassumption.
      + rewrite lookup_insert_ne in Hst by exact Hne. eapply H3; eassumption.
    - intros d' st s Hst Hs'. destruct (decide (d = d')) as [<-|Hne].
      + rewrite lookup_insert_eq in Hst. injection Hst as <-. eapply H4; eassumption.
      + rewrite lookup_insert_ne in Hst by exact Hne. eapply H4; eassumption. }
  destruct (cachesById (this w) !! d); apply Hframe; reflexivity.
Qed.

Lemma step_AskedInv w e :
  AskedInv A w ->
  (forall now d ty x, e = EEnqueue now d ty x ->
     A (gateway_call {| id := d; type := ty; value := x; timestamp := now |})) ->
  AskedInv A (step w e).
Proof.
  intros HI He. destruct e; cbn [step].
  - eapply AskedInv_frame; try exact HI; reflexivity.
  - apply enqueue_AskedInv; [exact HI|apply He; reflexivity].
  - unfold on_interval_elapsed. destruct (runner w); try exact HI.
    apply processQueue_dispatch_AskedInv, HI.
  - unfold on_call_settled. pose proof (asked_runner _ _ HI) as Hr.
    destruct (runner w) as [| | item r | |]; try exact HI.
    destruct ok.
    + destruct HI as [H1 H2 H3 H4 H5]. split; cbn; try assumption. exact I.
    + destruct (_ <? _).
      * destruct HI as [H1 H2 H3 H4 H5]. split; cbn; assumption.
      * apply sendRequest_loop_AskedInv; [|exact Hr].
        eapply AskedInv_frame; try exact HI; reflexivity.
  - unfold on_backoff_elapsed. pose proof (asked_runner _ _ HI) as Hr.
    destruct (runner w); try exact HI.
    apply sendRequest_loop_AskedInv; assumption.
  - unfold on_immediate. destruct (runner w); try exact HI.
    apply processQueue_AskedInv, HI.
  - unfold on_verification_timer. destruct (find _ _); [|exact HI].
    apply verifyDeviceState_start_AskedInv.
    eapply AskedInv_frame; try exact HI; reflexivity.
  - unfold on_refresh_settled. destruct (bool_decide _); [|exact HI].
    apply verifyDeviceState_resume_AskedInv.
    eapply AskedInv_frame; try exact HI; reflexivity.
Qed.

End Asked.

Lemma run_AskedInv es : forall (A : GatewayCall -> Prop) w,
  AskedInv A w -> (forall c, c ∈ asked es -> A c) -> AskedInv A (run es w).
Proof.
  induction es as [|e es IH]; intros A w HI HA; [exact HI|].
  cbn [run fold_left]. apply IH.
  - apply step_AskedInv; [exact HI|].
    intros now d ty x ->. apply HA. unfold asked. cbn. apply list_elem_of_here.
  - intros c Hc. apply HA. unfold asked in *. cbn.
    destruct (match e with EEnqueue _ _ _ _ => _ | _ => None end);
      [apply list_elem_of_further|]; exact Hc.
Qed.

(** The queue sends nothing that was not asked for.  Every call it makes
    on the gateway, at the first attempt, at a retry, or for an item that a
    verification has re-queued, whatever the device reports, is the call of
    a write that came in through [enqueue] from outside. *)
Theorem sends_only_what_was_asked (es : list Event) (i m v : option Z) :
  Forall (fun x => snd x ∈ asked es) (sent (run es (init (new i m v)))).
Proof.
  assert (AskedInv (fun c => c ∈ asked es) (init (new i m v))) as H0.
  { split; cbn.
    - intros kv H. inversion H.
    - exact I.
    - intros d st t H. rewrite lookup_empty in H. discriminate.
    - intros d st s H. rewrite lookup_empty in H. discriminate.
    - intros y H. inversion H. }
  apply Forall_forall.
  exact (asked_sent _ _ (run_AskedInv es _ _ H0 (fun c H => H))).
Qed.

Lemma sends_only_what_was_asked_witness :
  let es := [ERegisterCache "dock" 0; EEnqueue 5000 "dock" temperature 22;
             ECallSettled 5100 true; EImmediate 5101; EVerificationTimer 35000 0;
             ERefreshSettled 35100 "dock"
               (Fulfilled (Some {| data := drifted_status; response_status := 200 |}))] in
  sent (run es (init (new None None None)))
  = [(5000, 0, setTemperatureFahrenheit "dock" 71);
     (35100, 0, setTemperatureFahrenheit "dock" 71)]
  /\ asked es = [setTemperatureFahrenheit "dock" 71]
  /\ Forall (fun x => snd x ∈ asked es) (sent (run es (init (new None None None)))).
Proof.
  intros es. split_and!; [vm_compute; reflexivity|vm_compute; reflexivity|].
  apply (sends_only_what_was_asked es None None None).
Defined.

End QueueMoreFacts.

(** * Further properties of the cache *)

Module CacheMoreFacts.
Import ReadThroughCache CacheAux CacheMoreAux CacheFacts.

Lemma pending_or_not (w : World) p :
  promises w !! p = Some Pending \/ promises w !! p <> Some Pending.
Proof. destruct (promises w !! p) as [[|?]|]; auto; right; congruence. Qed.

Lemma init_CacheInv d ttl : CacheInv (init d ttl).
Proof.
  split; cbn.
  - discriminate.
  - intros p v H. rewrite lookup_nil in H. discriminate.
  - apply init_none_rejected.
  - tauto.
  - intros [x H]. discriminate.
  - tauto.
  - intros [x H]. discriminate.
  - reflexivity.
Qed.

Lemma get_CacheInv now w : CacheInv w -> CacheInv (snd (get now w)).
Proof.
  intros HI. unfold get.
  destruct (valid_entry now (cache w)); [exact HI|].
  destruct (request (cache w)) eqn:Hreq; [exact HI|].
  destruct HI as [H1 H2 H3 H4 H5 H6 H7 H8].
  split; cbn [snd cache promises fetches set_request value request responseTimestamp
              responseExpireAt errorCount lastErrorCode lastErrorMessage];
    try assumption.
  - intros p s Hp Hs. injection Hp as <-.
    rewrite lookup_app_r, Nat.sub_diag in Hs by lia. discriminate.
  - intros p v Hp. apply lookup_app_Some in Hp as [Hp|[_ Hp]]; [eauto|].
    apply list_lookup_singleton_Some in Hp as [_ Hp]. discriminate.
  - intros p e. eapply none_rejected_grow; [exact H3|right; reflexivity].
  - rewrite fmap_app, length_app, H8. cbn. rewrite Nat.add_1_r, seq_S. reflexivity.
Qed.

Lemma refresh_CacheInv now w : CacheInv w -> CacheInv (snd (refresh now w)).
Proof.
  intros [H1 H2 H3 H4 H5 H6 H7 H8]. unfold refresh. apply get_CacheInv.
  split; cbn; try assumption.
  - discriminate.
  - intros [x H]. discriminate.
Qed.

Lemma settle_CacheInv p now o w : CacheInv w -> CacheInv (settle p now o w).
Proof.
  intros HI.
  destruct (pending_or_not w p) as [Hp|Hp];
    [|rewrite (settle_not_pending _ _ _ _ Hp); exact HI].
  pose proof (settle_none_rejected p now o w (cinv_rejected _ HI)) as Hrej.
  rewrite (settle_pending _ _ _ _ Hp) in Hrej |- *.
  pose proof (lookup_lt_Some _ _ _ Hp) as Hlt.
  destruct HI as [H1 H2 H3 H4 H5 H6 H7 H8].
  destruct o as [response|e].
  - rewrite settle_chain_fulfilled in Hrej |- *.
    split; cbn [fst snd cache promises fetches on_fulfilled value request
                responseTimestamp responseExpireAt errorCount lastErrorCode
                lastErrorMessage].
    + discriminate.
    + eauto.
    + exact Hrej.
    + split; discriminate.
    + eauto.
    + tauto.
    + intros [x H]. discriminate.
    + rewrite length_insert. exact H8.
  - rewrite settle_chain_rejected in Hrej |- *.
    unfold on_rejected in Hrej |- *.
    destruct (value (cache w)) as [v|] eqn:Hv.
    + split; cbn [fst snd cache promises fetches value request
                  responseTimestamp responseExpireAt errorCount lastErrorCode
                  lastErrorMessage].
      * intros q s Hq Hs. destruct (decide (p = q)) as [<-|Hne].
        -- rewrite list_lookup_insert_eq in Hs by exact Hlt.
           injection Hs as <-. eauto.
        -- rewrite list_lookup_insert_ne in Hs by exact Hne. eauto.
      * eauto.
      * exact Hrej.
      * split; [discriminate|]. intros Hts. apply H4 in Hts. discriminate.
      * eauto.
      * split; discriminate.
      * eauto.
      * rewrite length_insert. exact H8.
    + split; cbn [fst snd cache promises fetches value request
                  responseTimestamp responseExpireAt errorCount lastErrorCode
                  lastErrorMessage].
      * discriminate.
      * intros q v Hq. destruct (decide (p = q)) as [<-|Hne].
        -- rewrite list_lookup_insert_eq in Hq by exact Hlt. discriminate.
        -- rewrite list_lookup_insert_ne in Hq by exact Hne.
           destruct (H2 q v Hq) as [x Hx]. discriminate.
      * exact Hrej.
      * tauto.
      * intros Hx. destruct (H5 Hx) as [x Hx']. discriminate.
      * split; discriminate.
      * eauto.
      * rewrite length_insert. exact H8.
Qed.






End CacheMoreFacts.

(** * Properties of the characteristic handlers *)

Module ServiceFacts.
Import ReadThroughCache CacheAux CacheMoreAux CacheFacts CacheMoreFacts.
Import Service ServiceAux.

Section Handlers.
Context {V R : Type} (h : Handler V R).









End Handlers.


End ServiceFacts.

(** * Properties of the mapper and the setters *)

Module SetterFacts.
Import ApiQueue QueueAux QueueFacts ThermostatMapper Setters.

(** Writing back the target state that HomeKit has read changes nothing.
    With [OFF] being 0 and [AUTO] not, the value the mapper gives for a
    device status is turned by the setter, by the queue's gateway call and
    by the desired state into the thermal control status of that very
    device status, and a verification that reads the same status back
    finds no state mismatch. *)
Theorem target_state_round_trip (platform : Characteristic) (status0 : DeviceStatus)
    (device : string) (now : Z) (w : World) :
  (TargetHeatingCoolingState_OFF platform =? 0)%float = true ->
  (TargetHeatingCoolingState_AUTO platform =? 0)%float = false ->
  let v := toTargetHeatingCoolingState platform status0 in
  let w' := snd (setTargetState device now v w) in
  fst (setTargetState device now v w)
  = info_setting_state (thermal_control_status (control status0)) v
  /\ gateway_call {| id := device; type := state; value := v; timestamp := now |}
     = setThermalControlStatus device (thermal_control_status (control status0))
  /\ (exists st, deviceStates (this w') !! device = Some st
                 /\ targetState st = Some (thermal_control_status (control status0))
                 /\ state_mismatch st status0 = false)
  /\ ((v =? 0)%float = true <-> thermal_control_status (control status0) = standby).
Proof.
  intros Hoff Hauto v w'.
  assert (state_of_value v = thermal_control_status (control status0)) as Hv.
  { subst v. unfold state_of_value, toTargetHeatingCoolingState.
    destruct (thermal_control_status (control status0)); [rewrite Hoff|rewrite Hauto];
      reflexivity. }
  split_and!.
  - unfold setTargetState. cbn [fst]. f_equal. exact Hv.
  - unfold gateway_call. cbn. rewrite Hv. reflexivity.
  - subst w'. unfold setTargetState. cbn [snd].
    destruct (enqueue_deviceStates now device state v w) as (st & Hst & _ & Hts).
    exists st. rewrite Hv in Hts. split_and!; [exact Hst|exact Hts|].
    unfold state_mismatch. rewrite Hts. apply bool_decide_eq_false. intros H. apply H.
    reflexivity.
  - unfold state_of_value in Hv. destruct (v =? 0)%float; rewrite <- Hv;
      split; congruence.
Qed.

Lemma target_state_round_trip_witness :
  let v := toTargetHeatingCoolingState hap drifted_status in
  v = 0%float
  /\ gateway_call {| id := "dock"; type := state; value := v; timestamp := 5 |}
     = setThermalControlStatus "dock" standby.
Proof.
  destruct (target_state_round_trip hap drifted_status "dock" 5
              (init (new None None None)) eq_refl eq_refl) as (_ & H2 & _).
  split; [reflexivity|exact H2].
Defined.

End SetterFacts.

(** * Properties of the accessory *)

Module AccessoryFacts.
Import ApiQueue QueueAux QueueFacts CacheMoreAux AccessoryAux.

Lemma extends_refl l : extends l l.
Proof. exists []. rewrite app_nil_r. split; [reflexivity|constructor]. Qed.

Lemma extends_trans l1 l2 l3 : extends l1 l2 -> extends l2 l3 -> extends l1 l3.
Proof.
  intros (k1 & -> & H1) (k2 & -> & H2). exists (k1 ++ k2).
  rewrite app_assoc. split; [reflexivity|]. apply Forall_app. auto.
Qed.

Lemma extends_snoc l l' a : extends l l' -> quiet a -> extends l (l' ++ [a]).
Proof.
  intros H Ha. eapply extends_trans; [exact H|].
  exists [a]. split; [reflexivity|]. repeat constructor. exact Ha.
Qed.

Lemma extends_quiet l l' : extends l l' -> Forall quiet l -> Forall quiet l'.
Proof. intros (k & -> & Hk) Hl. apply Forall_app. auto. Qed.

Ltac extends_tac :=
  repeat (apply extends_snoc; [|exact I]); apply extends_refl.

Lemma Evolves_refl d w : Evolves d w w.
Proof. split; try reflexivity; [auto|apply extends_refl]. Qed.

Lemma Evolves_trans d w1 w2 w3 : Evolves d w1 w2 -> Evolves d w2 w3 -> Evolves d w1 w3.
Proof.
  intros [A1 A2 A3 A4 A5 A6 A7] [B1 B2 B3 B4 B5 B6 B7].
  split; try congruence; [auto|eapply extends_trans; eassumption].
Qed.

Ltac evolves_tac :=
  split; cbn; try reflexivity; [auto|extends_tac].

Lemma sendRequest_loop_Evolves d now item r w : Evolves d w (sendRequest_loop now item r w).
Proof. unfold sendRequest_loop. destruct (r <? maxRetries (this w)); evolves_tac. Qed.

Lemma processQueue_dispatch_Evolves d now w : Evolves d w (processQueue_dispatch now w).
Proof.
  unfold processQueue_dispatch. destruct (getOldestItem (this w)); [|evolves_tac].
  eapply Evolves_trans; [|apply sendRequest_loop_Evolves]. evolves_tac.
Qed.

Lemma processQueue_Evolves d now w : Evolves d w (processQueue now w).
Proof.
  unfold processQueue. destruct (length (queue (this w)) =? 0)%nat; [evolves_tac|].
  destruct (0 <? _); [evolves_tac|].
  eapply Evolves_trans; [|apply processQueue_dispatch_Evolves]. evolves_tac.
Qed.

Lemma enqueue_Evolves d now ty x w : Evolves d w (enqueue now d ty x w).
Proof.
  unfold enqueue.
  set (w5 := scheduleVerification now d _).
  assert (Evolves d w w5) as H5.
  { subst w5. unfold scheduleVerification, updateDesiredState.
    cbn [this with_this deviceStates set_deviceStates add_log].
    rewrite lookup_insert_eq.
    split; cbn [this with_this cachesById intervalMs maxRetries verificationDelayMs
                set_deviceStates set_queue add_log set_timers verifying timers log].
    - destruct (map_has _ _); reflexivity.
    - destruct (map_has _ _); reflexivity.
    - destruct (map_has _ _); reflexivity.
    - destruct (map_has _ _); reflexivity.
    - destruct (map_has _ _); reflexivity.
    - intros Ht. apply Forall_app. split; [|repeat constructor].
      assert (timers (if map_has (QueueItemKey d ty) (queue (this w))
                      then add_log (debug_replacing (QueueItemKey d ty)) w else w)
              = timers w) as -> by (destruct (map_has _ _); reflexivity).
      destruct (verificationTimerId _); [apply Forall_clearTimeout|]; exact Ht.
    - destruct (map_has _ _); cbn; extends_tac. }
  destruct (processing (this w5)); [exact H5|].
  eapply Evolves_trans; [exact H5|apply processQueue_Evolves].
Qed.

Lemma on_interval_elapsed_Evolves d now w : Evolves d w (on_interval_elapsed now w).
Proof.
  unfold on_interval_elapsed. destruct (runner w); try apply Evolves_refl.
  apply processQueue_dispatch_Evolves.
Qed.

Lemma on_call_settled_Evolves d now ok w : Evolves d w (on_call_settled now ok w).
Proof.
  unfold on_call_settled. destruct (runner w); try apply Evolves_refl.
  destruct ok; [destruct item as [i [|] v ts]; evolves_tac|].
  destruct (_ <? _); [evolves_tac|].
  eapply Evolves_trans; [|apply sendRequest_loop_Evolves]. evolves_tac.
Qed.

Lemma on_backoff_elapsed_Evolves d now w : Evolves d w (on_backoff_elapsed now w).
Proof.
  unfold on_backoff_elapsed. destruct (runner w); try apply Evolves_refl.
  apply sendRequest_loop_Evolves.
Qed.

Lemma on_immediate_Evolves d now w : Evolves d w (on_immediate now w).
Proof.
  unfold on_immediate. destruct (runner w); try apply Evolves_refl.
  apply processQueue_Evolves.
Qed.

Lemma verify_temperature_Evolves d now a w :
  Evolves d w (snd (verify_temperature now d a w)).
Proof.
  unfold verify_temperature.
  destruct (deviceStates (this w) !! d) as [ds|]; [|apply Evolves_refl].
  destruct (targetTemperatureC ds); [|apply Evolves_refl].
  destruct (temperature_mismatch ds a); [|apply Evolves_refl].
  cbn [snd]. eapply Evolves_trans; [|apply enqueue_Evolves]. evolves_tac.
Qed.

Lemma verify_state_Evolves d now a w :
  Evolves d w (snd (verify_state now d a w)).
Proof.
  unfold verify_state.
  destruct (deviceStates (this w) !! d) as [ds|]; [|apply Evolves_refl].
  destruct (targetState ds); [|apply Evolves_refl].
  destruct (state_mismatch ds a); [|apply Evolves_refl].
  cbn [snd]. eapply Evolves_trans; [|apply enqueue_Evolves]. evolves_tac.
Qed.

Lemma verifyDeviceState_resume_Evolves d now r w :
  Evolves d w (verifyDeviceState_resume now d (Fulfilled r) w).
Proof.
  unfold verifyDeviceState_resume. destruct r as [response|]; [|evolves_tac].
  pose proof (verify_temperature_Evolves d now (data response) w) as H1.
  destruct (verify_temperature now d (data response) w) as [m1 w1]. cbn [snd] in H1.
  pose proof (verify_state_Evolves d now (data response) w1) as H2.
  destruct (verify_state now d (data response) w1) as [m2 w2]. cbn [snd] in H2.
  destruct (m1 || m2).
  - eapply Evolves_trans; eassumption.
  - eapply Evolves_trans; [exact H1|]. eapply Evolves_trans; [exact H2|]. evolves_tac.
Qed.

Local Abbreviation queue_of := SleepmePlatformAccessory.apiQueue.
Local Abbreviation cache_of := SleepmePlatformAccessory.readThroughCache.
Local Abbreviation promises_of w :=
  (ReadThroughCache.promises (SleepmePlatformAccessory.readThroughCache w)).

Lemma new_AccessoryInv config device :
  AccessoryInv config device (SleepmePlatformAccessory.new config device).
Proof.
  split; cbn.
  - reflexivity.
  - apply lookup_insert_eq.
  - reflexivity.
  - reflexivity.
  - reflexivity.
  - constructor.
  - constructor.
  - constructor.
  - reflexivity.
  - apply CacheMoreFacts.init_CacheInv.
  - reflexivity.
  - constructor.
Qed.

(** The queue goes on by a piece of code that acts for the device. *)
Lemma Evolves_AccessoryInv config device w q :
  AccessoryInv config device w -> Evolves device (queue_of w) q ->
  AccessoryInv config device (SleepmePlatformAccessory.with_apiQueue q w).
Proof.
  intros [H1 H2 H3 H4 H5 H6 H7 H8 H9 H10 H11 H12] [E1 E2 E3 E4 E5 E6 E7].
  split; cbn [SleepmePlatformAccessory.with_apiQueue SleepmePlatformAccessory.apiQueue
              SleepmePlatformAccessory.readThroughCache
              SleepmePlatformAccessory.deviceId SleepmePlatformAccessory.refreshes];
    try assumption; try congruence.
  - auto.
  - eapply extends_quiet; eassumption.
Qed.

Lemma get_expirationMS now c :
  ReadThroughCache.expirationMS (ReadThroughCache.cache (snd (ReadThroughCache.get now c)))
  = ReadThroughCache.expirationMS (ReadThroughCache.cache c).
Proof.
  unfold ReadThroughCache.get.
  destruct (ReadThroughCache.valid_entry _ _); [reflexivity|].
  destruct (ReadThroughCache.request _); reflexivity.
Qed.

Lemma settle_expirationMS p now o c :
  ReadThroughCache.expirationMS (ReadThroughCache.cache (ReadThroughCache.settle p now o c))
  = ReadThroughCache.expirationMS (ReadThroughCache.cache c).
Proof.
  unfold ReadThroughCache.settle.
  destruct (ReadThroughCache.promises c !! p) as [[|s]|]; try reflexivity.
  destruct o as [response|e]; [reflexivity|].
  cbn. unfold ReadThroughCache.on_rejected.
  destruct (ReadThroughCache.value _); reflexivity.
Qed.

Lemma get_pending now c p :
  ReadThroughCache.promises c !! p = Some Pending ->
  ReadThroughCache.promises (snd (ReadThroughCache.get now c)) !! p = Some Pending.
Proof.
  intros Hp. destruct (CacheFacts.get_promises now c) as [-> | ->]; [exact Hp|].
  apply lookup_app_l_Some, Hp.
Qed.

Lemma get_AccessoryInv config device now w :
  AccessoryInv config device w ->
  AccessoryInv config device
    (SleepmePlatformAccessory.with_readThroughCache
       (snd (ReadThroughCache.get now (cache_of w))) w).
Proof.
  intros [H1 H2 H3 H4 H5 H6 H7 H8 H9 H10 H11 H12].
  split; cbn [SleepmePlatformAccessory.with_readThroughCache
              SleepmePlatformAccessory.apiQueue SleepmePlatformAccessory.readThroughCache
              SleepmePlatformAccessory.deviceId SleepmePlatformAccessory.refreshes];
    try assumption.
  - eapply Forall_impl; [exact H7|]. intros x [Hx Hp]. split; [exact Hx|].
    apply get_pending, Hp.
  - apply CacheMoreFacts.get_CacheInv, H10.
  - rewrite get_expirationMS. exact H11.
Qed.

Lemma drop_length_snoc {A : Type} (l : list A) x : drop (length l) (l ++ [x]) = [x].
Proof. rewrite drop_app_length. reflexivity. Qed.

Lemma find_timer_elem tid (ts : list Timer) timer :
  find (fun x => bool_decide (timer_id x = tid)) ts = Some timer ->
  timer ∈ ts /\ timer_id timer = tid.
Proof.
  intros H. apply find_some in H as [Hin Hid].
  split; [apply list_elem_of_In, Hin|apply bool_decide_eq_true in Hid; exact Hid].
Qed.

Lemma on_verification_timer_AccessoryInv config device now tid w :
  AccessoryInv config device w ->
  AccessoryInv config device (SleepmePlatformAccessory.on_verification_timer now tid w).
Proof.
  intros HI.
  unfold SleepmePlatformAccessory.on_verification_timer, on_verification_timer.
  destruct (find _ (timers (queue_of w))) as [timer|] eqn:Hfind;
    [|apply Evolves_AccessoryInv; [exact HI|apply Evolves_refl]].
  apply find_timer_elem in Hfind as [Hin _].
  assert (timer_device timer = device) as Hd.
  { pose proof (ainv_timers _ _ _ HI) as Ht. rewrite Forall_forall in Ht.
    apply Ht, Hin. }
  rewrite Hd.
  set (q0 := set_timers (clearTimeout tid (timers (queue_of w)))
               (nextTimerId (queue_of w)) (queue_of w)).
  assert (Evolves device (queue_of w) q0) as E0.
  { subst q0. split; cbn; try reflexivity; [|apply extends_refl].
    apply Forall_clearTimeout. }
  unfold verifyDeviceState_start.
  assert (deviceStates (this q0) = deviceStates (this (queue_of w))) as -> by reflexivity.
  assert (cachesById (this q0) = cachesById (this (queue_of w))) as -> by reflexivity.
  destruct (deviceStates (this (queue_of w)) !! device) as [st|] eqn:Hst.
  - rewrite (ainv_cache _ _ _ HI).
    cbn [refreshed set_verifying add_refreshed with_this].
    assert (refreshed q0 = refreshed (queue_of w)) as -> by reflexivity.
    rewrite drop_length_snoc, CacheFacts.refresh_unfold.
    match goal with
    | |- context [ReadThroughCache.promises ?r !! ?i] =>
        replace (ReadThroughCache.promises r !! i)
          with (Some (@Pending (option ReadThroughCache.Response)))
          by (simpl; rewrite lookup_app_r, Nat.sub_diag by lia; reflexivity)
    end.
    destruct HI as [H1 H2 H3 H4 H5 H6 H7 H8 H9 H10 H11 H12].
    destruct E0 as [E1 E2 E3 E4 E5 E6 E7].
    split; cbn [SleepmePlatformAccessory.apiQueue SleepmePlatformAccessory.readThroughCache
                SleepmePlatformAccessory.deviceId SleepmePlatformAccessory.refreshes
                this with_this set_verifying add_refreshed set_deviceStates
                cachesById intervalMs maxRetries verificationDelayMs timers verifying log
                ReadThroughCache.promises ReadThroughCache.cache].
    + exact H1.
    + exact H2.
    + exact H3.
    + exact H4.
    + exact H5.
    + apply E6, H6.
    + apply Forall_app. split.
      * eapply Forall_impl; [exact H7|]. intros x [Hx Hp]. split; [exact Hx|].
        apply lookup_app_l_Some, Hp.
      * repeat constructor. cbn. rewrite lookup_app_r, Nat.sub_diag by lia. reflexivity.
    + rewrite fmap_app. apply NoDup_app. split_and!; [exact H8| |apply NoDup_singleton].
      intros p Hp Hnew. cbn in Hnew. apply list_elem_of_singleton in Hnew as ->.
      apply list_elem_of_fmap in Hp as (x & Hx & Hin').
      rewrite Forall_forall in H7. destruct (H7 x Hin') as [_ Hpend].
      apply lookup_lt_Some in Hpend. lia.
    + rewrite fmap_app. cbn. rewrite <- H9. reflexivity.
    + pose proof (CacheMoreFacts.refresh_CacheInv now _ H10) as HC.
      rewrite CacheFacts.refresh_unfold in HC. exact HC.
    + exact H11.
    + exact H12.
  - assert (refreshed q0 = refreshed (queue_of w)) as -> by reflexivity.
    rewrite drop_all. apply Evolves_AccessoryInv; assumption.
Qed.

Lemma settle_chain_fulfils now o c :
  exists r, snd (ReadThroughCache.settle_chain now o c) = Fulfilled r.
Proof. rewrite CacheFacts.settle_chain_settlement. destruct o; eauto. Qed.

Lemma on_refresh_settled_Evolves d now r q :
  d ∈ verifying q ->
  let q' := on_refresh_settled now d (Fulfilled r) q in
  q' = verifyDeviceState_resume now d (Fulfilled r)
         (set_verifying (remove_first d (verifying q)) q)
  /\ Evolves d (set_verifying (remove_first d (verifying q)) q) q'.
Proof.
  intros Hd q'. subst q'. unfold on_refresh_settled.
  rewrite bool_decide_eq_true_2 by exact Hd.
  split; [reflexivity|apply verifyDeviceState_resume_Evolves].
Qed.

Lemma filter_snd_cases {A : Type} (l : list (A * nat)) p :
  NoDup (snd <$> l) ->
  (filter (fun x => snd x = p) l = [] /\ filter (fun x => snd x <> p) l = l)
  \/ (exists d, filter (fun x => snd x = p) l = [(d, p)] /\ (d, p) ∈ l
                /\ length l = S (length (filter (fun x => snd x <> p) l))).
Proof.
  induction l as [|[d q] l IH]; intros Hnd; [left; split; reflexivity|].
  rewrite fmap_cons in Hnd. apply NoDup_cons in Hnd as [Hq Hnd]. cbn [snd] in Hq.
  destruct (decide (q = p)) as [->|Hne].
  - right. exists d.
    assert (forall x, x ∈ l -> snd x <> p) as Hall.
    { intros x Hx Heq. apply Hq. apply list_elem_of_fmap. exists x. auto. }
    rewrite filter_cons_True by reflexivity.
    rewrite (filter_cons_False (fun x => snd x <> p)) by (cbn; tauto).
    assert (filter (fun x => snd x = p) l = []) as ->.
    { clear -Hall. induction l as [|a l IH]; [reflexivity|].
      rewrite filter_cons_False by (apply Hall, list_elem_of_here).
      apply IH. intros x Hx. apply Hall, list_elem_of_further, Hx. }
    rewrite (QueueMoreFacts.filter_all (fun x => snd x <> p) l Hall).
    split_and!; [reflexivity|apply list_elem_of_here|reflexivity].
  - rewrite filter_cons_False by (cbn; exact Hne).
    rewrite (filter_cons_True (fun x => snd x <> p)) by (cbn; exact Hne).
    destruct (IH Hnd) as [[H1 H2]|(d' & H1 & H2 & H3)].
    + left. rewrite H1, H2. split; reflexivity.
    + right. exists d'. rewrite H1. cbn [length]. rewrite <- H3.
      split_and!; [reflexivity|apply list_elem_of_further, H2|reflexivity].
Qed.

Lemma fmap_fst_replicate {B : Type} (l : list (string * B)) d :
  Forall (fun x => fst x = d) l -> fst <$> l = replicate (length l) d.
Proof.
  induction 1 as [|x l Hx _ IH]; [reflexivity|].
  cbn. rewrite Hx, <- IH. reflexivity.
Qed.

Lemma remove_first_replicate d n : remove_first d (replicate (S n) d) = replicate n d.
Proof. cbn. rewrite decide_True by reflexivity. reflexivity. Qed.

Lemma Forall_filter_sub {A : Type} (P Q : A -> Prop) `{!forall x, Decision (Q x)}
    (l : list A) :
  Forall P l -> Forall P (filter Q l).
Proof.
  rewrite !Forall_forall. intros Hl x Hx.
  apply list_elem_of_filter in Hx as [_ Hx]. apply Hl, Hx.
Qed.

(** The queue of an accessory after a fetch has settled fulfilled: the one
    verification that awaited the promise, if there is one, has gone on. *)
Lemma fetch_settled_queue config device w p now r :
  AccessoryInv config device w ->
  let q' :=
    fold_left (fun q '(d, _) => on_refresh_settled now d (Fulfilled r) q)
      (filter (fun x => snd x = p) (SleepmePlatformAccessory.refreshes w))
      (queue_of w) in
  Evolves device (set_verifying (verifying q') (queue_of w)) q'
  /\ verifying q'
     = fst <$> filter (fun x => snd x <> p) (SleepmePlatformAccessory.refreshes w)
  /\ (forall d, (d, p) ∈ SleepmePlatformAccessory.refreshes w ->
        q' = verifyDeviceState_resume now device (Fulfilled r)
               (set_verifying (remove_first device (verifying (queue_of w)))
                  (queue_of w))).
Proof.
  intros HI q'.
  pose proof (ainv_refreshes _ _ _ HI) as Href.
  assert (Forall (fun x => fst x = device) (SleepmePlatformAccessory.refreshes w)) as Hdev
    by (eapply Forall_impl; [exact Href|]; intros x [Hx _]; exact Hx).
  destruct (filter_snd_cases (SleepmePlatformAccessory.refreshes w) p
              (ainv_nodup _ _ _ HI)) as [[H1 H2]|(d & H1 & H2 & H3)].
  - subst q'. rewrite H1, H2. cbn [fold_left]. split_and!.
    + split; cbn; try reflexivity; [auto|apply extends_refl].
    + apply (ainv_verifying _ _ _ HI).
    + intros d Hd. exfalso.
      assert ((d, p) ∈ filter (fun x => snd x = p) (SleepmePlatformAccessory.refreshes w))
        as Hin by (apply list_elem_of_filter; split; [reflexivity|exact Hd]).
      rewrite H1 in Hin. inversion Hin.
  - assert (d = device) as ->.
    { rewrite Forall_forall in Hdev. apply (Hdev _ H2). }
    assert (verifying (queue_of w)
            = replicate (S (length (filter (fun x => snd x <> p)
                                      (SleepmePlatformAccessory.refreshes w)))) device)
      as Hver.
    { rewrite (ainv_verifying _ _ _ HI), (fmap_fst_replicate _ device Hdev), H3.
      reflexivity. }
    assert (device ∈ verifying (queue_of w)) as Hin
      by (rewrite Hver; apply list_elem_of_here).
    destruct (on_refresh_settled_Evolves device now r (queue_of w) Hin) as [Heq E].
    cbv zeta in Heq, E.
    assert (q' = on_refresh_settled now device (Fulfilled r) (queue_of w)) as Hq'
      by (subst q'; rewrite H1; reflexivity).
    assert (verifying q' = remove_first device (verifying (queue_of w))) as Hv'
      by (rewrite Hq'; apply (ev_verifying _ _ _ E)).
    split_and!.
    + rewrite Hv', Hq'. exact E.
    + rewrite Hv', Hver, remove_first_replicate.
      symmetry. apply fmap_fst_replicate, Forall_filter_sub, Hdev.
    + intros d' _. rewrite Hq'. exact Heq.
Qed.

Lemma on_fetch_settled_AccessoryInv config device p now o w :
  AccessoryInv config device w ->
  AccessoryInv config device (SleepmePlatformAccessory.on_fetch_settled p now o w).
Proof.
  intros HI. unfold SleepmePlatformAccessory.on_fetch_settled.
  destruct (CacheMoreFacts.pending_or_not (cache_of w) p) as [Hp|Hp].
  - rewrite Hp, (CacheFacts.settle_pending _ _ _ _ Hp).
    pose proof (CacheMoreFacts.settle_CacheInv p now o _ (ainv_cacheinv _ _ _ HI)) as HC.
    pose proof (settle_expirationMS p now o (cache_of w)) as Httl.
    rewrite (CacheFacts.settle_pending _ _ _ _ Hp) in HC, Httl.
    cbn [ReadThroughCache.promises].
    rewrite list_lookup_insert_eq by (eapply lookup_lt_Some; exact Hp).
    destruct (settle_chain_fulfils now o (ReadThroughCache.cache (cache_of w))) as [r Hr].
    rewrite Hr in HC |- *. cbv beta iota.
    destruct (fetch_settled_queue config device w p now r HI) as (E & Hv & _).
    cbv zeta in E, Hv.
    destruct HI as [H1 H2 H3 H4 H5 H6 H7 H8 H9 H10 H11 H12].
    destruct E as [E1 E2 E3 E4 E5 E6 E7].
    split; cbn [SleepmePlatformAccessory.apiQueue SleepmePlatformAccessory.readThroughCache
                SleepmePlatformAccessory.deviceId SleepmePlatformAccessory.refreshes
                ReadThroughCache.promises ReadThroughCache.cache].
    + exact H1.
    + rewrite <- H2. apply (f_equal (fun m => m !! device)). exact E1.
    + etransitivity; [exact E2|exact H3].
    + etransitivity; [exact E3|exact H4].
    + etransitivity; [exact E4|exact H5].
    + apply E6, H6.
    + rewrite Forall_forall in H7 |- *. intros x Hx.
      apply list_elem_of_filter in Hx as [Hne Hx]. destruct (H7 x Hx) as [Hd Hpend].
      split; [exact Hd|]. rewrite list_lookup_insert_ne by congruence. exact Hpend.
    + apply QueueMoreFacts.NoDup_fmap_filter, H8.
    + exact Hv.
    + exact HC.
    + etransitivity; [exact Httl|exact H11].
    + exact (extends_quiet _ _ E7 H12).
  - rewrite (CacheFacts.settle_not_pending _ _ _ _ Hp).
    assert (AccessoryInv config device
              (SleepmePlatformAccessory.with_readThroughCache (cache_of w) w)) as HI'
      by (destruct HI; split; assumption).
    destruct (promises_of w !! p) as [[|s]|]; [congruence|exact HI'|exact HI'].
Qed.

Lemma step_AccessoryInv config device w e :
  AccessoryInv config device w ->
  AccessoryInv config device (SleepmePlatformAccessory.step w e).
Proof.
  intros HI. pose proof (ainv_device _ _ _ HI) as Hd.
  destruct e; cbn [SleepmePlatformAccessory.step].
  - apply Evolves_AccessoryInv; [exact HI|]. rewrite Hd. apply enqueue_Evolves.
  - apply Evolves_AccessoryInv; [exact HI|]. rewrite Hd. apply enqueue_Evolves.
  - apply get_AccessoryInv, HI.
  - apply Evolves_AccessoryInv; [exact HI|apply on_interval_elapsed_Evolves].
  - apply Evolves_AccessoryInv; [exact HI|apply on_call_settled_Evolves].
  - apply Evolves_AccessoryInv; [exact HI|apply on_backoff_elapsed_Evolves].
  - apply Evolves_AccessoryInv; [exact HI|apply on_immediate_Evolves].
  - apply on_verification_timer_AccessoryInv, HI.
  - apply on_fetch_settled_AccessoryInv, HI.
Qed.

Lemma run_AccessoryInv config device es w :
  AccessoryInv config device w ->
  AccessoryInv config device (SleepmePlatformAccessory.run es w).
Proof.
  revert w. induction es as [|e es IH]; intros w HI; [exact HI|].
  cbn. apply IH, step_AccessoryInv, HI.
Qed.


(** The settings of an accessory: the interval between gateway calls and
    the verification delay are the configured ones, where a configured 0
    counts as not configured and gives the default (2000 and 30000), so
    neither is ever 0; there are always three attempts for a write; and
    the cache keeps a response for 1000 ms whatever [cacheTtlMs] says.
    Nothing the accessory does changes any of them. *)
Theorem accessory_settings (config : option SleepmePlatformAccessory.Config)
    (device : string) (es : list SleepmePlatformAccessory.Event) :
  let w := SleepmePlatformAccessory.run es (SleepmePlatformAccessory.new config device) in
  let interval := config ≫= SleepmePlatformAccessory.apiIntervalMs in
  let delay := config ≫= SleepmePlatformAccessory.verificationDelayMs in
  intervalMs (this (queue_of w))
  = match interval with Some 0 | None => 2000 | Some n => n end
  /\ verificationDelayMs (this (queue_of w))
     = match delay with Some 0 | None => 30000 | Some n => n end
  /\ intervalMs (this (queue_of w)) <> 0
  /\ verificationDelayMs (this (queue_of w)) <> 0
  /\ maxRetries (this (queue_of w)) = 3
  /\ ReadThroughCache.expirationMS (ReadThroughCache.cache (cache_of w)) = 1000.
Proof.
  intros w interval delay.
  pose proof (run_AccessoryInv config device es _ (new_AccessoryInv config device)) as HI.
  fold w in HI. destruct HI as [H1 H2 H3 H4 H5 H6 H7 H8 H9 H10 H11 H12].
  rewrite H3, H5. subst interval delay.
  destruct config as [[[[|i|i]|] [[|v|v]|] ttl]|]; cbn; split_and!;
    first [reflexivity | discriminate | assumption].
Qed.



End AccessoryFacts.

(** * Properties of the platform *)

Module PlatformFacts.
Import SleepmePlatform.

Lemma some_not_a_string_false (l : list JSValue) :
  existsb not_a_string l = false <-> Forall (fun k => exists s, k = JSString s) l.
Proof.
  induction l as [|k l IH]; cbn.
  - split; [constructor|reflexivity].
  - rewrite orb_false_iff, IH. split.
    + intros [Hk Hl]. constructor; [|exact Hl].
      destruct k; try discriminate. eauto.
    + intros H. apply Forall_cons in H as [[s ->] Hl]. split; [reflexivity|exact Hl].
Qed.

(** [validateConfig] accepts a configuration exactly when [api_keys] is an
    array of strings and [sleepme_api_url] is truthy.  So an empty array of
    keys is accepted, and an empty URL is not.  The message comes with a
    refusal only and is never "this configuration is invalid": the test on
    the configuration object cannot fail. *)
Theorem validateConfig_accepts (config : PlatformConfig) :
  (fst (validateConfig config) = true
   <-> (exists keys, api_keys config = JSArray keys
                     /\ Forall (fun k => exists s, k = JSString s) keys)
       /\ truthy (sleepme_api_url config) = true)
  /\ (fst (validateConfig config) = true <-> snd (validateConfig config) = EmptyString)
  /\ snd (validateConfig config) <> "this configuration is invalid"
  /\ (forall url, truthy url = true ->
        validateConfig {| api_keys := JSArray []; sleepme_api_url := url |}
        = (true, EmptyString)).
Proof.
  split_and!.
  - unfold validateConfig.
    destruct (api_keys config) as [| | b | x | s | keys |] eqn:Hk;
      try (cbn [Array_isArray negb]; rewrite orb_true_r; cbn;
           split; [discriminate|intros [(keys' & Heq & _) _]; discriminate]).
    cbn.
    destruct (truthy (sleepme_api_url config)) eqn:Hu; cbn;
      [|split; [discriminate|intros [_ H]; discriminate]].
    destruct (existsb not_a_string keys) eqn:He; cbn.
    + split; [discriminate|]. intros [(keys' & Heq & Hall) _].
      injection Heq as <-. apply some_not_a_string_false in Hall. congruence.
    + split; [intros _|reflexivity]. split; [|reflexivity].
      exists keys. split; [reflexivity|]. apply some_not_a_string_false, He.
  - unfold validateConfig.
    destruct (negb (truthy (api_keys config)) || negb (Array_isArray (api_keys config)));
      [split; discriminate|].
    destruct (negb (truthy (sleepme_api_url config))); [split; discriminate|].
    destruct (some not_a_string (api_keys config)); [split; discriminate|].
    cbn. split; reflexivity.
  - unfold validateConfig.
    destruct (negb (truthy (api_keys config)) || negb (Array_isArray (api_keys config)));
      [discriminate|].
    destruct (negb (truthy (sleepme_api_url config))); [discriminate|].
    destruct (some not_a_string (api_keys config)); [discriminate|].
    cbn. discriminate.
  - intros url Hurl. unfold validateConfig. cbn. rewrite Hurl. reflexivity.
Qed.

End PlatformFacts.
